(** * MyKpopTrade back end: the Spotify harvesting scripts

    A shallow embedding of [scripts/hybrid_kpop_collector.py] (class
    [HybridKpopCollector], module [Collector] below) and of
    [scripts/kpop_spotify_cleaner.py] (class [KpopSpotifyCleaner], module
    [Cleaner] below), and the properties of the harvesting, reconciliation
    and revalidation pipeline that hold of them.

    Conventions of the embedding.
    - A Python [dict] decoded from the provider's JSON is a record whose
      fields are options: [None] is an absent key, so [d.get(k, v)] is
      [default v (k d)].
    - Python [int] is [Z]; Python [str] is [string]. Case folding, the
      whitespace of [str.strip] and the regular-expression classes are the
      ASCII ones, which is what Python computes on ASCII text.
    - [requests.get] is an oracle: the provider's answer to the n-th request
      of a call, which is either a response or a raised exception.
    - A MongoDB collection is the list of its documents in natural order;
      [find_one] returns the first document that satisfies the filter.
    - The clock is part of the state: [time.sleep] advances it and is
      recorded, so that a blocking wait is visible in the final state. *)

From Stdlib Require Import ZArith QArith String Ascii List Lia Bool Sorted Permutation.
From stdpp Require Import gmap strings list.
Import ListNotations.
Open Scope string_scope.
Open Scope Z_scope.

(* ===================================================================== *)
(** * Python strings *)
(* ===================================================================== *)

(** [c.lower()] on one ASCII character. *)
Definition lower_ascii (c : ascii) : ascii :=
  let n := nat_of_ascii c in
  if (65 <=? n)%nat && (n <=? 90)%nat then ascii_of_nat (n + 32) else c.

(** [s.lower()] *)
Fixpoint lower (s : string) : string :=
  match s with
  | EmptyString => EmptyString
  | String c s' => String (lower_ascii c) (lower s')
  end.

(** The characters [str.strip] removes: tab, line feed, vertical tab, form
    feed, carriage return, the separators 0x1c to 0x1f and the space. *)
Definition isspace (c : ascii) : bool :=
  let n := nat_of_ascii c in
  ((9 <=? n)%nat && (n <=? 13)%nat) || ((28 <=? n)%nat && (n <=? 32)%nat).

Fixpoint lstrip (s : string) : string :=
  match s with
  | EmptyString => EmptyString
  | String c s' => if isspace c then lstrip s' else s
  end.

Fixpoint rstrip (s : string) : string :=
  match s with
  | EmptyString => EmptyString
  | String c s' =>
      match rstrip s' with
      | EmptyString => if isspace c then EmptyString else String c EmptyString
      | r => String c r
      end
  end.

(** [s.strip()] *)
Definition strip (s : string) : string := rstrip (lstrip s).

(** [needle in hay] for two strings: [needle] occurs in [hay]. *)
Fixpoint str_in (needle hay : string) : bool :=
  String.prefix needle hay ||
  match hay with
  | EmptyString => false
  | String _ hay' => str_in needle hay'
  end.

(** [len(s)] *)
Definition len (s : string) : Z := Z.of_nat (String.length s).

(** Truthiness of an optional string: [None] and [''] are false. *)
Definition truthy (o : option string) : bool :=
  match o with
  | Some s => negb (String.eqb s "")
  | None => false
  end.

(** [any(k in s for k in keywords)] *)
Definition any_in (keywords : list string) (s : string) : bool :=
  existsb (fun k => str_in k s) keywords.

(* ===================================================================== *)
(** * The standard library's [difflib.SequenceMatcher(None, a, b).ratio()]

    Transcribed from CPython's [Lib/difflib.py] for [isjunk = None]. The
    automatic junk heuristic only applies when [len(b) >= 200] and is left
    out: the strings compared here are artist names. [ratio] is
    [2.0 * matches / (len(a) + len(b))], a quotient of two small integers;
    it is kept exact in [Q]. Its comparisons with the literals [0.6] and
    [0.8] come out the same in binary64, since a quotient with a denominator
    below 2^50 that is not the literal's decimal value is further from it
    than the rounding error. *)
(* ===================================================================== *)

Module difflib.

Section SequenceMatcher.
  Variables a b : list ascii.

  (** [b2j.get(x, [])]: the indices of [b] that hold [x], ascending. *)
Fixpoint indices_from (j : nat) (l : list ascii) (x : ascii) : list nat :=
    match l with
    | [] => []
    | y :: l' =>
        if Ascii.eqb x y then j :: indices_from (S j) l' x
        else indices_from (S j) l' x
    end.

Definition b2j (x : ascii) : list nat := indices_from 0 b x.

  (** [j2len.get(j, 0)] on a dict kept as an association list. *)
Fixpoint j2len_get (d : list (nat * nat)) (j : nat) : nat :=
    match d with
    | [] => 0%nat
    | (j', k) :: d' => if Nat.eqb j j' then k else j2len_get d' j
    end.

  (** [j2len.get(j-1, 0)]: the key [-1] is never present. *)
Definition j2len_pred (d : list (nat * nat)) (j : nat) : nat :=
    match j with
    | O => 0%nat
    | S j' => j2len_get d j'
    end.

Definition Match : Type := (nat * nat * nat)%type.

  (** The loop [for j in b2j.get(a[i], nothing)] of [find_longest_match]. *)
Fixpoint scan_js (js : list nat) (blo bhi i : nat) (j2len newj2len : list (nat * nat))
      (best : Match) : list (nat * nat) * Match :=
    match js with
    | [] => (newj2len, best)
    | j :: js' =>
        if (j <? blo)%nat then scan_js js' blo bhi i j2len newj2len best
        else if (bhi <=? j)%nat then (newj2len, best)
        else
          let k := (j2len_pred j2len j + 1)%nat in
          let '(_, _, bestsize) := best in
          let best' := if (bestsize <? k)%nat then ((i + 1 - k)%nat, (j + 1 - k)%nat, k) else best in
          scan_js js' blo bhi i j2len ((j, k) :: newj2len) best'
    end.

  (** The loop [for i in range(alo, ahi)]. *)
Fixpoint scan_is (idxs : list nat) (blo bhi : nat) (j2len : list (nat * nat))
      (best : Match) : Match :=
    match idxs with
    | [] => best
    | i :: idxs' =>
        match nth_error a i with
        | None => best
        | Some x =>
            let '(newj2len, best') := scan_js (b2j x) blo bhi i j2len [] best in
            scan_is idxs' blo bhi newj2len best'
        end
    end.

Definition same_at (i j : nat) : bool :=
    match nth_error a i, nth_error b j with
    | Some x, Some y => Ascii.eqb x y
    | _, _ => false
    end.

  (** [while besti > alo and bestj > blo and a[besti-1] == b[bestj-1]] *)
Fixpoint extend_left (fuel alo blo : nat) (m : Match) : Match :=
    match fuel with
    | O => m
    | S fuel' =>
        let '(besti, bestj, bestsize) := m in
        if (alo <? besti)%nat && (blo <? bestj)%nat && same_at (besti - 1) (bestj - 1)
        then extend_left fuel' alo blo ((besti - 1)%nat, (bestj - 1)%nat, (bestsize + 1)%nat)
        else m
    end.

  (** [while besti+bestsize < ahi and bestj+bestsize < bhi and
      a[besti+bestsize] == b[bestj+bestsize]] *)
Fixpoint extend_right (fuel ahi bhi : nat) (m : Match) : Match :=
    match fuel with
    | O => m
    | S fuel' =>
        let '(besti, bestj, bestsize) := m in
        if (besti + bestsize <? ahi)%nat && (bestj + bestsize <? bhi)%nat
           && same_at (besti + bestsize) (bestj + bestsize)
        then extend_right fuel' ahi bhi (besti, bestj, (bestsize + 1)%nat)
        else m
    end.

  (** [find_longest_match(alo, ahi, blo, bhi)]; with no junk the two loops
      that extend the match over junk elements never run. *)
Definition find_longest_match (alo ahi blo bhi : nat) : Match :=
    let m := scan_is (seq alo (ahi - alo)) blo bhi [] (alo, blo, 0%nat) in
    let m := extend_left (length a) alo blo m in
    extend_right (length a) ahi bhi m.

  (** The loop of [get_matching_blocks] over its work list, and the sum of
      the block sizes that [ratio] takes. Each block found uses up an element
      of [a], so [2 * len(a) + 1] rounds empty the list. *)
Fixpoint matching_size (fuel : nat) (queue : list (nat * nat * nat * nat)) : nat :=
    match fuel with
    | O => 0%nat
    | S fuel' =>
        match queue with
        | [] => 0%nat
        | (alo, ahi, blo, bhi) :: queue' =>
            let '(i, j, k) := find_longest_match alo ahi blo bhi in
            if (k =? 0)%nat then matching_size fuel' queue'
            else
              let q1 := if (alo <? i)%nat && (blo <? j)%nat
                        then (alo, i, blo, j) :: queue' else queue' in
              let q2 := if (i + k <? ahi)%nat && (j + k <? bhi)%nat
                        then (i + k, ahi, j + k, bhi)%nat :: q1 else q1 in
              (k + matching_size fuel' q2)%nat
        end
    end.

Definition matches : nat :=
    matching_size (2 * length a + 2) [(0%nat, length a, 0%nat, length b)].

  (** [_calculate_ratio(matches, len(a) + len(b))] *)
Definition calculate_ratio : Q :=
    let n := (length a + length b)%nat in
    if (n =? 0)%nat then 1%Q
    else (2 * Z.of_nat matches # Pos.of_nat n)%Q.
End SequenceMatcher.

Definition ratio (a b : string) : Q :=
  calculate_ratio (list_ascii_of_string a) (list_ascii_of_string b).

End difflib.

(* ===================================================================== *)
(** * The standard library's [re.search]

    The patterns of the two scripts, as syntax trees, and a matcher for
    them. [ends s r i] lists the positions where a match of [r] that starts
    at position [i] of [s] can end; [re.search] only asks whether some
    match exists, so the order in which Python tries the alternatives does
    not matter. *)
(* ===================================================================== *)

Inductive regex : Type :=
| Eps                               (* the empty pattern *)
| Chr (c : ascii)                   (* one literal character *)
| Cls (p : ascii -> bool)           (* a character class *)
| Seq (r1 r2 : regex)               (* r1 r2 *)
| Alt (r1 r2 : regex)               (* r1|r2 *)
| Star (r : regex)                  (* r* *)
| Bol                               (* ^ *)
| Eol                               (* $ *)
| WordB.                            (* \b *)

Definition Plus (r : regex) : regex := Seq r (Star r).
Definition Opt (r : regex) : regex := Alt r Eps.

(** A literal string. *)
Fixpoint lit (w : string) : regex :=
  match w with
  | EmptyString => Eps
  | String c w' => Seq (Chr c) (lit w')
  end.

(** [\d], [\w], [\s] and [.] *)
Definition is_digit (c : ascii) : bool :=
  let n := nat_of_ascii c in (48 <=? n)%nat && (n <=? 57)%nat.
Definition is_upper (c : ascii) : bool :=
  let n := nat_of_ascii c in (65 <=? n)%nat && (n <=? 90)%nat.
Definition is_lower (c : ascii) : bool :=
  let n := nat_of_ascii c in (97 <=? n)%nat && (n <=? 122)%nat.
Definition is_word (c : ascii) : bool :=
  is_digit c || is_upper c || is_lower c || Ascii.eqb c "_"%char.
Definition not_newline (c : ascii) : bool := negb (Ascii.eqb c "010"%char).

Section Matcher.
  Variable s : list ascii.

Definition word_at (i : nat) : bool :=
    match nth_error s i with
    | Some c => is_word c
    | None => false
    end.

  (** [\b] at position [i]: exactly one of [s[i-1]] and [s[i]] is a word
      character, the outside of the string counting as none. *)
Definition boundary (i : nat) : bool :=
    xorb (match i with O => false | S i' => word_at i' end) (word_at i).

  (** [$] at position [i]: the end of the string, or just before a line
      feed that ends it. *)
Definition at_end (i : nat) : bool :=
    (i =? length s)%nat ||
    ((S i =? length s)%nat &&
       match nth_error s i with Some c => Ascii.eqb c "010"%char | None => false end).

  (** The positions reached from [i] by repeating [step]; a repetition that
      matches the empty string adds nothing, so only steps that advance are
      followed, and [fuel] bounds their number. *)
Fixpoint star_from (fuel : nat) (step : nat -> list nat) (i : nat) : list nat :=
    match fuel with
    | O => [i]
    | S fuel' =>
        i :: flat_map (star_from fuel' step) (List.filter (fun j => (i <? j)%nat) (step i))
    end.

Fixpoint ends (r : regex) (i : nat) : list nat :=
    match r with
    | Eps => [i]
    | Chr c =>
        match nth_error s i with
        | Some x => if Ascii.eqb x c then [S i] else []
        | None => []
        end
    | Cls p =>
        match nth_error s i with
        | Some x => if p x then [S i] else []
        | None => []
        end
    | Seq r1 r2 => flat_map (ends r2) (ends r1 i)
    | Alt r1 r2 => ends r1 i ++ ends r2 i
    | Star r' => star_from (length s) (ends r') i
    | Bol => if (i =? 0)%nat then [i] else []
    | Eol => if at_end i then [i] else []
    | WordB => if boundary i then [i] else []
    end.

Definition matches_at (r : regex) (i : nat) : bool :=
    match ends r i with
    | [] => false
    | _ :: _ => true
    end.
End Matcher.

(** [re.search(r, s)] as a truth value *)
Definition re_search (r : regex) (s : string) : bool :=
  let l := list_ascii_of_string s in
  existsb (matches_at l r) (seq 0 (S (length l))).

(** [any(re.search(p, s) for p in patterns)] *)
Definition any_search (patterns : list regex) (s : string) : bool :=
  existsb (fun p => re_search p s) patterns.

(* ===================================================================== *)
(** * [list.sort(key=..., reverse=True)]

    Python's sort is stable, also with [reverse=True]: the result is the
    list in descending key order, elements with equal keys in their
    original order. Insertion from the right computes exactly that list. *)
(* ===================================================================== *)

Section SortDesc.
  Context {A K : Type} (key : A -> K) (leb : K -> K -> bool).

Fixpoint insert_desc (x : A) (l : list A) : list A :=
    match l with
    | [] => [x]
    | y :: l' => if leb (key y) (key x) then x :: y :: l' else y :: insert_desc x l'
    end.

Fixpoint sort_desc (l : list A) : list A :=
    match l with
    | [] => []
    | x :: l' => insert_desc x (sort_desc l')
    end.

  (** [x] may come before [y] in descending order of the keys. *)
Definition desc (x y : A) : Prop := leb (key y) (key x) = true.

  (** The elements with a given key. *)
Definition with_key `{EqDecision K} (k : K) (x : A) : bool := bool_decide (key x = k).
End SortDesc.

(* ===================================================================== *)
(** * The provider's objects *)
(* ===================================================================== *)

(** An entry of an album's ['artists'] list. *)
Record ArtistRef : Type := {
  ref_id : option string;          (* 'id' *)
  ref_name : option string;        (* 'name' *)
}.

(** An album object of the provider; [discovery_method] is the key that
    [merge_albums] adds. *)
Record Album : Type := {
  album_id : option string;        (* 'id' *)
  album_name : option string;      (* 'name' *)
  release_date : option string;    (* 'release_date' *)
  total_tracks : option Z;         (* 'total_tracks' *)
  album_type : option string;      (* 'album_type' *)
  album_group : option string;     (* 'album_group' *)
  artists : option (list ArtistRef);  (* 'artists' *)
  album_url : option string;       (* 'external_urls'.'spotify' *)
  images : list (option string);   (* the 'url' of each entry of 'images' *)
  discovery_method : option string;   (* 'discovery_method' *)
}.

(** An artist object of the provider. *)
Record Artist : Type := {
  artist_id : option string;       (* 'id' *)
  artist_name : option string;     (* 'name' *)
  genres : list string;            (* 'genres' *)
  popularity : option Z;           (* 'popularity' *)
  followers : option Z;            (* 'followers'.'total' *)
  artist_url : option string;      (* 'external_urls'.'spotify' *)
  artist_images : list (option string);
}.

(** The ['Retry-After'] header of a response: absent, a number of seconds,
    or text that [int()] rejects. *)
Inductive RetryAfter : Type :=
| RA_absent
| RA_seconds (n : Z)
| RA_malformed.

(** What [requests.get] gives: a response with its status code, its
    ['Retry-After'] header and its decoded body ([None] when [.json()]
    raises), or an exception. *)
Inductive response (B : Type) : Type :=
| Response (status_code : Z) (retry_after : RetryAfter) (json : option B)
| RequestException.
Arguments Response {B} _ _ _.
Arguments RequestException {B}.

(** [int(response.headers.get('Retry-After', '60'))]; [None] is the
    [ValueError]. *)
Definition wait_time_of (h : RetryAfter) : option Z :=
  match h with
  | RA_absent => Some 60
  | RA_seconds n => Some n
  | RA_malformed => None
  end.

(* ===================================================================== *)
(** * The document store and the state of a run *)
(* ===================================================================== *)

(** The values stored in a MongoDB document. *)
Inductive value : Type :=
| VStr (s : string)
| VInt (n : Z)
| VBool (b : bool)
| VDate (t : Z)                   (* a datetime or a timestamp *)
| VOid (n : Z)                    (* an ObjectId *)
| VList (l : list string)
| VNull.

#[global] Instance value_eq_dec : EqDecision value.
Proof. solve_decision. Defined.

(** A document is a dict from field names to values; a nested field is
    kept under its dotted path (['socialLinks.spotify']). *)
Abbreviation document := (gmap string value).

(** The state a run reads and writes. Time is counted in milliseconds:
    [time.sleep(0.1)] advances the clock by 100 and the 86400 seconds of a
    retry window are 86 400 000. *)
Record World : Type := {
  groups : list document;          (* mykpoptrade.kpopgroups *)
  albums : list document;          (* mykpoptrade.kpopalbums *)
  next_oid : Z;                    (* the next ObjectId *)
  clock : Z;                       (* datetime.now() *)
  sleeps : list Z;                 (* the time.sleep calls so far, latest first *)
  requests : nat;                  (* the HTTP requests sent so far *)
  processed_spotify_ids : gset string;   (* HybridKpopCollector's caches *)
  existing_group_names : gset string;
}.

Definition set_groups (g : list document) (w : World) : World :=
  {| groups := g; albums := albums w; next_oid := next_oid w; clock := clock w;
     sleeps := sleeps w; requests := requests w;
     processed_spotify_ids := processed_spotify_ids w;
     existing_group_names := existing_group_names w |}.

Definition set_albums (a : list document) (w : World) : World :=
  {| groups := groups w; albums := a; next_oid := next_oid w; clock := clock w;
     sleeps := sleeps w; requests := requests w;
     processed_spotify_ids := processed_spotify_ids w;
     existing_group_names := existing_group_names w |}.

Definition set_next_oid (n : Z) (w : World) : World :=
  {| groups := groups w; albums := albums w; next_oid := n; clock := clock w;
     sleeps := sleeps w; requests := requests w;
     processed_spotify_ids := processed_spotify_ids w;
     existing_group_names := existing_group_names w |}.

Definition set_caches (ids names : gset string) (w : World) : World :=
  {| groups := groups w; albums := albums w; next_oid := next_oid w; clock := clock w;
     sleeps := sleeps w; requests := requests w;
     processed_spotify_ids := ids; existing_group_names := names |}.

(** A computation on the state; [None] is a loop that did not finish
    within the fuel it was given. *)
Definition M (A : Type) : Type := World -> option (A * World).

#[global] Instance M_ret : MRet M := fun A x w => Some (x, w).
#[global] Instance M_bind : MBind M := fun A B f m w =>
  match m w with
  | Some (x, w') => f x w'
  | None => None
  end.

Definition get_world : M World := fun w => Some (w, w).
Definition modify (f : World -> World) : M unit := fun w => Some (tt, f w).
Definition out_of_fuel {A : Type} : M A := fun _ => None.

(** [datetime.now()] *)
Definition now : M Z := fun w => Some (clock w, w).

(** [time.sleep(ms / 1000)] *)
Definition sleep (ms : Z) : M unit :=
  modify (fun w =>
    {| groups := groups w; albums := albums w; next_oid := next_oid w;
       clock := clock w + ms; sleeps := ms :: sleeps w; requests := requests w;
       processed_spotify_ids := processed_spotify_ids w;
       existing_group_names := existing_group_names w |}).

(** [requests.get]: the oracle's answer to this request, the n-th of the
    run. *)
Definition request {B : Type} (oracle : nat -> response B) : M (response B) :=
  fun w =>
    Some (oracle (requests w),
          {| groups := groups w; albums := albums w; next_oid := next_oid w;
             clock := clock w; sleeps := sleeps w; requests := S (requests w);
             processed_spotify_ids := processed_spotify_ids w;
             existing_group_names := existing_group_names w |}).

(** Everything the scripts take from outside their own text: the
    provider's answers and two functions of Python's standard library. *)
Record Env : Type := {
  (** whether the token held at the n-th request is valid or can be renewed *)
  token : nat -> bool;
  (** GET /v1/artists/{id} *)
  get_artist : string -> nat -> response Artist;
  (** GET /v1/artists/{id}/albums at an offset: the ['items'] *)
  get_artist_albums : string -> Z -> nat -> response (list Album);
  (** GET /v1/search?type=album for a query at an offset: ['albums.items']
      and ['albums.total'] *)
  search_albums : string -> Z -> nat -> response (list Album * Z);
  (** GET /v1/search?type=artist for a query at an offset: ['artists.items'] *)
  search_artists : string -> Z -> nat -> response (list Artist);
  (** [int(s)], [None] when it raises *)
  py_int : string -> option Z;
  (** [datetime.strptime(s, '%Y-%m-%d')], [None] when it raises *)
  strptime : string -> option Z;
}.

(** ** Collection operations *)

(** [find_one(filter)] *)
Definition find_one (f : document -> bool) (c : list document) : option document :=
  List.find f c.

(** [replace_one(filter, doc)] and [update_one(filter, {'$set': ...})]: the
    first document that satisfies the filter is rewritten by [upd]. *)
Fixpoint update_first (f : document -> bool) (upd : document -> document)
    (c : list document) : list document :=
  match c with
  | [] => []
  | d :: c' => if f d then upd d :: c' else d :: update_first f upd c'
  end.

(** A replacement keeps the [_id] of the document it replaces. *)
Definition replacement (doc : document) (old : document) : document :=
  match old !! "_id" with
  | Some i => <["_id" := i]> doc
  | None => delete "_id" doc
  end.

(** The [_id] of a document is immutable: a replacement may bring no
    [_id], or the one of the document it replaces. *)
Definition replaceable (doc : document) (old : document) : bool :=
  match doc !! "_id" with
  | Some i => bool_decide (old !! "_id" = Some i)
  | None => true
  end.

(** [replace_one(filter, doc)]: the first document that satisfies the
    filter is replaced; [None] is the [WriteError] of a replacement that
    would alter its [_id]. Without a match nothing is written. *)
Definition replace_one (f : document -> bool) (doc : document) (c : list document)
    : option (list document) :=
  match find_one f c with
  | Some old =>
      if replaceable doc old then Some (update_first f (replacement doc) c) else None
  | None => Some c
  end.

(** [{'$set': fields}] *)
Definition set_fields (fields : list (string * value)) (d : document) : document :=
  fold_left (fun d kv => <[kv.1 := kv.2]> d) fields d.

(** [delete_many(filter)] *)
Definition delete_many (f : document -> bool) (c : list document) : list document :=
  List.filter (fun d => negb (f d)) c.

(** [delete_one(filter)] *)
Fixpoint delete_one (f : document -> bool) (c : list document) : list document :=
  match c with
  | [] => []
  | d :: c' => if f d then c' else d :: delete_one f c'
  end.

(** The filter [{'_id': i}] *)
Definition has_id (i : option value) (d : document) : bool :=
  bool_decide (d !! "_id" = i).

(** A field compared with a value the way a query does: a query for [None]
    matches a document whose field is null or absent. *)
Definition field_is (k : string) (v : option value) (d : document) : bool :=
  match v, d !! k with
  | (None | Some VNull), (None | Some VNull) => true
  | Some x, Some y => bool_decide (x = y)
  | _, _ => false
  end.

(** [{'name': {'$regex': '^' + re.escape(pattern) + '$', '$options': 'i'}}]:
    the field is a string equal to [pattern] up to case, a line feed after
    it being allowed by [$]. *)
Definition name_matches (k : string) (pattern : string) (d : document) : bool :=
  match d !! k with
  | Some (VStr s) =>
      String.eqb (lower s) (lower pattern) ||
      String.eqb (lower s) (lower pattern ++ String "010"%char EmptyString)
  | _ => false
  end.

(** [insert_one(doc)]: the driver gives the document an [_id] when it has
    none; the result is the collection, the inserted id and the next
    ObjectId. [None] is the [DuplicateKeyError] of a document that brings an
    [_id] the collection already holds. *)
Definition insert_into (c : list document) (doc : document) (oid : Z)
    : option (list document * value * Z) :=
  match doc !! "_id" with
  | Some i =>
      if existsb (has_id (Some i)) c then None
      else Some ((c ++ [doc])%list, i, oid)
  | None => Some ((c ++ [<["_id" := VOid oid]> doc])%list, VOid oid, oid + 1)
  end.

(** The two collections' [insert_one]; [None] in the result is the raised
    error, which leaves the state as it was. *)
Definition insert_group (doc : document) : M (option value) := fun w =>
  match insert_into (groups w) doc (next_oid w) with
  | Some (c, i, n) => Some (Some i, set_next_oid n (set_groups c w))
  | None => Some (None, w)
  end.

Definition insert_album (doc : document) : M (option value) := fun w =>
  match insert_into (albums w) doc (next_oid w) with
  | Some (c, i, n) => Some (Some i, set_next_oid n (set_albums c w))
  | None => Some (None, w)
  end.

(** Optional fields of a document as Python reads them. *)
Definition get_str (k : string) (d : document) : option string :=
  match d !! k with
  | Some (VStr s) => Some s
  | _ => None
  end.

Definition opt_str (o : option string) : value :=
  match o with
  | Some s => VStr s
  | None => VNull
  end.

(** The store's own invariant on a collection: every document has an
    [_id], no two documents share one, and the ObjectIds in use are below
    the next one to be given out. *)
Definition store_ok (c : list document) (next : Z) : Prop :=
  List.NoDup (map (fun d => d !! "_id") c) /\
  forall d, In d c ->
    is_Some (d !! "_id") /\ forall n, d !! "_id" = Some (VOid n) -> n < next.

(** A document as [create_album_document] and its like build it at time
    [t]: no [_id] yet, and both timestamps at [t]. *)
Definition fresh_document (doc : document) (t : Z) : Prop :=
  doc !! "_id" = None /\
  doc !! "createdAt" = Some (VDate t) /\
  doc !! "updatedAt" = Some (VDate t).

(** Two documents that agree on every field but [_id] and the two
    timestamps: the same harvested document, passed again as a value or as
    the dict that an earlier call has updated in place. *)
Definition same_input (doc2 doc : document) : Prop :=
  forall k, k <> "_id" -> k <> "createdAt" -> k <> "updatedAt" -> doc2 !! k = doc !! k.

(** The record [s1] stored after a first upsert of [doc] and the record
    [s2] stored after a second: one record under one [_id], its [createdAt]
    kept, its [updatedAt] not earlier, every other field that of [doc]. *)
Definition upserted_twice (doc s1 s2 : document) : Prop :=
  s2 !! "_id" = s1 !! "_id" /\ is_Some (s1 !! "_id") /\
  s2 !! "createdAt" = s1 !! "createdAt" /\ is_Some (s1 !! "createdAt") /\
  (exists u1 u2, s1 !! "updatedAt" = Some (VDate u1)
                 /\ s2 !! "updatedAt" = Some (VDate u2) /\ u1 <= u2) /\
  forall k, k <> "_id" -> k <> "createdAt" -> k <> "updatedAt" ->
    s1 !! k = doc !! k /\ s2 !! k = doc !! k.

(** A record [s] as an upsert of [doc] at time [t] leaves it in the
    store, and the record [s2] that an upsert at time [t] writes over the
    record [s1] that its identity rule found. *)
Definition stored_at (doc s : document) (t : Z) : Prop :=
  is_Some (s !! "_id") /\ is_Some (s !! "createdAt") /\
  s !! "updatedAt" = Some (VDate t) /\
  forall k, k <> "_id" -> k <> "createdAt" -> k <> "updatedAt" -> s !! k = doc !! k.

Definition rewritten (doc s1 s2 : document) (t : Z) : Prop :=
  s2 !! "_id" = s1 !! "_id" /\ is_Some (s1 !! "_id") /\
  s2 !! "createdAt" = Some (default (VDate t) (s1 !! "createdAt")) /\
  s2 !! "updatedAt" = Some (VDate t) /\
  forall k, k <> "_id" -> k <> "createdAt" -> k <> "updatedAt" -> s2 !! k = doc !! k.


(** ** More of Python's strings *)

(** [s.split(sep)[-1]]: what follows the last of the occurrences of [sep]
    that [split] finds from left to right, without overlap. [skip] counts
    the characters of an occurrence still to pass. *)
Fixpoint split_last_go (sep s : string) (skip : nat) (acc : string) : string :=
  match s with
  | EmptyString => acc
  | String _ s' =>
      match skip with
      | S k => split_last_go sep s' k acc
      | O =>
          if String.prefix sep s
          then split_last_go sep s' (String.length sep - 1)
                 (substring (String.length sep) (String.length s) s)
          else split_last_go sep s' 0 acc
      end
  end.

Definition split_last (sep s : string) : string := split_last_go sep s 0 s.

(** [s.split(c)[0]] for a separator of one character *)
Fixpoint split_first (c : ascii) (s : string) : string :=
  match s with
  | EmptyString => EmptyString
  | String x s' => if Ascii.eqb x c then EmptyString else String x (split_first c s')
  end.

(** [s[:n]] *)
Definition take_str (n : nat) (s : string) : string := substring 0 n s.

(** The double quote as a string *)
Definition dquote : string := String "034"%char EmptyString.

(** Regular-expression shorthands *)
Definition seqs (l : list regex) : regex := fold_right Seq Eps l.
Definition spaces : regex := Star (Cls isspace).
Definition digits1 : regex := Plus (Cls is_digit).
Definition any_star : regex := Star (Cls not_newline).
(** [^\s*w\s*$] *)
Definition only (w : string) : regex := seqs [Bol; spaces; lit w; spaces; Eol].

(* ===================================================================== *)
(** * [kpop_spotify_cleaner.py]: class [KpopSpotifyCleaner] *)
(* ===================================================================== *)

Module Cleaner.

(** [is_valid_spotify_release] *)
Definition suspect_patterns : list regex :=
  [ only "(null)"; only "null"; only "undefined"; only "test";
    lit "various artists"; lit "hits années"; lit "best of" ].

Definition is_valid_spotify_release (release : Album) : bool :=
  let total_tracks := default 0 (total_tracks release) in
  let name := default "" (album_name release) in
  let album_type := default "" (album_type release) in
  if total_tracks <? 1 then false
  else if String.eqb name "" || (len (strip name) <? 1) then false
  else if String.eqb album_type "compilation" && str_in "various" (lower name) then false
  else if any_search suspect_patterns (lower name) then false
  else true.

(** [verify_album_belongs_to_artist]: some credited artist has the expected
    id. *)
Definition verify_album_belongs_to_artist (album : Album)
    (expected_spotify_id expected_artist_name : string) : bool :=
  existsb (fun artist => String.eqb (default "" (ref_id artist)) expected_spotify_id)
          (default [] (artists album)).

(** [{**album, 'discovery_method': m}] *)
Definition with_discovery_method (m : string) (album : Album) : Album :=
  {| album_id := album_id album; album_name := album_name album;
     release_date := release_date album; total_tracks := total_tracks album;
     album_type := album_type album; album_group := album_group album;
     artists := artists album; album_url := album_url album;
     images := images album; discovery_method := Some m |}.

(** The dict [unique_albums], in insertion order. [dict_set] is
    [d[k] = v]: a key already present keeps its place and takes the new
    value. *)
Fixpoint dict_set (k : string) (v : Album) (d : list (string * Album))
    : list (string * Album) :=
  match d with
  | [] => [(k, v)]
  | (k', v') :: d' =>
      if String.eqb k k' then (k, v) :: d' else (k', v') :: dict_set k v d'
  end.

(** [k in d] *)
Definition dict_mem (k : string) (d : list (string * Album)) : bool :=
  existsb (fun kv => String.eqb k kv.1) d.

Definition add_official (d : list (string * Album)) (album : Album) :=
  if truthy (album_id album)
  then dict_set (default "" (album_id album)) (with_discovery_method "official" album) d
  else d.

Definition add_search (d : list (string * Album)) (album : Album) :=
  if truthy (album_id album) && negb (dict_mem (default "" (album_id album)) d)
  then dict_set (default "" (album_id album)) (with_discovery_method "search" album) d
  else d.

Definition unique_albums (official_albums search_albums : list Album)
    : list (string * Album) :=
  fold_left add_search search_albums (fold_left add_official official_albums []).

(** The keys of the dict, in insertion order. *)
Definition keys (d : list (string * Album)) : list string := map fst d.

(** The dict after the first loop of [merge_albums]. *)
Definition official_dict (official_albums : list Album) : list (string * Album) :=
  fold_left add_official official_albums [].

(** Every entry is filed under the non-empty external id of its record,
    and no key occurs twice. *)
Definition well_keyed (d : list (string * Album)) : Prop :=
  List.NoDup (keys d) /\
  forall k v, In (k, v) d -> album_id v = Some k /\ k <> "".

(** The sort key [x.get('release_date', '')] *)
Definition date_key (x : Album) : string := default "" (release_date x).

(** [merge_albums] *)
Definition merge_albums (official_albums search_albums : list Album)
    (spotify_id artist_name : string) : list Album :=
  let final_albums := map snd (unique_albums official_albums search_albums) in
  sort_desc date_key String.leb final_albums.

(** The number of records of a list that carry the external id [x]. *)
Definition count_id (x : option string) (l : list Album) : nat :=
  length (List.filter (fun r => bool_decide (album_id r = x)) l).

(** The last item of a listing that carries the external id [x]. *)
Definition last_with_id (x : option string) (l : list Album) : option Album :=
  List.find (fun b => bool_decide (album_id b = x)) (rev l).

(** What [get_search_albums] asks of an album it keeps. *)
Definition owned (spotify_id artist_name : string) (a : Album) : Prop :=
  is_valid_spotify_release a = true /\
  verify_album_belongs_to_artist a spotify_id artist_name = true.

(** The number of turns the loop of [get_search_albums] can still take at
    an offset with the albums collected so far: a turn that goes on either
    is one of the first three, or has added an album to fewer than two
    hundred. *)
Definition turns_left (offset : Z) (all : list Album) : nat :=
  (Z.to_nat (200 - Z.of_nat (length all)) + Z.to_nat ((199 - offset) / 50))%nat.

(** [extract_spotify_id_from_group] *)
Definition extract_spotify_id_from_group (group : document) : option string :=
  match get_str "spotifyId" group with
  | Some spotify_id =>
      if negb (String.eqb spotify_id "") && (String.length spotify_id =? 22)%nat
      then Some spotify_id else None
  | None => None
  end
  ∪
  (let spotify_url := default "" (get_str "socialLinks.spotify" group) in
   if negb (String.eqb spotify_url "") && str_in "/artist/" spotify_url then
     let spotify_id := split_first "?"%char (split_last "/artist/" spotify_url) in
     if (String.length spotify_id =? 22)%nat then Some spotify_id else None
   else None).

Section WithEnv.
  Variable E : Env.

Definition refresh_spotify_token_if_needed : M bool :=
    w ← get_world; mret (token E (requests w)).

Definition kpop_genres : list string :=
    ["k-pop"; "korean pop"; "korean"; "korean hip hop"; "korean r&b"].

  (** [any(kpop_genre in genre for genre in genres for kpop_genre in kpop_genres)] *)
Definition has_kpop_genre (genres : list string) : bool :=
    existsb (fun genre => any_in kpop_genres genre) genres.

  (** [min(2 ** retry_count, 60)] seconds *)
Definition backoff (retry_count : Z) : Z := Z.min (2 ^ retry_count) 60 * 1000.

  (** The loop [while retry_count < max_retries] of
      [validate_kpop_artist_by_id]; [remaining] is
      [max_retries - retry_count], which every turn that does not return
      lowers by one. *)
Fixpoint validate_loop (spotify_id : string) (remaining : nat) (retry_count : Z)
      : M bool :=
    match remaining with
    | O => mret false
    | S remaining' =>
        let on_exception :=
          sleep (backoff (retry_count + 1));;
          validate_loop spotify_id remaining' (retry_count + 1) in
        resp ← request (get_artist E spotify_id);
        match resp with
        | RequestException => on_exception
        | Response status_code retry_after body =>
            if status_code =? 200 then
              match body with
              | Some artist_data => mret (has_kpop_genre (map lower (genres artist_data)))
              | None => on_exception
              end
            else if status_code =? 429 then
              match wait_time_of retry_after with
              | None => on_exception
              | Some wait_time =>
                  if wait_time >? 600 then mret false
                  else if wait_time <? 0 then on_exception
                  else
                    sleep (wait_time * 1000);;
                    validate_loop spotify_id remaining' (retry_count + 1)
              end
            else if status_code =? 404 then mret false
            else
              sleep (backoff (retry_count + 1));;
              validate_loop spotify_id remaining' (retry_count + 1)
        end
    end.

Definition max_retries : nat := 3.

  (** [validate_kpop_artist_by_id] *)
Definition validate_kpop_artist_by_id (spotify_id : string) : M bool :=
    ok ← refresh_spotify_token_if_needed;
    if negb ok then mret false
    else validate_loop spotify_id max_retries 0.

  (** [get_groups_from_database]: the groups that are active and were never
      rate limited, and those whose retry time has passed. *)
Definition due (current_time : Z) (d : document) : bool :=
    match d !! "retryAfter" with
    | Some (VInt t) => t <? current_time
    | _ => false
    end.

Definition processable (current_time : Z) (d : document) : bool :=
    (field_is "isActive" (Some (VBool true)) d && bool_decide (d !! "rateLimited" = None))
    || (field_is "isActive" (Some (VBool true)) d
        && field_is "rateLimited" (Some (VBool true)) d && due current_time d).

  (** The projection of a query: the listed fields that the document has. *)
Definition project (keys : list string) (d : document) : document :=
    fold_left (fun p k => match d !! k with Some v => <[k := v]> p | None => p end)
              keys ∅.

Definition get_groups_from_database : M (list document) :=
    current_time ← now;
    w ← get_world;
    mret (map (project ["_id"; "name"; "spotifyId"; "socialLinks.spotify"; "rateLimited"])
              (List.filter (processable current_time) (groups w))).

  (** [mark_group_as_invalid] *)
Definition is_rate_limit_reason (reason : string) : bool :=
    str_in "429" reason || str_in "rate" (lower reason) || str_in "Rate limiting" reason.

Definition mark_group_as_invalid (group_id : option value) (group_name reason : string)
      : M unit :=
    t ← now;
    if is_rate_limit_reason reason then
      let retry_after_timestamp := t + 86400 * 1000 in
      modify (fun w => set_groups
        (update_first (has_id group_id)
           (set_fields [("isActive", VBool true); ("rateLimited", VBool true);
                        ("lastRateLimitedAt", VDate t);
                        ("retryAfter", VInt retry_after_timestamp);
                        ("rateLimitReason", VStr reason); ("updatedAt", VDate t)])
           (groups w)) w)
    else
      modify (fun w => set_groups
        (update_first (has_id group_id)
           (set_fields [("isActive", VBool false); ("invalidReason", VStr reason);
                        ("invalidatedAt", VDate t); ("updatedAt", VDate t)])
           (groups w)) w).

Definition limit : Z := 50.

  (** The loop [while True] of [get_official_albums]; [None] in the result
      is an exception, which makes the method return the empty list. *)
Fixpoint official_loop (fuel : nat) (spotify_id : string) (offset : Z)
      (all_albums : list Album) : M (option (list Album)) :=
    match fuel with
    | O => out_of_fuel
    | S fuel' =>
        resp ← request (get_artist_albums E spotify_id offset);
        match resp with
        | RequestException => mret None
        | Response status_code _ body =>
            if status_code =? 200 then
              match body with
              | None => mret None
              | Some albums =>
                  if (length albums =? 0)%nat then mret (Some all_albums)
                  else
                    let valid_albums := List.filter is_valid_spotify_release albums in
                    let all_albums := (all_albums ++ valid_albums)%list in
                    if Z.of_nat (length albums) <? limit then mret (Some all_albums)
                    else
                      sleep 100;;
                      official_loop fuel' spotify_id (offset + limit) all_albums
              end
            else mret (Some all_albums)
        end
    end.

Definition get_official_albums (fuel : nat) (spotify_id artist_name : string)
      : M (list Album) :=
    r ← official_loop fuel spotify_id 0 [];
    mret (default [] r).

Definition max_results : Z := 200.

  (** The albums of a page that [get_search_albums] keeps. *)
Definition valid_of_page (spotify_id artist_name : string) (albums : list Album)
      : list Album :=
    List.filter (fun album => is_valid_spotify_release album
                   && verify_album_belongs_to_artist album spotify_id artist_name)
                albums.

  (** The loop [while len(all_albums) < max_results] of
      [get_search_albums]. *)
Fixpoint search_loop (fuel : nat) (spotify_id artist_name : string) (offset : Z)
      (all_albums : list Album) : M (option (list Album)) :=
    match fuel with
    | O => out_of_fuel
    | S fuel' =>
        if negb (Z.of_nat (length all_albums) <? max_results) then mret (Some all_albums)
        else
          resp ← request (search_albums E ("artist:" ++ spotify_id) offset);
          match resp with
          | RequestException => mret None
          | Response status_code _ body =>
              if status_code =? 200 then
                match body with
                | None => mret None
                | Some (albums, total_results) =>
                    if (length albums =? 0)%nat then mret (Some all_albums)
                    else
                      let valid_albums := valid_of_page spotify_id artist_name albums in
                      let all_albums := (all_albums ++ valid_albums)%list in
                      if (length valid_albums =? 0)%nat && (offset >? 100)
                      then mret (Some all_albums)
                      else if (offset + limit >=? total_results)
                              || (Z.of_nat (length albums) <? limit)
                      then mret (Some all_albums)
                      else
                        sleep 200;;
                        search_loop fuel' spotify_id artist_name (offset + limit) all_albums
                end
              else mret (Some all_albums)
          end
    end.

Definition get_search_albums (fuel : nat) (spotify_id artist_name : string)
      : M (list Album) :=
    r ← search_loop fuel spotify_id artist_name 0 [];
    mret (default [] r).

  (** [get_albums_by_artist_id] *)
Definition get_albums_by_artist_id (fuel : nat) (spotify_id artist_name : string)
      : M (list Album) :=
    ok ← refresh_spotify_token_if_needed;
    if negb ok then mret []
    else
      official_albums ← get_official_albums fuel spotify_id artist_name;
      search_albums ← get_search_albums fuel spotify_id artist_name;
      mret (merge_albums official_albums search_albums spotify_id artist_name).

  (** [create_album_document] *)
Definition create_album_document (spotify_album : Album) (group : document) (t : Z)
      : document :=
    let release_date := default "" (release_date spotify_album) in
    let cover_image :=
      match images spotify_album with
      | [] => "/images/albums/default-album.jpg"
      | img :: _ => default "/images/albums/default-album.jpg" img
      end in
    let release_year :=
      if String.eqb release_date "" then VNull
      else match py_int E (take_str 4 release_date) with
           | Some y => VInt y
           | None => VNull
           end in
    list_to_map
      [ ("name", VStr (strip (default "" (album_name spotify_album))));
        ("artistId", default VNull (group !! "_id"));
        ("artistName", default (VStr "") (group !! "name"));
        ("spotifyId", VStr (default "" (album_id spotify_album)));
        ("spotifyUrl", VStr (default "" (album_url spotify_album)));
        ("coverImage", VStr cover_image);
        ("releaseDate", VStr release_date);
        ("releaseYear", release_year);
        ("albumType", VStr (default "album" (album_type spotify_album)));
        ("totalTracks", VInt (default 0 (total_tracks spotify_album)));
        ("discoveryMethod", VStr (default "unknown" (discovery_method spotify_album)));
        ("createdAt", VDate t);
        ("updatedAt", VDate t) ].

  (** The loop [for i, album in enumerate(albums, 1)] of
      [clean_albums_for_group]. *)
Fixpoint insert_albums (albums : list Album) (group : document) : M unit :=
    match albums with
    | [] => mret tt
    | album :: albums' =>
        t ← now;
        insert_album (create_album_document album group t);;
        insert_albums albums' group
    end.

  (** [clean_albums_for_group] *)
Definition clean_albums_for_group (fuel : nat) (group : document) : M unit :=
    let group_name := default "Unknown" (get_str "name" group) in
    let group_id := group !! "_id" in
    match extract_spotify_id_from_group group with
    | None => mark_group_as_invalid group_id group_name "Pas de Spotify ID"
    | Some spotify_id =>
        valid ← validate_kpop_artist_by_id spotify_id;
        if negb valid then
          mark_group_as_invalid group_id group_name "Pas K-pop ou artiste inexistant"
        else
          modify (fun w => set_albums (delete_many (field_is "artistId" group_id) (albums w)) w);;
          t ← now;
          modify (fun w => set_groups
            (update_first (has_id group_id)
               (set_fields [("spotifyId", VStr spotify_id); ("updatedAt", VDate t);
                            ("isActive", VBool true); ("lastValidated", VDate t)])
               (groups w)) w);;
          albums ← get_albums_by_artist_id fuel spotify_id group_name;
          insert_albums albums group
    end.
End WithEnv.

End Cleaner.

(* ===================================================================== *)
(** * [hybrid_kpop_collector.py]: class [HybridKpopCollector] *)
(* ===================================================================== *)

Module Collector.

(** [looks_like_kpop_name] *)
Definition kpop_keywords : list string :=
  [ "twice"; "blackpink"; "bts"; "stray"; "ateez"; "itzy"; "aespa";
    "ive"; "newjeans"; "sserafim"; "gidle"; "nmixx"; "kep1er";
    "seventeen"; "nct"; "enhypen"; "txt"; "treasure"; "the boyz" ].

(** [r{0,n}] *)
Fixpoint upto (n : nat) (r : regex) : regex :=
  match n with
  | O => Eps
  | S n' => Opt (Seq r (upto n' r))
  end.

Definition xz : regex := Cls (fun c => Ascii.eqb c "x"%char || Ascii.eqb c "z"%char).

Definition kpop_patterns : list regex :=
  [ (* \b(girl|boy)\b *)
    seqs [WordB; Alt (lit "girl") (lit "boy"); WordB];
    (* \b\d+(kids?|teens?)\b *)
    seqs [WordB; digits1;
          Alt (Seq (lit "kid") (Opt (Chr "s"%char))) (Seq (lit "teen") (Opt (Chr "s"%char)));
          WordB];
    (* ^[A-Z]{2,8}$ *)
    seqs [Bol; Cls is_upper; Cls is_upper; upto 6 (Cls is_upper); Eol];
    (* [xz]{2,} *)
    seqs [xz; xz; Star xz] ].

Definition looks_like_kpop_name (name : string) : bool :=
  let name_lower := lower name in
  if any_in kpop_keywords name_lower then true
  else if any_search kpop_patterns name_lower then true
  else false.

(** [is_valid_kpop_spotify_artist] *)
Definition label_keywords : list string :=
  [ "entertainment"; "records"; "music"; "label"; "company";
    "corporation"; "inc"; "ltd"; "production"; "official" ].

(** [^\d+|soundtrack|ost|various|compilation|vol\.|pt\.|part] *)
Definition suspicious : regex :=
  Alt (Seq Bol digits1)
  (Alt (lit "soundtrack")
  (Alt (lit "ost")
  (Alt (lit "various")
  (Alt (lit "compilation")
  (Alt (lit "vol.")
  (Alt (lit "pt.") (lit "part"))))))).

Definition has_kpop_genre (genres : list string) : bool :=
  existsb (fun genre => str_in "k-pop" genre || str_in "korean" genre) genres.

Definition is_valid_kpop_spotify_artist (artist : Artist) : bool :=
  let name := default "" (artist_name artist) in
  let genres := map lower (genres artist) in
  let popularity := default 0 (popularity artist) in
  let has_kpop_genre := has_kpop_genre genres in
  let high_popularity_kpop := (popularity >? 30) && looks_like_kpop_name name in
  if negb (has_kpop_genre || high_popularity_kpop) then false
  else if String.eqb name "" || (len (strip name) <? 2) then false
  else if popularity <? 5 then false
  else if any_in label_keywords (lower name) then false
  else if re_search suspicious (lower name) then false
  else true.

(** [is_album_by_artist] *)
Definition is_album_by_artist (album : Album) (target_artist : string) : bool :=
  let target_lower := strip (lower target_artist) in
  existsb (fun artist =>
             let artist_name := strip (lower (default "" (ref_name artist))) in
             String.eqb artist_name target_lower
             || str_in target_lower artist_name
             || str_in artist_name target_lower)
          (default [] (artists album)).

(** [is_primary_artist_album] *)
Definition is_primary_artist_album (album : Album) (target_artist_id : string) : bool :=
  match default [] (artists album) with
  | [] => false
  | primary_artist :: _ =>
      match ref_id primary_artist with
      | Some i => String.eqb i target_artist_id
      | None => false
      end
  end.

(** [is_valid_release_simple] *)
Definition suspect_patterns : list regex :=
  [ only "(null)"; only "null"; only "undefined";
    (* karaoke\s+version *)
    seqs [lit "karaoke"; Plus (Cls isspace); lit "version"];
    (* \(karaoke\) *)
    lit "(karaoke)";
    (* soundtrack.*pt\. *)
    seqs [lit "soundtrack"; any_star; lit "pt."];
    (* original.*soundtrack.*pt\. *)
    seqs [lit "original"; any_star; lit "soundtrack"; any_star; lit "pt."] ].

Definition is_valid_release_simple (release : Album) : bool :=
  let total_tracks := default 0 (total_tracks release) in
  let name := default "" (album_name release) in
  let album_group := default "" (album_group release) in
  if total_tracks <? 4 then false
  else if String.eqb name "" || (len (strip name) <? 1) then false
  else if String.eqb album_group "compilation" || String.eqb album_group "appears_on"
  then false
  else if any_search suspect_patterns (lower name) then false
  else true.

(** The release kind that [create_album_document] derives from the number
    of tracks. *)
Definition final_album_type (total_tracks : Z) : string :=
  if total_tracks >=? 8 then "album"
  else if total_tracks >=? 4 then "ep"
  else "single".

(** An artist that is new to two caches: it has an external id that is
    not among the processed ids, and its name, lowercased and trimmed, is
    not among the existing names. *)
Definition new_to (ids names : gset string) (a : Artist) : Prop :=
  exists i, artist_id a = Some i /\ i ∉ ids
            /\ strip (lower (default "" (artist_name a))) ∉ names.

(** The caches of a state extend the caches [ids0] and [names0]: ids are
    only ever added, and the names stay as loaded. *)
Definition caches_extend (ids0 names0 : gset string) (w : World) : Prop :=
  ids0 ⊆ processed_spotify_ids w /\ existing_group_names w = names0.

(** A document that stores a release of at least four tracks under the
    kind derived from their number. *)
Definition kind_by_tracks (d : document) : Prop :=
  exists n, 4 <= n /\ d !! "totalTracks" = Some (VInt n)
            /\ d !! "albumType" = Some (VStr (final_album_type n)).

(** [calculate_name_similarity]; [max(x, y)] is [y] when [y > x], else
    [x]. *)
Definition py_max (x y : Q) : Q := if Qle_bool y x then x else y.

Definition calculate_name_similarity (name1 name2 : string) : Q :=
  let n1 := strip (lower name1) in
  let n2 := strip (lower name2) in
  let similarity := difflib.ratio n1 n2 in
  if str_in n1 n2 || str_in n2 n1 then py_max similarity 0.8 else similarity.

(** [x < y] on the similarity scale *)
Definition Qltb (x y : Q) : bool := negb (Qle_bool y x).

(** The statistics of [process_artist_complete] and
    [process_existing_group_albums]. *)
Record AlbumStats : Type := {
  group_action : string;
  albums_discovered : Z;
  albums_created : Z;
  albums_updated : Z;
  albums_failed : Z;
}.


(** The counters of [cleanup_invalid_spotify_artists]. *)
Record CleanupCounts : Type := {
  invalid_count : Z;
  rate_limited_count : Z;
  checked_count : Z;
}.

(** ** The two upserts *)

(** The filter of [save_or_update_group]: the same [spotifyId], or the same
    name up to case. *)
Definition same_group (doc : document) (name : string) (d : document) : bool :=
  field_is "spotifyId" (doc !! "spotifyId") d || name_matches "name" name d.

(** The filter of [save_or_update_album]: the same [spotifyId], or the same
    [artistName] and the same name up to case. *)
Definition same_album (doc : document) (artist_name : value) (name : string)
    (d : document) : bool :=
  field_is "spotifyId" (doc !! "spotifyId") d
  || (field_is "artistName" (Some artist_name) d && name_matches "name" name d).

(** [save_or_update_group]. [None] is the [KeyError] of a document without
    a name, which the handler raises again. The third component is the
    dict [document] as the call leaves it; an error inside the [try] gives
    [(False, 'error: ...', None)]. *)
Definition save_or_update_group (doc : document)
    : M (option (bool * string * option document)) :=
  match get_str "name" doc with
  | None => mret None
  | Some name =>
      w ← get_world;
      t ← now;
      match find_one (same_group doc name) (groups w) with
      | Some existing =>
          let doc := <["createdAt" := default (VDate t) (existing !! "createdAt")]> doc in
          let doc := <["updatedAt" := VDate t]> doc in
          match existing !! "_id" with
          | None => mret (Some (false, "error: KeyError", None))
          | Some i =>
              let doc := <["_id" := i]> doc in
              match replace_one (has_id (existing !! "_id")) doc (groups w) with
              | None => mret (Some (false, "error: WriteError", None))
              | Some c =>
                  modify (set_groups c);;
                  mret (Some (true, "updated", Some doc))
              end
          end
      | None =>
          i ← insert_group doc;
          match i with
          | None => mret (Some (false, "error: DuplicateKeyError", None))
          | Some i => mret (Some (true, "created", Some (<["_id" := i]> doc)))
          end
      end
  end.

(** [save_or_update_album]; a document without [artistName] or [name]
    raises inside the [try] and gives [(False, 'error: ...')]. The third
    component is the dict [document] as the call leaves it. *)
Definition save_or_update_album (doc : document) : M (bool * string * document) :=
  match doc !! "artistName", get_str "name" doc with
  | Some artist_name, Some name =>
      w ← get_world;
      t ← now;
      match find_one (same_album doc artist_name name) (albums w) with
      | Some existing =>
          let doc := <["createdAt" := default (VDate t) (existing !! "createdAt")]> doc in
          let doc := <["updatedAt" := VDate t]> doc in
          match replace_one (has_id (existing !! "_id")) doc (albums w) with
          | None => mret (false, "error: WriteError", doc)
          | Some c =>
              modify (set_albums c);;
              mret (true, "updated", doc)
          end
      | None =>
          i ← insert_album doc;
          match i with
          | None => mret (false, "error: DuplicateKeyError", doc)
          | Some i => mret (true, "created", <["_id" := i]> doc)
          end
      end
  | _, _ => mret (false, "error: KeyError", doc)
  end.

(** [delete_group_and_albums] *)
Definition delete_group_and_albums (group_id : option value) (group_name reason : string)
    : M unit :=
  modify (fun w => set_albums (delete_many (field_is "artistId" group_id) (albums w)) w);;
  modify (fun w => set_groups (delete_one (has_id group_id) (groups w)) w).

Section WithEnv.
  Variable E : Env.

  (** The class calls two methods that it does not define,
      [create_group_document] and [is_valid_spotify_album_only]. As the file
      stands both calls raise [AttributeError]; their behaviour is a
      parameter here, [None] standing for a raised exception, so that what is
      proved holds of the file as it stands and of any definition of the
      two. The group document may depend on the time of the call. *)
  Variable create_group_document : Artist -> Z -> option document.
  Variable is_valid_spotify_album_only : Album -> option bool.

Definition refresh_spotify_token_if_needed : M bool :=
    w ← get_world; mret (token E (requests w)).

  (** [load_existing_groups_cache]: both caches are emptied and filled from
      the groups in store order; a group without a name raises, which ends
      the loading with the caches as filled so far. *)
Fixpoint load_groups (gs : list document) (names ids : gset string)
      : gset string * gset string :=
    match gs with
    | [] => (names, ids)
    | group :: gs' =>
        match get_str "name" group with
        | None => (names, ids)
        | Some name =>
            let names := names ∪ {[ strip (lower name) ]} in
            let ids := match get_str "spotifyId" group with
                       | Some i => if String.eqb i "" then ids else ids ∪ {[ i ]}
                       | None => ids
                       end in
            load_groups gs' names ids
        end
    end.

Definition load_existing_groups_cache : M unit :=
    modify (fun w =>
      let '(names, ids) := load_groups (groups w) ∅ ∅ in
      set_caches ids names w).

Definition limit : Z := 50.

  (** The filter of a page of [search_albums_by_artist]: [None] is the
      exception of a call that raises. *)
Fixpoint valid_albums_of (artist_name : string) (albums : list Album)
      : option (list Album) :=
    match albums with
    | [] => Some []
    | album :: albums' =>
        if is_album_by_artist album artist_name then
          match is_valid_spotify_album_only album with
          | None => None
          | Some keep =>
              rest ← valid_albums_of artist_name albums';
              Some (if keep then album :: rest else rest)
          end
        else valid_albums_of artist_name albums'
    end.

  (** The loop [while offset < 1000] of [search_albums_by_artist]; an
      offset that starts at 0 and grows by 50 leaves it within 20 turns. *)
Fixpoint by_name_loop (pages : nat) (artist_name : string) (offset : Z)
      (all_albums : list Album) : M (option (list Album)) :=
    if negb (offset <? 1000) then mret (Some all_albums)
    else
      match pages with
      | O => out_of_fuel
      | S pages' =>
          resp ← request (search_albums E ("artist:" ++ dquote ++ artist_name ++ dquote) offset);
          match resp with
          | RequestException => mret None
          | Response status_code _ body =>
              if status_code =? 200 then
                match body with
                | None => mret None
                | Some (albums, _) =>
                    if (length albums =? 0)%nat then mret (Some all_albums)
                    else
                      match valid_albums_of artist_name albums with
                      | None => mret None
                      | Some valid_albums =>
                          let all_albums := (all_albums ++ valid_albums)%list in
                          if Z.of_nat (length albums) <? limit then mret (Some all_albums)
                          else
                            sleep 100;;
                            by_name_loop pages' artist_name (offset + limit) all_albums
                      end
                end
              else mret (Some all_albums)
          end
      end.

Definition search_albums_by_artist (artist_name : string) : M (list Album) :=
    ok ← refresh_spotify_token_if_needed;
    if negb ok then mret []
    else
      r ← by_name_loop 20 artist_name 0 [];
      mret (default [] r).

  (** The filter of a page of [search_kpop_artists_discovery]. It adds the
      ids it keeps to [processed_spotify_ids] as it goes; [None] is the
      [KeyError] of a valid artist without an id, and the ids added before
      it stay in the cache. *)
Fixpoint new_kpop_artists_of (artists : list Artist) (processed names : gset string)
      : option (list Artist) * gset string :=
    match artists with
    | [] => (Some [], processed)
    | artist :: artists' =>
        if is_valid_kpop_spotify_artist artist then
          match artist_id artist with
          | None => (None, processed)
          | Some i =>
              if bool_decide (i ∉ processed)
                 && bool_decide (strip (lower (default "" (artist_name artist))) ∉ names)
              then
                let '(rest, processed') := new_kpop_artists_of artists' (processed ∪ {[ i ]}) names in
                (option_map (cons artist) rest, processed')
              else new_kpop_artists_of artists' processed names
          end
        else new_kpop_artists_of artists' processed names
    end.

  (** The loop [while offset < 1000] of [search_kpop_artists_discovery]. *)
Fixpoint discovery_loop (pages : nat) (query : string) (offset : Z)
      (all_artists : list Artist) : M (option (list Artist)) :=
    if negb (offset <? 1000) then mret (Some all_artists)
    else
      match pages with
      | O => out_of_fuel
      | S pages' =>
          resp ← request (search_artists E query offset);
          match resp with
          | RequestException => mret None
          | Response status_code _ body =>
              if status_code =? 200 then
                match body with
                | None => mret None
                | Some artists =>
                    if (length artists =? 0)%nat then mret (Some all_artists)
                    else
                      w ← get_world;
                      let '(new_kpop_artists, processed) :=
                        new_kpop_artists_of artists (processed_spotify_ids w)
                                            (existing_group_names w) in
                      modify (set_caches processed (existing_group_names w));;
                      match new_kpop_artists with
                      | None => mret None
                      | Some new_kpop_artists =>
                          let all_artists := (all_artists ++ new_kpop_artists)%list in
                          if Z.of_nat (length artists) <? limit then mret (Some all_artists)
                          else
                            sleep 100;;
                            discovery_loop pages' query (offset + limit) all_artists
                      end
                end
              else mret (Some all_artists)
          end
      end.

Definition search_kpop_artists_discovery (query : string) : M (list Artist) :=
    ok ← refresh_spotify_token_if_needed;
    if negb ok then mret []
    else
      r ← discovery_loop 20 query 0 [];
      mret (default [] r).

Definition search_queries : list string :=
    [ "genre:" ++ dquote ++ "k-pop" ++ dquote;
      "genre:" ++ dquote ++ "korean pop" ++ dquote; "kpop"; "k-pop" ].

  (** The loop [for i, query in enumerate(search_queries)] *)
Fixpoint discover_all (queries : list string) (all_discovered : list Artist)
      : M (list Artist) :=
    match queries with
    | [] => mret all_discovered
    | query :: queries' =>
        artists ← search_kpop_artists_discovery query;
        sleep 500;;
        discover_all queries' (all_discovered ++ artists)%list
    end.

  (** The dict [unique_artists]: an artist enters under its id unless the
      id is already a key. Every discovered artist has an id. *)
Fixpoint unique_artists (all_discovered : list Artist) (seen : list string)
      : list Artist :=
    match all_discovered with
    | [] => []
    | artist :: rest =>
        let artist_id := default "" (artist_id artist) in
        if existsb (String.eqb artist_id) seen then unique_artists rest seen
        else artist :: unique_artists rest (artist_id :: seen)
    end.

  (** The sort key [x.get('popularity', 0)] *)
Definition popularity_key (x : Artist) : Z := default 0 (popularity x).

  (** [discover_new_kpop_artists] *)
Definition discover_new_kpop_artists : M (list Artist) :=
    all_discovered ← discover_all search_queries [];
    let final_list := unique_artists all_discovered [] in
    mret (sort_desc popularity_key Z.leb final_list).

  (** The loop [while True] of [search_albums_by_artist_id] *)
Fixpoint by_id_loop (fuel : nat) (artist_id : string) (offset : Z)
      (all_albums : list Album) : M (option (list Album)) :=
    match fuel with
    | O => out_of_fuel
    | S fuel' =>
        resp ← request (get_artist_albums E artist_id offset);
        match resp with
        | RequestException => mret None
        | Response status_code retry_after body =>
            if status_code =? 200 then
              match body with
              | None => mret None
              | Some albums =>
                  if (length albums =? 0)%nat then mret (Some all_albums)
                  else
                    let valid_albums :=
                      List.filter (fun album => is_primary_artist_album album artist_id
                                                && is_valid_release_simple album) albums in
                    let all_albums := (all_albums ++ valid_albums)%list in
                    if Z.of_nat (length albums) <? limit then mret (Some all_albums)
                    else by_id_loop fuel' artist_id (offset + limit) all_albums
              end
            else if status_code =? 429 then
              match wait_time_of retry_after with
              | None => mret None
              | Some retry_after =>
                  if retry_after <=? 60 then
                    if retry_after <? 0 then mret None
                    else
                      sleep (retry_after * 1000);;
                      by_id_loop fuel' artist_id offset all_albums
                  else mret (Some all_albums)
              end
            else mret (Some all_albums)
        end
    end.

Definition search_albums_by_artist_id (fuel : nat) (artist_id artist_name : string)
      : M (list Album) :=
    ok ← refresh_spotify_token_if_needed;
    if negb ok then mret []
    else
      r ← by_id_loop fuel artist_id 0 [];
      mret (default [] r).

  (** [create_album_document]; [None] is the [KeyError] of a group without
      [_id] or [name]. *)
Definition parse_release_date (release_date_str : string) : value :=
    let parsed :=
      if (String.length release_date_str =? 10)%nat then strptime E release_date_str
      else if (String.length release_date_str =? 7)%nat
      then strptime E (release_date_str ++ "-01")
      else if (String.length release_date_str =? 4)%nat
      then strptime E (release_date_str ++ "-01-01")
      else None in
    match parsed with
    | Some t => VDate t
    | None => VNull
    end.

Definition create_album_document (spotify_release : Album) (group_data : document)
      (t : Z) : option document :=
    let total_tracks := default 0 (total_tracks spotify_release) in
    let cover_image :=
      match images spotify_release with
      | [] => "/images/albums/default-album.jpg"
      | img :: _ => default "/images/albums/default-album.jpg" img
      end in
    match group_data !! "_id", group_data !! "name" with
    | Some group_id, Some group_name =>
        Some (list_to_map
          [ ("name", VStr (strip (default "" (album_name spotify_release))));
            ("coverImage", VStr cover_image);
            ("artistId", group_id);
            ("artistName", group_name);
            ("spotifyId", VStr (default "" (album_id spotify_release)));
            ("spotifyUrl", VStr (default "" (album_url spotify_release)));
            ("releaseDate", parse_release_date (default "" (release_date spotify_release)));
            ("totalTracks", VInt total_tracks);
            ("albumType", VStr (final_album_type total_tracks));
            ("discoverySource", VStr "Spotify");
            ("lastScraped", VDate t);
            ("createdAt", VDate t);
            ("updatedAt", VDate t) ])
    | _, _ => None
    end.

Definition bump_created (s : AlbumStats) : AlbumStats :=
    {| group_action := group_action s; albums_discovered := albums_discovered s;
       albums_created := albums_created s + 1; albums_updated := albums_updated s;
       albums_failed := albums_failed s |}.
Definition bump_updated (s : AlbumStats) : AlbumStats :=
    {| group_action := group_action s; albums_discovered := albums_discovered s;
       albums_created := albums_created s; albums_updated := albums_updated s + 1;
       albums_failed := albums_failed s |}.
Definition bump_failed (s : AlbumStats) : AlbumStats :=
    {| group_action := group_action s; albums_discovered := albums_discovered s;
       albums_created := albums_created s; albums_updated := albums_updated s;
       albums_failed := albums_failed s + 1 |}.
Definition set_discovered (n : Z) (s : AlbumStats) : AlbumStats :=
    {| group_action := group_action s; albums_discovered := n;
       albums_created := albums_created s; albums_updated := albums_updated s;
       albums_failed := albums_failed s |}.
Definition set_action (a : string) (s : AlbumStats) : AlbumStats :=
    {| group_action := a; albums_discovered := albums_discovered s;
       albums_created := albums_created s; albums_updated := albums_updated s;
       albums_failed := albums_failed s |}.

  (** The loop [for album in albums] of the two [process_] methods. *)
Fixpoint save_albums (albums : list Album) (group : document) (stats : AlbumStats)
      : M AlbumStats :=
    match albums with
    | [] => mret stats
    | album :: albums' =>
        t ← now;
        match create_album_document album group t with
        | None => save_albums albums' group (bump_failed stats)
        | Some album_document =>
            saved ← save_or_update_album album_document;
            let '(album_success, album_action, _) := (saved : bool * string * document) in
            let stats :=
              if album_success then
                if str_in "created" album_action then bump_created stats
                else if str_in "updated" album_action then bump_updated stats
                else stats
              else bump_failed stats in
            save_albums albums' group stats
        end
    end.

Definition initial_stats : AlbumStats :=
    {| group_action := "failed"; albums_discovered := 0; albums_created := 0;
       albums_updated := 0; albums_failed := 0 |}.

  (** [process_artist_complete] *)
Definition process_artist_complete (spotify_artist : Artist) : M AlbumStats :=
    let artist_name := default "" (artist_name spotify_artist) in
    let stats := initial_stats in
    t ← now;
    match create_group_document spotify_artist t with
    | None => mret stats
    | Some group_document =>
        saved ← save_or_update_group group_document;
        match saved with
        | Some (true, action, Some final_group) =>
            let stats := set_action action stats in
            albums ← search_albums_by_artist artist_name;
            let stats := set_discovered (Z.of_nat (length albums)) stats in
            save_albums albums final_group stats
        | _ => mret stats
        end
    end.


  (** [process_existing_group_albums]; [None] is the [KeyError] of a group
      without a name, raised before the [try]. *)
Definition process_existing_group_albums (fuel : nat) (group_data : document)
      : M (option AlbumStats) :=
    match get_str "name" group_data with
    | None => mret None
    | Some group_name =>
        albums ← (if truthy (get_str "spotifyId" group_data)
                  then search_albums_by_artist_id fuel
                         (default "" (get_str "spotifyId" group_data)) group_name
                  else search_albums_by_artist group_name);
        let stats := set_discovered (Z.of_nat (length albums)) initial_stats in
        stats ← save_albums albums group_data stats;
        mret (Some stats)
    end.






  (** The loop of phase 1 of [run_hybrid_collection]; the counters are
      [phase_1_processed], [phase_1_groups_created] and
      [phase_1_albums_created]. *)
Fixpoint phase_1 (discovered_artists : list Artist) (counts : Z * Z * Z)
      : M (Z * Z * Z) :=
    match discovered_artists with
    | [] => mret counts
    | spotify_artist :: rest =>
        let '(processed, groups_created, albums_created) := counts in
        artist_stats ← process_artist_complete spotify_artist;
        let groups_created :=
          if str_in "created" (group_action artist_stats)
          then groups_created + 1 else groups_created in
        sleep 1000;;
        phase_1 rest (processed + 1, groups_created,
                      albums_created + Collector.albums_created artist_stats)
    end.



  (** The query of [cleanup_invalid_spotify_artists]. Its dict literal
      names the key ['$ne'] twice and keeps the last: the field exists and
      is not the empty string. *)
Definition with_spotify_id (d : document) : bool :=
    match d !! "spotifyId" with
    | Some v => negb (bool_decide (v = VStr ""))
    | None => false
    end.

Definition kpop_genres : list string :=
    ["k-pop"; "korean pop"; "korean"; "korean hip hop"; "korean r&b"].

Definition is_kpop (genres : list string) : bool :=
    existsb (fun genre => any_in kpop_genres (lower genre)) genres.

Definition bump_invalid (c : CleanupCounts) : CleanupCounts :=
    {| invalid_count := invalid_count c + 1; rate_limited_count := rate_limited_count c;
       checked_count := checked_count c |}.
Definition bump_rate_limited (c : CleanupCounts) : CleanupCounts :=
    {| invalid_count := invalid_count c; rate_limited_count := rate_limited_count c + 1;
       checked_count := checked_count c |}.
Definition bump_checked (c : CleanupCounts) : CleanupCounts :=
    {| invalid_count := invalid_count c; rate_limited_count := rate_limited_count c;
       checked_count := checked_count c + 1 |}.

  (** [group.get('name', 'Unknown')] as the string that
      [calculate_name_similarity] lowers; [None] is a stored name that is
      no string, on which [.lower()] raises. *)
Definition name_of_group (group : document) : option string :=
    match group !! "name" with
    | None => Some "Unknown"
    | Some (VStr s) => Some s
    | Some _ => None
    end.

  (** One turn of the loop of [cleanup_invalid_spotify_artists]. The name
      and the id only reach the log and the URL as text; an id that is no
      string is read as Python prints [None]. *)
Definition check_group (group : document) (c : CleanupCounts) : M CleanupCounts :=
    let group_name := default "Unknown" (get_str "name" group) in
    let spotify_id := default "None" (get_str "spotifyId" group) in
    let group_id := group !! "_id" in
    ok ← refresh_spotify_token_if_needed;
    if negb ok then mret c
    else
      resp ← request (get_artist E spotify_id);
      match resp with
      | RequestException => mret c
      | Response status_code retry_after body =>
          if status_code =? 200 then
            match body with
            | None => mret c
            | Some artist_data =>
                let artist_name := default "" (artist_name artist_data) in
                match name_of_group group with
                | None => mret c
                | Some name1 =>
                    let name_similarity := calculate_name_similarity name1 artist_name in
                    if negb (is_kpop (genres artist_data)) then
                      delete_group_and_albums group_id group_name "Pas K-pop sur Spotify";;
                      sleep 1000;; mret (bump_invalid c)
                    else if Qltb name_similarity 0.6 then
                      delete_group_and_albums group_id group_name
                        ("Nom incorrect: " ++ artist_name);;
                      sleep 1000;; mret (bump_invalid c)
                    else sleep 1000;; mret (bump_checked c)
                end
            end
          else if status_code =? 404 then
            delete_group_and_albums group_id group_name "Artiste inexistant sur Spotify";;
            sleep 1000;; mret (bump_invalid c)
          else if status_code =? 429 then
            match wait_time_of retry_after with
            | None => mret c
            | Some wait_time =>
                if wait_time <=? 300 then
                  if wait_time <? 0 then mret c
                  else sleep (wait_time * 1000);; mret (bump_rate_limited c)
                else sleep 1000;; mret (bump_rate_limited c)
            end
          else sleep 1000;; mret c
      end.

Fixpoint check_groups (gs : list document) (c : CleanupCounts) : M CleanupCounts :=
    match gs with
    | [] => mret c
    | group :: gs' => c' ← check_group group c; check_groups gs' c'
    end.

  (** [cleanup_invalid_spotify_artists]. The method ends after its loop
      without a [return]: its value is Python's [None], and the counters are
      dropped. The dict of counters is returned only by the handler of the
      outer [try]. *)
Definition cleanup_invalid_spotify_artists : M (option CleanupCounts) :=
    w ← get_world;
    let groups_with_spotify :=
      map (Cleaner.project ["_id"; "name"; "spotifyId"])
          (List.filter with_spotify_id (groups w)) in
    check_groups groups_with_spotify
      {| invalid_count := 0; rate_limited_count := 0; checked_count := 0 |};;
    mret None.

End WithEnv.

End Collector.

(** The number of releases a statistics record accounts for. *)
Definition accounted (s : Collector.AlbumStats) : Z :=
  Collector.albums_created s + Collector.albums_updated s + Collector.albums_failed s.



(* ===================================================================== *)
(** * Worked inputs *)
(* ===================================================================== *)

(** An album as the provider lists it. *)
Definition c3_album : Album :=
  {| album_id := Some "4aawyAB9vmqN3uQ7FjRGTy"; album_name := Some "Formula of Love";
     release_date := Some "2021-11-12"; total_tracks := Some 16;
     album_type := Some "album"; album_group := Some "album";
     artists := Some []; album_url := None; images := [];
     discovery_method := None |}.

(** The same album without its external id. *)
Definition album_without_id : Album :=
  {| album_id := None; album_name := Some "Formula of Love";
     release_date := Some "2021-11-12"; total_tracks := Some 16;
     album_type := Some "album"; album_group := Some "album";
     artists := Some []; album_url := None; images := [];
     discovery_method := None |}.

(** Two external ids of artists. *)
Definition twice_id : string := "7n2Ycct7Beij7Dj7meI4X0".
Definition other_id : string := "3Nrfpe0tUJi4K4DXYWgMUX".

Definition credit (i name : string) : ArtistRef :=
  {| ref_id := Some i; ref_name := Some name |}.

(** A release with a given id, name, number of tracks, date, album type
    and credits. *)
Definition release (i name : string) (tracks : Z) (date type : string)
    (credits : list ArtistRef) : Album :=
  {| album_id := Some i; album_name := Some name; release_date := Some date;
     total_tracks := Some tracks; album_type := Some type; album_group := None;
     artists := Some credits; album_url := None; images := [];
     discovery_method := None |}.

(** A release of another artist on which the group is credited second. *)
Definition feat_album : Album :=
  release "6Yt4hIXFr5qsJ3BzQSBqRm" "Collab" 5 "2023-03-10" "album"
          [credit other_id "Other"; credit twice_id "TWICE"].

Definition album_8 : Album :=
  release "1a8RkN5k0tJpQvYxU2mG0Z" "Eyes Wide Open" 8 "2020-10-26" "album"
          [credit twice_id "TWICE"].
Definition album_6 : Album :=
  release "2b6TzP9w1uKqRwZyV3nH1A" "Taste of Love" 6 "2021-06-11" "single"
          [credit twice_id "TWICE"].
Definition album_3 : Album :=
  release "3c3UaQ0x2vLrSxAzW4oI2B" "The Feels" 3 "2021-10-01" "single"
          [credit twice_id "TWICE"].

Definition artist (i name : string) (genres : list string) (pop : Z) : Artist :=
  {| artist_id := Some i; artist_name := Some name; genres := genres;
     popularity := Some pop; followers := Some 1000000; artist_url := None;
     artist_images := [] |}.

(** A provider that answers every artist lookup with [lookup], lists
    [listing] as the artist's albums, finds [found] for every album search
    and [candidates] for every artist search, each on one page. *)
Definition provider (lookup : response Artist) (listing found : list Album)
    (candidates : list Artist) : Env :=
  {| token := fun _ => true;
     get_artist := fun _ _ => lookup;
     get_artist_albums := fun _ offset _ =>
       Response 200 RA_absent (Some (if offset =? 0 then listing else []));
     search_albums := fun _ offset _ =>
       Response 200 RA_absent
         (Some (if offset =? 0 then found else [], Z.of_nat (length found)));
     search_artists := fun _ offset _ =>
       Response 200 RA_absent (Some (if offset =? 0 then candidates else []));
     py_int := fun _ => None;
     strptime := fun _ => None |}.

Definition kpop_lookup : response Artist :=
  Response 200 RA_absent (Some (artist twice_id "TWICE" ["k-pop"; "k-pop girl group"] 85)).

(** The group TWICE as stored, and a store that holds it. *)
Definition twice_group : document :=
  list_to_map [("_id", VOid 1); ("name", VStr "TWICE"); ("spotifyId", VStr twice_id);
               ("isActive", VBool true); ("createdAt", VDate 1000)].

Definition store_0 : World :=
  {| groups := [twice_group]; albums := []; next_oid := 100; clock := 5000;
     sleeps := []; requests := 0;
     processed_spotify_ids := ∅; existing_group_names := ∅ |}.

(** The two methods that [HybridKpopCollector] does not define, as the
    file stands: both calls raise. *)
Definition undefined_group_document : Artist -> Z -> option document := fun _ _ => None.
Definition undefined_album_check : Album -> option bool := fun _ => None.

(** The document that the collector builds for [album_8] of the stored
    group at time 5000, and the state a minute after a given one. *)
Definition album_8_document : document :=
  default ∅ (Collector.create_album_document (provider kpop_lookup [] [] [])
               album_8 twice_group 5000).

Definition a_minute_later (w : World) : World :=
  match sleep 60000 w with
  | Some (_, w') => w'
  | None => w
  end.

(** The document of the group TWICE as a harvest builds it at time 5000:
    no [_id] yet, both timestamps at 5000. *)
Definition twice_document : document :=
  list_to_map [("name", VStr "TWICE"); ("spotifyId", VStr twice_id);
               ("isActive", VBool true); ("createdAt", VDate 5000);
               ("updatedAt", VDate 5000)].

(** A provider whose album listing answers every request with a 429 and a
    [Retry-After] of one second. *)
Definition always_rate_limited : Env :=
  {| token := fun _ => true;
     get_artist := fun _ _ => kpop_lookup;
     get_artist_albums := fun _ _ _ => Response 429 (RA_seconds 1) None;
     search_albums := fun _ _ _ => Response 200 RA_absent (Some ([], 0));
     search_artists := fun _ _ _ => Response 200 RA_absent (Some []);
     py_int := fun _ => None;
     strptime := fun _ => None |}.

(* ===================================================================== *)
(** * Properties of the sort *)
(* ===================================================================== *)

Section SortDescFacts.
  Context {A K : Type} `{EqDecision K} (key : A -> K) (leb : K -> K -> bool).
  Hypothesis leb_total : forall a b, leb a b = true \/ leb b a = true.
  Hypothesis leb_trans : forall a b c, leb a b = true -> leb b c = true -> leb a c = true.

Lemma insert_desc_perm (x : A) (l : list A) :
    Permutation (insert_desc key leb x l) (x :: l).
  Proof.
    induction l as [|y l IH]; simpl; [reflexivity|].
    destruct (leb (key y) (key x)); [reflexivity|].
    rewrite IH. apply perm_swap.
  Qed.

Lemma sort_desc_perm (l : list A) : Permutation (sort_desc key leb l) l.
  Proof.
    induction l as [|x l IH]; simpl; [reflexivity|].
    rewrite insert_desc_perm. by constructor.
  Qed.

Lemma insert_desc_sorted (x : A) (l : list A) :
    Sorted (desc key leb) l -> Sorted (desc key leb) (insert_desc key leb x l).
  Proof.
    induction l as [|y l IH]; simpl; intros Hs.
    - repeat constructor.
    - destruct (leb (key y) (key x)) eqn:Hyx.
      + constructor; [assumption|]. constructor. exact Hyx.
      + inversion Hs as [|? ? Hs' Hhd]; subst.
        constructor; [by apply IH|].
        destruct l as [|z l]; simpl.
        * constructor. unfold desc. destruct (leb_total (key x) (key y)); congruence.
        * destruct (leb (key z) (key x)).
          -- constructor. unfold desc. destruct (leb_total (key x) (key y)); congruence.
          -- inversion Hhd; subst. by constructor.
  Qed.

Lemma sort_desc_sorted (l : list A) : StronglySorted (desc key leb) (sort_desc key leb l).
  Proof.
    apply Sorted_StronglySorted.
    - intros x y z Hxy Hyz. unfold desc in *. eauto.
    - induction l as [|x l IH]; simpl; [constructor|].
      by apply insert_desc_sorted.
  Qed.

Lemma insert_desc_stable (k : K) (x : A) (l : list A) :
    List.filter (with_key key k) (insert_desc key leb x l) = List.filter (with_key key k) (x :: l).
  Proof.
    induction l as [|y l IH]; [reflexivity|].
    cbn [insert_desc]. destruct (leb (key y) (key x)) eqn:Hyx; [reflexivity|].
    cbn [List.filter] in *. rewrite IH.
    unfold with_key. repeat case_bool_decide; try reflexivity.
    assert (leb (key y) (key x) = true); [|congruence].
    destruct (leb_total (key y) (key x)) as [H'|H']; [done|]. congruence.
  Qed.

Lemma sort_desc_stable (k : K) (l : list A) :
    List.filter (with_key key k) (sort_desc key leb l) = List.filter (with_key key k) l.
  Proof.
    induction l as [|x l IH]; [reflexivity|].
    cbn [sort_desc]. rewrite insert_desc_stable. cbn [List.filter]. by rewrite IH.
  Qed.

Lemma sort_desc_In (x : A) (l : list A) : In x (sort_desc key leb l) <-> In x l.
  Proof.
    split; apply Permutation_in; [|symmetry]; apply sort_desc_perm.
  Qed.
End SortDescFacts.

(** The order of Python's strings is total and transitive. *)
Lemma ascii_compare_N (a b : ascii) :
  Ascii.compare a b = N.compare (N_of_ascii a) (N_of_ascii b).
Proof. reflexivity. Qed.

Lemma string_leb_le (s1 s2 : string) :
  String.leb s1 s2 = true <-> String.compare s1 s2 <> Gt.
Proof. unfold String.leb. destruct (String.compare s1 s2); split; congruence. Qed.

Lemma string_compare_trans (s1 s2 s3 : string) :
  String.compare s1 s2 <> Gt -> String.compare s2 s3 <> Gt -> String.compare s1 s3 <> Gt.
Proof.
  revert s2 s3. induction s1 as [|a s1 IH]; intros [|b s2] [|c s3]; simpl; try congruence.
  rewrite !ascii_compare_N.
  destruct (N.compare_spec (N_of_ascii a) (N_of_ascii b)) as [Hab|Hab|Hab];
    destruct (N.compare_spec (N_of_ascii b) (N_of_ascii c)) as [Hbc|Hbc|Hbc];
    destruct (N.compare_spec (N_of_ascii a) (N_of_ascii c)) as [Hac|Hac|Hac];
    try congruence; try lia; eauto.
Qed.

Lemma string_leb_trans (a b c : string) :
  String.leb a b = true -> String.leb b c = true -> String.leb a c = true.
Proof. rewrite !string_leb_le. apply string_compare_trans. Qed.

Lemma string_leb_empty (s : string) : String.leb s "" = true -> s = "".
Proof. destruct s; [done|]. discriminate. Qed.

(** A partial date sorts after the dates that extend it. *)
Lemma string_leb_prefix (s1 s2 : string) :
  String.prefix s1 s2 = true -> String.leb s1 s2 = true.
Proof.
  rewrite string_leb_le. revert s2. induction s1 as [|a s1 IH]; intros [|b s2]; simpl; try congruence.
  destruct (ascii_dec a b) as [->|]; [|discriminate].
  rewrite ascii_compare_N, N.compare_refl. apply IH.
Qed.

(* ===================================================================== *)
(** * Reconciliation: [Cleaner.merge_albums] *)
(* ===================================================================== *)

Section MergeFacts.
  Import Cleaner.

Lemma dict_mem_In (k : string) (d : list (string * Album)) :
    dict_mem k d = true <-> In k (keys d).
  Proof.
    unfold dict_mem, keys. rewrite existsb_exists, in_map_iff. split.
    - intros [[k' v] [Hin Heq]]. apply String.eqb_eq in Heq. simpl in Heq. subst. by exists (k', v).
    - intros [[k' v] [Heq Hin]]. simpl in Heq. subst. exists (k, v). split; [done|]. apply String.eqb_refl.
  Qed.

Lemma dict_mem_false (k : string) (d : list (string * Album)) :
    dict_mem k d = false <-> ~ In k (keys d).
  Proof. rewrite <- dict_mem_In. destruct (dict_mem k d); split; congruence. Qed.

Lemma dict_set_fresh (k : string) (v : Album) (d : list (string * Album)) :
    ~ In k (keys d) -> dict_set k v d = (d ++ [(k, v)])%list.
  Proof.
    induction d as [|[k' v'] d IH]; simpl; intros Hk; [done|].
    destruct (String.eqb_spec k k') as [->|Hne]; [tauto|].
    rewrite IH; [done|tauto].
  Qed.

Lemma dict_set_keys (k : string) (v : Album) (d : list (string * Album)) :
    In k (keys d) -> keys (dict_set k v d) = keys d.
  Proof.
    induction d as [|[k' v'] d IH]; simpl; intros Hk; [done|].
    destruct (String.eqb_spec k k') as [->|Hne]; [done|].
    simpl. rewrite IH; [done|]. destruct Hk; congruence.
  Qed.

Lemma dict_set_In (k : string) (v : Album) (d : list (string * Album)) (kv : string * Album) :
    List.NoDup (keys d) ->
    In kv (dict_set k v d) <-> kv = (k, v) \/ (In kv d /\ kv.1 <> k).
  Proof.
    induction d as [|[k' v'] d IH]; simpl; intros Hnd.
    - split; [intros [<-|[]]; by left|]. intros [->|[[] _]]. by left.
    - inversion Hnd as [|? ? Hk' Hnd']; subst.
      destruct (String.eqb_spec k k') as [->|Hne]; simpl.
      + split.
        * intros [<-|Hin]; [by left|]. right. split; [by right|].
          intros Heq. apply Hk'. rewrite <- Heq. by apply in_map.
        * intros [->|[[<-|Hin] Hneq]]; [by left| |by right]. simpl in Hneq. congruence.
      + rewrite (IH Hnd'). split.
        * intros [<-|[->|[Hin Hneq]]]; [|by left|right; split; [by right|done]].
          right. split; [by left|]. simpl. congruence.
        * intros [->|[[<-|Hin] Hneq]]; [right; by left|by left|]. right. right. done.
  Qed.

Lemma dict_set_NoDup (k : string) (v : Album) (d : list (string * Album)) :
    List.NoDup (keys d) -> List.NoDup (keys (dict_set k v d)).
  Proof.
    intros Hnd. destruct (in_dec string_dec k (keys d)) as [Hin|Hnin].
    - by rewrite dict_set_keys.
    - rewrite dict_set_fresh by done. unfold keys. rewrite map_app. simpl.
      apply NoDup_ListNoDup. apply NoDup_app. split_and!.
      + by apply NoDup_ListNoDup.
      + intros x Hx Hx'. apply list_elem_of_In in Hx. apply list_elem_of_In in Hx'.
        destruct Hx' as [<-|[]]. done.
      + apply NoDup_ListNoDup. constructor; [simpl; tauto|constructor].
  Qed.

Lemma truthy_Some (o : option string) :
    truthy o = true <-> exists k, o = Some k /\ k <> "".
  Proof.
    destruct o as [k|]; simpl.
    - destruct (String.eqb_spec k ""); simpl; split; try congruence.
      + intros [k' [[= <-] ?]]. done.
      + intros _. eauto.
    - split; [discriminate|]. intros [? [? _]]. discriminate.
  Qed.

Lemma add_official_spec (d : list (string * Album)) (a : Album) :
    well_keyed d ->
    well_keyed (add_official d a) /\
    (forall kv, In kv (add_official d a) <->
       (truthy (album_id a) = true /\ kv = (default "" (album_id a), with_discovery_method "official" a))
       \/ (In kv d /\ (truthy (album_id a) = true -> Some kv.1 <> album_id a))).
  Proof.
    intros [Hnd Hk]. unfold add_official.
    destruct (truthy (album_id a)) eqn:Ht.
    - apply truthy_Some in Ht as [k [Hid Hne]]. rewrite Hid. simpl. split.
      + split; [by apply dict_set_NoDup|].
        intros k' v' Hin. apply dict_set_In in Hin; [|done].
        destruct Hin as [[= -> ->]|[Hin _]]; [done|eauto].
      + intros kv. rewrite dict_set_In by done. split.
        * intros [->|[Hin Hneq]]; [left; done|]. right. split; [done|]. intros _. congruence.
        * intros [[_ ->]|[Hin Hneq]]; [by left|]. right. split; [done|]. intros Heq.
          apply Hneq; [done|]. by rewrite Heq.
    - split; [done|]. intros kv. split; [|intros [[? _]|[? _]]; [done|done]].
      intros Hin. right. split; [done|]. done.
  Qed.

Lemma last_with_id_snoc (x : option string) (l : list Album) (a : Album) :
    last_with_id x (l ++ [a]) =
      if bool_decide (album_id a = x) then Some a else last_with_id x l.
  Proof. unfold last_with_id. rewrite rev_app_distr. reflexivity. Qed.

Lemma last_with_id_Some (x : option string) (l : list Album) (a : Album) :
    last_with_id x l = Some a -> In a l /\ album_id a = x.
  Proof.
    unfold last_with_id. intros H. apply find_some in H as [Hin Hp].
    apply in_rev in Hin. by apply bool_decide_eq_true in Hp.
  Qed.

Lemma last_with_id_exists (x : option string) (l : list Album) (a : Album) :
    In a l -> album_id a = x -> exists a', last_with_id x l = Some a'.
  Proof.
    intros Hin Hid. unfold last_with_id.
    destruct (List.find _ (rev l)) as [a'|] eqn:Hf; [eauto|].
    apply in_rev in Hin. apply (find_none _ _ Hf a) in Hin.
    apply bool_decide_eq_false in Hin. done.
  Qed.

  (** After the first loop the dict holds, under every non-empty id of the
      authoritative listing, the last item that carries it, tagged. *)
Lemma official_dict_spec (A : list Album) :
    well_keyed (official_dict A) /\
    forall k v, In (k, v) (official_dict A) <->
      k <> "" /\ exists a, last_with_id (Some k) A = Some a
                           /\ v = with_discovery_method "official" a.
  Proof.
    induction A as [|a A [IHw IH]] using rev_ind.
    - split; [split; [constructor|intros ? ? []]|].
      intros k v. split; [intros []|]. intros [_ [a [Ha _]]]. discriminate.
    - unfold official_dict in *. rewrite fold_left_app. simpl.
      destruct (add_official_spec (fold_left add_official A []) a IHw) as [Hw Hin].
      split; [done|]. intros k v. rewrite Hin, last_with_id_snoc. clear Hin Hw.
      case_bool_decide as Hid.
      + destruct (string_dec k "") as [->|Hne].
        * split; [|intros [? _]; done].
          intros [[Ht _]|[Hd _]].
          -- rewrite Hid in Ht. discriminate.
          -- apply IH in Hd as [? _]. done.
        * split.
          -- intros [[_ [= _ ->]]|[_ Hneq]]; [eauto|].
             exfalso. apply Hneq; [|done]. rewrite Hid. simpl. by destruct (String.eqb_spec k "").
          -- intros [_ [a' [[= <-] ->]]]. left. rewrite Hid. simpl.
             split; [by destruct (String.eqb_spec k "")|done].
      + rewrite <- IH. split.
        * intros [[Ht [= -> _]]|[Hd _]]; [|done].
          apply truthy_Some in Ht as [k' [Hk' _]]. rewrite Hk' in Hid. simpl in Hid. done.
        * intros Hd. right. split; [done|]. intros _ Heq. simpl in Heq. congruence.
  Qed.

  (** The second loop only appends: entries tagged [search], under ids that
      the dict did not hold. *)
Lemma add_search_spec (S : list Album) (d : list (string * Album)) :
    well_keyed d ->
    exists news,
      fold_left add_search S d = (d ++ news)%list /\
      well_keyed (d ++ news) /\
      forall k v, In (k, v) news ->
        ~ In k (keys d) /\
        exists a, In a S /\ album_id a = Some k /\ v = with_discovery_method "search" a.
  Proof.
    revert d. induction S as [|a S IH]; intros d Hw; simpl.
    - exists []. rewrite app_nil_r. split_and!; [done|done|intros ? ? []].
    - unfold add_search at 2.
      destruct (truthy (album_id a) && negb (dict_mem (default "" (album_id a)) d)) eqn:Hc.
      + apply andb_true_iff in Hc as [Ht Hm]. apply negb_true_iff, dict_mem_false in Hm.
        apply truthy_Some in Ht as [k [Hid Hne]]. rewrite Hid in *. simpl in Hm. simpl.
        rewrite dict_set_fresh by done.
        assert (Hw' : well_keyed (d ++ [(k, with_discovery_method "search" a)])).
        { destruct Hw as [Hnd Hk]. split.
          - rewrite <- (dict_set_fresh k (with_discovery_method "search" a) d Hm).
            by apply dict_set_NoDup.
          - intros k' v' Hin. apply in_app_iff in Hin as [Hin|[[= <- <-]|[]]]; [eauto|done]. }
        destruct (IH _ Hw') as [news [Heq [Hwn Hnews]]].
        exists ((k, with_discovery_method "search" a) :: news).
        rewrite Heq, <- app_assoc. simpl. split_and!; [done| |].
        * by rewrite <- app_assoc in Hwn.
        * intros k' v' [[= <- <-]|Hin]; [split; [done|eauto]|].
          destruct (Hnews _ _ Hin) as [Hnk [a' [Ha' [Hid' ->]]]].
          split; [|eauto]. intros Hk'. apply Hnk. unfold keys. rewrite map_app.
          apply in_app_iff. by left.
      + destruct (IH _ Hw) as [news [Heq [Hwn Hnews]]].
        exists news. split_and!; [done|done|].
        intros k' v' Hin. destruct (Hnews _ _ Hin) as [Hnk [a' [Ha' [Hid' ->]]]].
        split; [done|]. exists a'. split; [by right|done].
  Qed.

Lemma count_id_perm (x : option string) (l l' : list Album) :
    Permutation l l' -> count_id x l = count_id x l'.
  Proof.
    unfold count_id. induction 1; simpl; repeat case_bool_decide; simpl; congruence.
  Qed.

Lemma count_id_keyed (k : string) (d : list (string * Album)) :
    well_keyed d ->
    count_id (Some k) (map snd d) = if dict_mem k d then 1%nat else 0%nat.
  Proof.
    unfold count_id. induction d as [|[k' v'] d IH]; intros [Hnd Hk]; [done|].
    inversion Hnd as [|? ? Hk' Hnd']; subst.
    specialize (IH (conj Hnd' (fun k v H => Hk k v (or_intror H)))).
    cbn [map snd List.filter]. rewrite (proj1 (Hk k' v' (or_introl eq_refl))).
    unfold dict_mem in *. cbn [existsb fst].
    destruct (String.eqb_spec k k') as [->|Hne].
    - rewrite bool_decide_eq_true_2 by done. cbn [length orb]. rewrite IH.
      apply dict_mem_false in Hk'. unfold dict_mem in Hk'. by rewrite Hk'.
    - rewrite bool_decide_eq_false_2 by congruence. by rewrite IH.
  Qed.

Lemma NoDup_map_inj {X Y : Type} (f : X -> Y) (l : list X) (x y : X) :
    List.NoDup (map f l) -> In x l -> In y l -> f x = f y -> x = y.
  Proof.
    induction l as [|z l IH]; simpl; [done|].
    intros Hnd. inversion Hnd as [|? ? Hz Hnd']; subst.
    intros [->|Hx] [->|Hy] Heq; [done| | |by apply IH].
    - exfalso. apply Hz. rewrite Heq. by apply in_map.
    - exfalso. apply Hz. rewrite <- Heq. by apply in_map.
  Qed.

Lemma unique_albums_spec (A S : list Album) :
    exists news,
      unique_albums A S = (official_dict A ++ news)%list /\
      well_keyed (official_dict A ++ news) /\
      forall k v, In (k, v) news ->
        ~ In k (keys (official_dict A)) /\
        exists a, In a S /\ album_id a = Some k /\ v = with_discovery_method "search" a.
  Proof. apply add_search_spec, official_dict_spec. Qed.

Lemma well_keyed_functional (d : list (string * Album)) (k : string) (v v' : Album) :
    well_keyed d -> In (k, v) d -> In (k, v') d -> v = v'.
  Proof.
    intros [Hnd _] Hv Hv'.
    assert (H : (k, v) = (k, v')) by (eapply (NoDup_map_inj fst); eauto).
    congruence.
  Qed.

Lemma StronglySorted_after {X : Type} (R : X -> X -> Prop) (l1 l2 : list X) (x : X) :
    StronglySorted R (l1 ++ x :: l2) -> Forall (R x) l2.
  Proof.
    induction l1 as [|y l1 IH]; simpl; intros H; inversion H; subst; eauto.
  Qed.
End MergeFacts.

(** C3. For every authoritative listing [A] and search listing [S] and
    every item of [A] that has a non-empty external id, whether or not [S]
    holds that id too: the merged result has exactly one record with the
    id; that record is tagged ['official']; it is the tagged copy of the last
    item of [A] with the id; and when the ids of [A] are pairwise distinct
    it is the tagged copy of the item itself, so that every such item is
    kept. *)
Theorem merge_albums_authoritative_priority
    (A S : list Album) (spotify_id artist_name : string) (a : Album) :
  In a A -> truthy (album_id a) = true ->
  let R := Cleaner.merge_albums A S spotify_id artist_name in
  Cleaner.count_id (album_id a) R = 1%nat /\
  (forall r, In r R -> album_id r = album_id a -> discovery_method r = Some "official") /\
  (exists a', Cleaner.last_with_id (album_id a) A = Some a' /\
              In (Cleaner.with_discovery_method "official" a') R) /\
  (List.NoDup (map album_id A) -> In (Cleaner.with_discovery_method "official" a) R).
Proof.
  intros Ha Ht R.
  apply truthy_Some in Ht as [k [Hid Hne]].
  destruct (last_with_id_exists (album_id a) A a Ha eq_refl) as [a' Ha'].
  destruct (unique_albums_spec A S) as [news [Heq [Hw Hnews]]].
  destruct (official_dict_spec A) as [_ Hoff].
  assert (Hperm : Permutation R (map snd (Cleaner.official_dict A ++ news))).
  { unfold R, Cleaner.merge_albums. rewrite Heq. apply sort_desc_perm. }
  assert (Hin : In (k, Cleaner.with_discovery_method "official" a')
                   (Cleaner.official_dict A ++ news)).
  { apply in_app_iff. left. apply Hoff. split; [done|]. exists a'. by rewrite <- Hid. }
  assert (HinR : In (Cleaner.with_discovery_method "official" a') R).
  { eapply Permutation_in; [symmetry; exact Hperm|].
    apply in_map_iff. eexists; split; [|exact Hin]. done. }
  split_and!.
  - rewrite (count_id_perm _ _ _ Hperm), Hid, count_id_keyed by done.
    replace (Cleaner.dict_mem k _) with true; [done|]. symmetry.
    apply dict_mem_In. unfold Cleaner.keys. apply in_map_iff. eexists; split; [|exact Hin]. done.
  - intros r Hr Hrid. eapply Permutation_in in Hr; [|exact Hperm].
    apply in_map_iff in Hr as [[k' v] [Hsnd Hkv]]. simpl in Hsnd. subst v.
    destruct Hw as [Hnd Hk]. destruct (Hk _ _ Hkv) as [Hk' _].
    assert (k' = k) by congruence. subst k'.
    rewrite (well_keyed_functional _ _ _ _ (conj Hnd Hk) Hkv Hin). done.
  - eauto.
  - intros Hnd. apply last_with_id_Some in Ha' as [Ha'in Ha'id].
    assert (a' = a) by (eapply (NoDup_map_inj album_id); eauto). by subst.
Qed.

(** The theorem at a listing of one album, which is also what the search
    returns. *)
Lemma merge_albums_authoritative_priority_witness :
  Cleaner.count_id (album_id c3_album)
    (Cleaner.merge_albums [c3_album] [c3_album] "7n2Ycct7Beij7Dj7meI4X0" "TWICE") = 1%nat.
Proof.
  exact (proj1 (merge_albums_authoritative_priority [c3_album] [c3_album]
                  "7n2Ycct7Beij7Dj7meI4X0" "TWICE" c3_album (or_introl eq_refl) eq_refl)).
Defined.

(** An item of the authoritative listing that has no external id is not
    kept: [merge_albums] files the records under their ids and passes over
    a record without one. *)
Lemma merge_albums_drops_item_without_id :
  In album_without_id [album_without_id] /\
  Cleaner.merge_albums [album_without_id] [] "7n2Ycct7Beij7Dj7meI4X0" "TWICE" = [].
Proof. split; [by left|reflexivity]. Qed.

(** A string that is not above one of its prefixes is that prefix. *)
Lemma string_leb_extends (d rest : string) :
  String.leb (d ++ rest) d = true -> rest = "".
Proof.
  rewrite string_leb_le. induction d as [|a d IH]; simpl.
  - by destruct rest.
  - rewrite ascii_compare_N, N.compare_refl. apply IH.
Qed.

Lemma StronglySorted_pair {X : Type} (R : X -> X -> Prop) (l1 l2 l3 : list X) (x y : X) :
  StronglySorted R (l1 ++ x :: l2 ++ y :: l3) -> R x y.
Proof.
  intros H. apply StronglySorted_after in H. rewrite List.Forall_forall in H.
  apply H. apply in_app_iff. right. by left.
Qed.

(** In a list that is one part followed by another, an element that
    stands before an element of the first part is of the first part. *)
Lemma before_in_first_part {X : Type} (l1 l2 l3 first second : list X) (x y : X) :
  (l1 ++ x :: l2 ++ y :: l3)%list = (first ++ second)%list ->
  ~ In y second -> In x first.
Proof.
  revert first. induction l1 as [|z l1 IH]; intros [|f first]; simpl.
  - intros <- Hy. exfalso. apply Hy. right. apply in_app_iff. right. by left.
  - intros [= <- _] _. by left.
  - intros <- Hy. exfalso. apply Hy. right. apply in_app_iff. right.
    right. apply in_app_iff. right. by left.
  - intros [= _ H] Hy. right. by apply IH.
Qed.

(** C8. The merged sequence is in descending order of the release dates of
    its records, compared as the provider's strings: of two records, the
    one that stands first has the later date or the same. A record with a
    partial date (a year, or a year and a month) does not stand before a
    record whose date extends it. A record with no date, or an empty one,
    is followed only by such records. Of two records with the same date, a
    record that the search added does not stand before a record of the
    authoritative listing; and the records with one and the same date stand
    in the order in which the merge filed them, those of the authoritative
    listing before those that the search added. *)
Theorem merge_albums_sorted (A S : list Album) (spotify_id artist_name : string) :
  let R := Cleaner.merge_albums A S spotify_id artist_name in
  (forall l1 x l2 y l3, R = (l1 ++ x :: l2 ++ y :: l3)%list ->
     String.leb (default "" (release_date y)) (default "" (release_date x)) = true) /\
  (forall l1 x l2 y l3 d rest, R = (l1 ++ x :: l2 ++ y :: l3)%list ->
     release_date x = Some d -> release_date y = Some (d ++ rest) -> rest = "") /\
  (forall l1 r l2, R = (l1 ++ r :: l2)%list ->
     release_date r = None \/ release_date r = Some "" ->
     Forall (fun x => release_date x = None \/ release_date x = Some "") l2) /\
  (forall l1 x l2 y l3, R = (l1 ++ x :: l2 ++ y :: l3)%list ->
     default "" (release_date x) = default "" (release_date y) ->
     discovery_method y = Some "official" -> discovery_method x = Some "official") /\
  exists offs srch,
    map snd (Cleaner.unique_albums A S) = (offs ++ srch)%list /\
    Forall (fun x => discovery_method x = Some "official") offs /\
    Forall (fun x => discovery_method x = Some "search") srch /\
    forall d,
      List.filter (fun x => bool_decide (default "" (release_date x) = d)) R =
      (List.filter (fun x => bool_decide (default "" (release_date x) = d)) offs
       ++ List.filter (fun x => bool_decide (default "" (release_date x) = d)) srch)%list.
Proof.
  intros R.
  assert (Hs : StronglySorted
                 (fun x y => String.leb (default "" (release_date y))
                                        (default "" (release_date x)) = true) R).
  { apply (sort_desc_sorted Cleaner.date_key String.leb);
      [apply String.leb_total|apply string_leb_trans]. }
  assert (Hparts : exists offs srch,
             map snd (Cleaner.unique_albums A S) = (offs ++ srch)%list /\
             Forall (fun x => discovery_method x = Some "official") offs /\
             Forall (fun x => discovery_method x = Some "search") srch /\
             forall d,
               List.filter (fun x => bool_decide (default "" (release_date x) = d)) R =
               (List.filter (fun x => bool_decide (default "" (release_date x) = d)) offs
                ++ List.filter (fun x => bool_decide (default "" (release_date x) = d))
                     srch)%list).
  { destruct (unique_albums_spec A S) as [news [Heq [Hw Hnews]]].
    destruct (official_dict_spec A) as [_ Hoff].
    exists (map snd (Cleaner.official_dict A)), (map snd news).
    split_and!.
    - by rewrite Heq, map_app.
    - apply List.Forall_forall. intros x Hx. apply in_map_iff in Hx as [[k v] [<- Hkv]].
      apply Hoff in Hkv as [_ [a [_ ->]]]. done.
    - apply List.Forall_forall. intros x Hx. apply in_map_iff in Hx as [[k v] [<- Hkv]].
      apply Hnews in Hkv as [_ [a [_ [_ ->]]]]. done.
    - intros d. unfold R, Cleaner.merge_albums.
      change (fun x : Album => bool_decide (default "" (release_date x) = d))
        with (with_key Cleaner.date_key d).
      rewrite sort_desc_stable by apply String.leb_total.
      by rewrite Heq, map_app, List.filter_app. }
  split_and!; [| | | |exact Hparts].
  - intros l1 x l2 y l3 Heq. rewrite Heq in Hs.
    exact (StronglySorted_pair _ _ _ _ _ _ Hs).
  - intros l1 x l2 y l3 d rest Heq Hx Hy. rewrite Heq in Hs.
    pose proof (StronglySorted_pair _ _ _ _ _ _ Hs) as Hle. simpl in Hle.
    rewrite Hx, Hy in Hle. by apply string_leb_extends in Hle.
  - intros l1 r l2 Heq Hr. rewrite Heq in Hs. apply StronglySorted_after in Hs.
    eapply List.Forall_impl; [|exact Hs]. intros x Hx. simpl in Hx.
    assert (Hk : default "" (release_date r) = "") by (by destruct Hr as [->| ->]).
    rewrite Hk in Hx. apply string_leb_empty in Hx.
    destruct (release_date x) as [dx|]; [right|by left]. simpl in Hx. by subst.
  - intros l1 x l2 y l3 Heq Hd Hy.
    destruct Hparts as [offs [srch [_ [Hoffs [Hsrch Hfil]]]]].
    specialize (Hfil (default "" (release_date y))). rewrite Heq in Hfil.
    rewrite List.filter_app in Hfil. cbn [List.filter] in Hfil.
    rewrite (bool_decide_eq_true_2 _ Hd) in Hfil.
    rewrite List.filter_app in Hfil. cbn [List.filter] in Hfil.
    rewrite (bool_decide_eq_true_2 _ eq_refl) in Hfil.
    apply before_in_first_part in Hfil.
    + apply filter_In in Hfil as [Hin _]. rewrite List.Forall_forall in Hoffs. by apply Hoffs.
    + intros Hin. apply filter_In in Hin as [Hin _].
      rewrite List.Forall_forall in Hsrch. apply Hsrch in Hin. congruence.
Qed.

(* ===================================================================== *)
(** * The search listing: [Cleaner.get_search_albums] *)
(* ===================================================================== *)

(** Running a computation: the monad's operations unfolded. *)
Ltac unfold_M :=
  unfold mbind, M_bind, mret, M_ret, request, sleep, modify, get_world, now, out_of_fuel in *.
Ltac run := unfold_M; simpl in *.

Section SearchFacts.
  Variable E : Env.
  Variables spotify_id artist_name : string.

Lemma valid_of_page_owned (albums : list Album) (a : Album) :
    In a (Cleaner.valid_of_page spotify_id artist_name albums) -> Cleaner.owned spotify_id artist_name a.
  Proof.
    unfold Cleaner.valid_of_page. rewrite filter_In. intros [_ H].
    by apply andb_true_iff in H.
  Qed.

Lemma search_loop_owned (fuel : nat) :
    forall offset all w r w',
      Cleaner.search_loop E fuel spotify_id artist_name offset all w = Some (Some r, w') ->
      (forall a, In a all -> Cleaner.owned spotify_id artist_name a) -> forall a, In a r -> Cleaner.owned spotify_id artist_name a.
  Proof.
    induction fuel as [|fuel IH]; intros offset all w r w'; [discriminate|].
    cbn [Cleaner.search_loop]. run.
    destruct (Z.of_nat (length all) <? Cleaner.max_results); simpl; [|by intros [= <- <-]].
    destruct (search_albums E _ offset (requests w)) as [status ra [[albums total]|]|];
      [| |discriminate].
    - destruct (status =? 200); [|by intros [= <- <-]].
      destruct (length albums =? 0)%nat; [by intros [= <- <-]|].
      assert (Hall : (forall a, In a all -> Cleaner.owned spotify_id artist_name a) ->
                     forall a, In a (all ++ Cleaner.valid_of_page spotify_id artist_name albums)
                               -> Cleaner.owned spotify_id artist_name a).
      { intros Hall a Ha. apply in_app_iff in Ha as [Ha|Ha]; [eauto|].
        by eapply valid_of_page_owned. }
      destruct (_ && _); [intros [= <- <-]; eauto|].
      destruct (_ || _); [intros [= <- <-]; eauto|].
      intros Hrun Hown. eapply IH; eauto.
    - destruct (status =? 200); [discriminate|by intros [= <- <-]].
  Qed.

Lemma search_loop_total (fuel : nat) :
    forall offset all w,
      (Cleaner.turns_left offset all < fuel)%nat ->
      Cleaner.search_loop E fuel spotify_id artist_name offset all w <> None.
  Proof.
    induction fuel as [|fuel IH]; intros offset all w Hfuel; [lia|].
    cbn [Cleaner.search_loop]. run.
    destruct (Z.of_nat (length all) <? Cleaner.max_results) eqn:Hlen; simpl; [|done].
    destruct (search_albums E _ offset (requests w)) as [status ra [[albums total]|]|];
      [| |done].
    - destruct (status =? 200); [|done].
      destruct (length albums =? 0)%nat; [done|].
      destruct (_ && _) eqn:Hstop; [done|].
      destruct (_ || _); [done|].
      apply IH. clear IH.
      unfold Cleaner.turns_left, Cleaner.max_results, Cleaner.limit in *.
      rewrite length_app. apply Z.ltb_lt in Hlen.
      apply andb_false_iff in Hstop as [Hv|Ho].
      + apply Nat.eqb_neq in Hv.
        assert ((199 - (offset + 50)) / 50 <= (199 - offset) / 50)
          by (apply Z.div_le_mono; lia).
        lia.
      + assert (offset <= 100) by (destruct (Z.gtb_spec offset 100); [done|lia]).
        assert ((199 - (offset + 50)) / 50 = (199 - offset) / 50 - 1).
        { replace (199 - (offset + 50)) with ((199 - offset) + (-1) * 50) by lia.
          rewrite Z.div_add by lia. lia. }
        assert (1 <= (199 - offset) / 50) by (apply Z.div_le_lower_bound; lia).
        lia.
    - destruct (status =? 200); done.
  Qed.
End SearchFacts.

(** With fuel for 204 turns [get_search_albums] returns, and what it
    returns passed both checks. *)
Lemma get_search_albums_returns (E : Env) (fuel : nat) (spotify_id artist_name : string)
    (w : World) :
  (204 <= fuel)%nat ->
  exists search w',
    Cleaner.get_search_albums E fuel spotify_id artist_name w = Some (search, w') /\
    forall a, In a search -> Cleaner.owned spotify_id artist_name a.
Proof.
  intros Hfuel. unfold Cleaner.get_search_albums. run.
  destruct (Cleaner.search_loop E fuel spotify_id artist_name 0 [] w) as [[r w']|] eqn:Hrun.
  - exists (default [] r), w'. split; [done|]. destruct r as [r|]; [|intros ? []].
    eapply search_loop_owned; [exact Hrun|]. intros ? [].
  - exfalso. revert Hrun. apply search_loop_total.
    change (Cleaner.turns_left 0 []) with 203%nat. lia.
Qed.

Lemma verify_album_belongs_to_artist_spec (a : Album) (spotify_id artist_name : string) :
  Cleaner.verify_album_belongs_to_artist a spotify_id artist_name = true <->
  exists artist, In artist (default [] (artists a)) /\ default "" (ref_id artist) = spotify_id.
Proof.
  unfold Cleaner.verify_album_belongs_to_artist. rewrite existsb_exists.
  split; intros [x [Hin Hx]]; exists x; (split; [done|]); by apply String.eqb_eq.
Qed.

(** C4. [get_search_albums] returns when it has fuel for 204 turns, and
    whatever the authoritative listing is, a record of the merged result
    that is tagged ['search'] is the tagged copy of an album of the search
    listing that is valid, that credits an artist with the group's external
    id (the first credited or any other), and whose own external id no item
    of the authoritative listing has. An album that credits no artist with
    the group's id is therefore in no search-tagged record, whatever the
    names of its artists are. *)
Theorem search_albums_need_ownership (E : Env) (fuel : nat)
    (spotify_id artist_name : string) (official : list Album) (w : World) :
  (204 <= fuel)%nat ->
  exists search w',
    Cleaner.get_search_albums E fuel spotify_id artist_name w = Some (search, w') /\
    forall r, In r (Cleaner.merge_albums official search spotify_id artist_name) ->
      discovery_method r = Some "search" ->
      exists a, In a search /\ r = Cleaner.with_discovery_method "search" a /\
        Cleaner.is_valid_spotify_release a = true /\
        (exists artist, In artist (default [] (artists a))
                        /\ default "" (ref_id artist) = spotify_id) /\
        ~ In (album_id a) (map album_id official).
Proof.
  intros Hfuel.
  destruct (get_search_albums_returns E fuel spotify_id artist_name w Hfuel)
    as [search [w' [Hrun Hown]]].
  exists search, w'. split; [done|]. intros r Hr Htag.
  apply sort_desc_In in Hr.
  destruct (unique_albums_spec official search) as [news [Heq [Hw Hnews]]].
  destruct (official_dict_spec official) as [_ Hoff].
  rewrite Heq in Hr. apply in_map_iff in Hr as [[k v] [Hv Hkv]]. simpl in Hv. subst v.
  apply in_app_iff in Hkv as [Hkv|Hkv].
  - apply Hoff in Hkv as [_ [a [_ ->]]]. discriminate.
  - destruct (Hnews _ _ Hkv) as [Hk [a [Ha [Hid ->]]]].
    destruct (Hown a Ha) as [Hvalid Hverify].
    exists a.
    split_and!; [done|done|done|
      by apply (proj1 (verify_album_belongs_to_artist_spec a spotify_id artist_name))|].
    intros Hin. apply in_map_iff in Hin as [b [Hb Hbin]].
    destruct (last_with_id_exists (Some k) official b Hbin) as [b' Hb']; [congruence|].
    apply Hk. unfold Cleaner.keys. apply in_map_iff.
    exists (k, Cleaner.with_discovery_method "official" b'). split; [done|].
    apply Hoff. split; [|eauto].
    destruct Hw as [_ Hw]. eapply Hw. apply in_app_iff. right. exact Hkv.
Qed.

Lemma search_albums_need_ownership_witness :
  (204 <= 204)%nat /\
  exists search w',
    Cleaner.get_search_albums (provider kpop_lookup [] [feat_album] []) 204
      twice_id "TWICE" store_0 = Some (search, w') /\
    forall r, In r (Cleaner.merge_albums [] search twice_id "TWICE") ->
      discovery_method r = Some "search" ->
      exists a, In a search /\ r = Cleaner.with_discovery_method "search" a /\
        Cleaner.is_valid_spotify_release a = true /\
        (exists artist, In artist (default [] (artists a))
                        /\ default "" (ref_id artist) = twice_id) /\
        ~ In (album_id a) (map album_id []).
Proof.
  split; [lia|].
  apply (search_albums_need_ownership (provider kpop_lookup [] [feat_album] []) 204
           twice_id "TWICE" [] store_0). lia.
Defined.

(** A release found by the search whose first credited artist is another
    artist, and which credits the group second, enters the merged result. *)
Lemma search_keeps_release_of_other_primary_artist :
  hd_error (default [] (artists feat_album)) = Some (credit other_id "Other") /\
  other_id <> twice_id /\
  option_map fst
    (Cleaner.get_albums_by_artist_id (provider kpop_lookup [] [feat_album] []) 204
       twice_id "TWICE" store_0)
  = Some [Cleaner.with_discovery_method "search" feat_album].
Proof. split_and!; [reflexivity|discriminate|reflexivity]. Qed.

(* ===================================================================== *)
(** * Release kinds: [Collector.create_album_document] and the store *)
(* ===================================================================== *)

Lemma update_first_In (f : document -> bool) (upd : document -> document)
    (c : list document) (d : document) :
  In d (update_first f upd c) -> In d c \/ exists old, In old c /\ d = upd old.
Proof.
  induction c as [|x c IH]; simpl; [tauto|].
  destruct (f x); simpl.
  - intros [<-|Hd]; [right; eauto|left; tauto].
  - intros [<-|Hd]; [left; tauto|].
    destruct (IH Hd) as [?|[old [? ?]]]; [left; tauto|right; eauto].
Qed.


Lemma kind_by_tracks_insert (k : string) (v : value) (d : document) :
  k <> "totalTracks" -> k <> "albumType" ->
  Collector.kind_by_tracks d -> Collector.kind_by_tracks (<[k := v]> d).
Proof.
  intros H1 H2 [n [Hn [Ht Ha]]]. exists n. by rewrite !lookup_insert_ne.
Qed.

Lemma kind_by_tracks_delete (k : string) (d : document) :
  k <> "totalTracks" -> k <> "albumType" ->
  Collector.kind_by_tracks d -> Collector.kind_by_tracks (delete k d).
Proof.
  intros H1 H2 [n [Hn [Ht Ha]]]. exists n. by rewrite !lookup_delete_ne.
Qed.

Lemma kind_by_tracks_replacement (doc old : document) :
  Collector.kind_by_tracks doc -> Collector.kind_by_tracks (replacement doc old).
Proof.
  intros H. unfold replacement. destruct (old !! "_id").
  - by apply kind_by_tracks_insert.
  - by apply kind_by_tracks_delete.
Qed.

Lemma insert_into_In (c c' : list document) (doc : document) (oid n : Z) (i : value)
    (d : document) :
  insert_into c doc oid = Some (c', i, n) ->
  In d c' -> In d c \/ d = doc \/ d = <["_id" := VOid oid]> doc.
Proof.
  unfold insert_into. destruct (doc !! "_id") as [j|];
    [destruct (existsb _ c); [discriminate|]|]; intros [= <- _ _];
    rewrite in_app_iff; simpl; intros [?|[<-|[]]]; auto.
Qed.

Section KindFacts.
Variable E : Env.
Variable is_valid_spotify_album_only : Album -> option bool.

Lemma is_valid_release_simple_tracks (r : Album) :
  Collector.is_valid_release_simple r = true -> 4 <= default 0 (total_tracks r).
Proof.
  unfold Collector.is_valid_release_simple.
  destruct (Z.ltb_spec (default 0 (total_tracks r)) 4); [discriminate|done].
Qed.

Lemma by_id_loop_valid (fuel : nat) :
  forall artist_id offset all w r w',
    Collector.by_id_loop E fuel artist_id offset all w = Some (Some r, w') ->
    Forall (fun a => Collector.is_valid_release_simple a = true) all ->
    Forall (fun a => Collector.is_valid_release_simple a = true) r.
Proof.
  induction fuel as [|fuel IH]; intros artist_id offset all w r w'; [discriminate|].
  cbn [Collector.by_id_loop]. run.
  destruct (get_artist_albums E artist_id offset (requests w)) as [status ra [albums|]|];
    [| |discriminate].
  - destruct (status =? 200).
    + destruct (length albums =? 0)%nat; [by intros [= <- <-]|].
      assert (Hall : Forall (fun a => Collector.is_valid_release_simple a = true) all ->
                     Forall (fun a => Collector.is_valid_release_simple a = true)
                       (all ++ List.filter (fun album =>
                          Collector.is_primary_artist_album album artist_id
                          && Collector.is_valid_release_simple album) albums)).
      { intros Hall. apply Forall_app. split; [done|]. apply List.Forall_forall.
        intros a Ha. apply filter_In in Ha as [_ Ha]. by apply andb_true_iff in Ha as [_ ?]. }
      destruct (_ <? Collector.limit); [intros [= <- <-]; eauto|].
      intros Hrun Hv. eapply IH; eauto.
    + destruct (status =? 429); [|by intros [= <- <-]].
      destruct (wait_time_of ra) as [wt|]; [|discriminate].
      destruct (wt <=? 60); [|by intros [= <- <-]].
      destruct (wt <? 0); [discriminate|]. apply IH.
  - destruct (status =? 200); [discriminate|].
    destruct (status =? 429); [|by intros [= <- <-]].
    destruct (wait_time_of ra) as [wt|]; [|discriminate].
    destruct (wt <=? 60); [|by intros [= <- <-]].
    destruct (wt <? 0); [discriminate|]. apply IH.
Qed.

Lemma search_albums_by_artist_id_valid (fuel : nat) (artist_id artist_name : string)
    (w w' : World) (r : list Album) :
  Collector.search_albums_by_artist_id E fuel artist_id artist_name w = Some (r, w') ->
  Forall (fun a => Collector.is_valid_release_simple a = true) r.
Proof.
  unfold Collector.search_albums_by_artist_id, Collector.refresh_spotify_token_if_needed. run.
  destruct (token E (requests w)); simpl; [|by intros [= <- <-]].
  destruct (Collector.by_id_loop E fuel artist_id 0 [] w) as [[[r'|] w'']|] eqn:Hrun;
    [| |discriminate]; intros [= <- <-]; simpl; [|done].
  eapply by_id_loop_valid; eauto.
Qed.

Lemma create_album_document_kind (r : Album) (g : document) (t : Z) (doc : document) :
  Collector.create_album_document E r g t = Some doc ->
  doc !! "totalTracks" = Some (VInt (default 0 (total_tracks r))) /\
  doc !! "albumType" = Some (VStr (Collector.final_album_type (default 0 (total_tracks r)))).
Proof.
  unfold Collector.create_album_document.
  destruct (g !! "_id"), (g !! "name"); try discriminate.
  intros [= <-]. split; reflexivity.
Qed.

Lemma save_or_update_album_kind (doc : document) (w w' : World) (r : bool * string * document) :
  Collector.kind_by_tracks doc ->
  Collector.save_or_update_album doc w = Some (r, w') ->
  groups w' = groups w /\
  forall d, In d (albums w') -> In d (albums w) \/ Collector.kind_by_tracks d.
Proof.
  intros Hk. unfold Collector.save_or_update_album.
  destruct (doc !! "artistName") as [an|]; [|intros [= <- <-]; eauto].
  destruct (get_str "name" doc) as [name|]; [|intros [= <- <-]; eauto].
  run. destruct (find_one _ (albums w)) as [existing|].
  - unfold replace_one. destruct (find_one _ (albums w)) as [old|];
      [destruct (replaceable _ old)|]; intros [= <- <-]; simpl; (split; [done|]);
      intros d Hd; [|by left|by left].
    apply update_first_In in Hd as [?|[old' [_ ->]]]; [by left|right].
    apply kind_by_tracks_replacement. by repeat apply kind_by_tracks_insert.
  - unfold insert_album.
    destruct (insert_into (albums w) doc (next_oid w)) as [[[c i] n]|] eqn:Hi;
      intros [= <- <-]; simpl; (split; [done|]); intros d Hd; [|by left].
    eapply insert_into_In in Hd as [?|[->| ->]]; [by left|by right|right|exact Hi].
    by apply kind_by_tracks_insert.
Qed.

Lemma save_albums_kind (releases : list Album) :
  forall group stats w stats' w',
    Forall (fun a => Collector.is_valid_release_simple a = true) releases ->
    Collector.save_albums E releases group stats w = Some (stats', w') ->
    groups w' = groups w /\
    forall d, In d (albums w') -> In d (albums w) \/ Collector.kind_by_tracks d.
Proof.
  induction releases as [|a releases IH]; intros group stats w stats' w' Hv.
  - intros [= <- <-]. eauto.
  - inversion Hv as [|? ? Ha Hv']; subst. cbn [Collector.save_albums]. run.
    destruct (Collector.create_album_document E a group (clock w)) as [doc|] eqn:Hdoc.
    + destruct (Collector.save_or_update_album doc w) as [[[[ok act] doc'] w1]|] eqn:Hsave;
        [|discriminate].
      intros Hrest. apply IH in Hrest as [Hg Hrest]; [|done].
      apply create_album_document_kind in Hdoc as [Ht Hty].
      eapply save_or_update_album_kind in Hsave as [Hg1 Hsave].
      2:{ exists (default 0 (total_tracks a)). split_and!; [|done|done].
          by apply is_valid_release_simple_tracks. }
      split; [congruence|]. intros d Hd. destruct (Hrest d Hd) as [Hd1|?]; [|by right].
      by apply Hsave.
    + intros Hrest. by apply IH in Hrest.
Qed.
End KindFacts.

(** C5. In the collector, a pass over the releases of a group that has an
    external id writes only documents of releases with at least four tracks,
    each under the kind derived from the number of tracks: every album
    document of the store after the pass was there before it or has
    [totalTracks = n >= 4] and [albumType = final_album_type n], which is
    ['album'] for 8 tracks and ['ep'] for 6; a release of 3 tracks fails
    [is_valid_release_simple] and is not written. *)
Theorem listed_releases_stored_by_track_count (E : Env)
    (is_valid_spotify_album_only : Album -> option bool) (fuel : nat)
    (group : document) (stats : option Collector.AlbumStats) (w w' : World) :
  truthy (get_str "spotifyId" group) = true ->
  Collector.process_existing_group_albums E is_valid_spotify_album_only fuel group w
    = Some (stats, w') ->
  (forall d, In d (albums w') ->
     In d (albums w) \/
     exists n, 4 <= n /\ d !! "totalTracks" = Some (VInt n)
               /\ d !! "albumType" = Some (VStr (Collector.final_album_type n))) /\
  Collector.final_album_type 8 = "album" /\
  Collector.final_album_type 6 = "ep" /\
  (forall r, total_tracks r = Some 3 -> Collector.is_valid_release_simple r = false).
Proof.
  intros Hid Hrun. split_and!; [|reflexivity|reflexivity|].
  - revert Hrun. unfold Collector.process_existing_group_albums. rewrite Hid.
    destruct (get_str "name" group) as [group_name|]; [|by intros [= <- <-]; eauto].
    run.
    destruct (Collector.search_albums_by_artist_id E fuel _ group_name w)
      as [[releases w1]|] eqn:Hlist; [|discriminate].
    destruct (Collector.save_albums E releases group _ w1) as [[stats' w2]|] eqn:Hsave;
      [|discriminate].
    intros [= <- <-].
    apply search_albums_by_artist_id_valid in Hlist as Hvalid.
    eapply save_albums_kind in Hsave as [_ Hsave]; [|done].
    assert (albums w1 = albums w) as <-; [|done].
    revert Hlist. unfold Collector.search_albums_by_artist_id,
      Collector.refresh_spotify_token_if_needed. run.
    destruct (token E (requests w)); simpl; [|by intros [= <- <-]].
    destruct (Collector.by_id_loop E fuel _ 0 [] w) as [[r' w'']|] eqn:Hloop; [|discriminate].
    intros [= <- <-]. clear -Hloop. revert Hloop.
    generalize (default "" (get_str "spotifyId" group)) (0 : Z) (@nil Album).
    revert w w'' r'. induction fuel as [|fuel IH]; intros w w'' r' i offset all; [discriminate|].
    cbn [Collector.by_id_loop]. run.
    destruct (get_artist_albums E i offset (requests w)) as [status ra [releases|]|];
      [| |by intros [= <- <-]].
    + destruct (status =? 200).
      * destruct (length releases =? 0)%nat; [by intros [= <- <-]|].
        destruct (_ <? Collector.limit); [by intros [= <- <-]|].
        intros H. by apply IH in H.
      * destruct (status =? 429); [|by intros [= <- <-]].
        destruct (wait_time_of ra) as [wt|]; [|by intros [= <- <-]].
        destruct (wt <=? 60); [|by intros [= <- <-]].
        destruct (wt <? 0); [by intros [= <- <-]|]. intros H. by apply IH in H.
    + destruct (status =? 200); [by intros [= <- <-]|].
      destruct (status =? 429); [|by intros [= <- <-]].
      destruct (wait_time_of ra) as [wt|]; [|by intros [= <- <-]].
      destruct (wt <=? 60); [|by intros [= <- <-]].
      destruct (wt <? 0); [by intros [= <- <-]|]. intros H. by apply IH in H.
  - intros r Hr. unfold Collector.is_valid_release_simple. by rewrite Hr.
Qed.

Lemma listed_releases_stored_by_track_count_witness :
  match Collector.process_existing_group_albums
          (provider kpop_lookup [album_8; album_6; album_3] [] [])
          undefined_album_check 10 twice_group store_0 with
  | Some (_, w') =>
      truthy (get_str "spotifyId" twice_group) = true /\
      map (fun d => d !! "albumType") (albums w') = [Some (VStr "album"); Some (VStr "ep")] /\
      forall d, In d (albums w') ->
        In d (albums store_0) \/
        exists n, 4 <= n /\ d !! "totalTracks" = Some (VInt n)
                  /\ d !! "albumType" = Some (VStr (Collector.final_album_type n))
  | None => False
  end.
Proof.
  destruct (Collector.process_existing_group_albums _ _ _ _ _) as [[stats w']|] eqn:Hrun.
  - split_and!; [reflexivity| |].
    + vm_compute in Hrun. injection Hrun as _ <-. reflexivity.
    + exact (proj1 (listed_releases_stored_by_track_count
                      (provider kpop_lookup [album_8; album_6; album_3] [] [])
                      undefined_album_check 10 twice_group stats store_0 w' eq_refl Hrun)).
  - vm_compute in Hrun. discriminate.
Defined.

(** The cleaner stores what the provider lists: a release of 3 tracks is
    written, and a release of 6 tracks keeps the provider's album type. *)
Lemma cleaner_stores_releases_as_listed :
  option_map (fun r => map (fun d => (d !! "totalTracks", d !! "albumType")) (albums r.2))
    (Cleaner.clean_albums_for_group
       (provider kpop_lookup [album_8; album_6; album_3] [] []) 204 twice_group store_0)
  = Some [ (Some (VInt 3), Some (VStr "single"));
           (Some (VInt 6), Some (VStr "single"));
           (Some (VInt 8), Some (VStr "album")) ].
Proof. vm_compute. reflexivity. Qed.

(* ===================================================================== *)
(** * The upserts: [Collector.save_or_update_album] and
      [Collector.save_or_update_group] *)
(* ===================================================================== *)

Section CollectionFacts.
Variable f : document -> bool.

Lemma find_one_split (c : list document) (e : document) :
  find_one f c = Some e ->
  exists pre post, c = (pre ++ e :: post)%list /\ f e = true
                   /\ Forall (fun d => f d = false) pre.
Proof.
  unfold find_one. induction c as [|x c IH]; simpl; [discriminate|].
  destruct (f x) eqn:Hx.
  - intros [= <-]. exists [], c. auto.
  - intros H. destruct (IH H) as [pre [post [-> [He Hpre]]]].
    exists (x :: pre), post. split_and!; [done|done|by constructor].
Qed.

Lemma find_one_None (c : list document) :
  find_one f c = None -> Forall (fun d => f d = false) c.
Proof.
  unfold find_one. induction c as [|x c IH]; simpl; [constructor|].
  destruct (f x) eqn:Hx; [discriminate|]. intros H. constructor; auto.
Qed.

Lemma find_one_first (pre post : list document) (e : document) :
  Forall (fun d => f d = false) pre -> f e = true ->
  find_one f (pre ++ e :: post) = Some e.
Proof.
  unfold find_one. induction 1 as [|x pre Hx _ IH]; simpl; intros He.
  - by rewrite He.
  - rewrite Hx. auto.
Qed.

Lemma update_first_at (upd : document -> document) (pre post : list document)
    (e : document) :
  Forall (fun d => f d = false) pre -> f e = true ->
  update_first f upd (pre ++ e :: post) = (pre ++ upd e :: post)%list.
Proof.
  induction 1 as [|x pre Hx _ IH]; simpl; intros He.
  - by rewrite He.
  - rewrite Hx. by rewrite IH.
Qed.
End CollectionFacts.

Lemma has_id_others (pre post : list document) (e : document) :
  List.NoDup (map (fun d => d !! "_id") (pre ++ e :: post)) ->
  Forall (fun d => has_id (e !! "_id") d = false) pre /\ has_id (e !! "_id") e = true.
Proof.
  intros Hnd. split; [|by apply bool_decide_eq_true].
  apply List.Forall_forall. intros d Hd. apply bool_decide_eq_false. intros Heq.
  rewrite map_app in Hnd. simpl in Hnd. apply NoDup_remove_2 in Hnd. apply Hnd.
  apply in_app_iff. left. rewrite <- Heq. by apply (in_map (fun d => d !! "_id")).
Qed.

Lemma field_is_same (k : string) (d d' : document) :
  d' !! k = d !! k -> field_is k (d !! k) d' = true.
Proof.
  unfold field_is. intros ->. destruct (d !! k) as [v|]; [|done].
  destruct v; try by apply bool_decide_eq_true. done.
Qed.

Lemma store_ok_replace (pre post : list document) (e s : document) (next : Z) :
  store_ok (pre ++ e :: post) next -> s !! "_id" = e !! "_id" ->
  store_ok (pre ++ s :: post) next.
Proof.
  intros [Hnd Hok] Hid. split.
  - rewrite map_app in *. simpl in *. by rewrite Hid.
  - intros d Hd. apply in_app_iff in Hd as [Hd|[<-|Hd]].
    + apply Hok. apply in_app_iff. by left.
    + rewrite Hid. apply Hok. apply in_app_iff. right. by left.
    + apply Hok. apply in_app_iff. right. by right.
Qed.

Lemma store_ok_fresh (c : list document) (next : Z) :
  store_ok c next -> Forall (fun d => has_id (Some (VOid next)) d = false) c.
Proof.
  intros [_ Hok]. apply List.Forall_forall. intros d Hd. apply bool_decide_eq_false.
  intros Heq. destruct (Hok d Hd) as [_ Hlt]. specialize (Hlt next Heq). lia.
Qed.

Ltac lookups :=
  repeat first
    [ rewrite lookup_insert_eq
    | rewrite lookup_insert_ne by done
    | rewrite lookup_delete_ne by done ].

Lemma same_album_ext (doc2 doc : document) (an : value) (name : string) :
  same_input doc2 doc ->
  Collector.same_album doc2 an name = Collector.same_album doc an name.
Proof.
  intros H. unfold Collector.same_album. by rewrite (H "spotifyId").
Qed.

Lemma same_album_self (doc s : document) (an : value) (name : string) :
  same_input s doc -> Collector.same_album doc an name s = true.
Proof.
  intros H. unfold Collector.same_album.
  rewrite field_is_same; [done|]. by apply H.
Qed.

Lemma same_input_refl (doc : document) : same_input doc doc.
Proof. by intros k _ _ _. Qed.

Lemma same_input_stored (doc2 doc : document) (i c u : value) :
  same_input doc2 doc ->
  same_input (<["_id" := i]> (<["updatedAt" := u]> (<["createdAt" := c]> doc2))) doc.
Proof. intros H k H1 H2 H3. lookups. by apply H. Qed.

Lemma store_ok_insert (c : list document) (next : Z) (doc : document) :
  store_ok c next -> store_ok (c ++ [<["_id" := VOid next]> doc]) (next + 1).
Proof.
  intros Hok. pose proof (store_ok_fresh c next Hok) as Hfresh.
  destruct Hok as [Hnd Hok]. split.
  - rewrite map_app. simpl. rewrite lookup_insert_eq.
    apply NoDup_ListNoDup. apply NoDup_app. split_and!.
    + by apply NoDup_ListNoDup.
    + intros i Hi Hi'. apply list_elem_of_In in Hi, Hi'. destruct Hi' as [<-|[]].
      apply in_map_iff in Hi as [d [Hd Hin]].
      rewrite List.Forall_forall in Hfresh. specialize (Hfresh d Hin).
      apply bool_decide_eq_false in Hfresh. done.
    + apply NoDup_ListNoDup. repeat constructor. simpl. tauto.
  - intros d Hd. apply in_app_iff in Hd as [Hd|[<-|[]]].
    + destruct (Hok d Hd) as [Hs Hlt]. split; [done|]. intros n Hn.
      specialize (Hlt n Hn). lia.
    + rewrite lookup_insert_eq. split; [by eexists|]. intros n [= <-]. lia.
Qed.

(** The write of an upsert that found [e]: the collection before and
    after, and the filter [F] of the identity rule. The replacement [D]
    brings no [_id], or that of [e]. *)
Lemma upsert_found (F : document -> bool) (c : list document) (next : Z)
    (e doc D : document) :
  store_ok c next -> find_one F c = Some e ->
  same_input D doc -> (forall s, same_input s doc -> F s = true) ->
  D !! "_id" = None \/ D !! "_id" = e !! "_id" ->
  exists pre post i,
    c = (pre ++ e :: post)%list /\ e !! "_id" = Some i /\
    replace_one (has_id (e !! "_id")) D c = Some (pre ++ <["_id" := i]> D :: post)%list /\
    find_one F (pre ++ <["_id" := i]> D :: post) = Some (<["_id" := i]> D) /\
    store_ok (pre ++ <["_id" := i]> D :: post) next.
Proof.
  intros Hok Hfind HD HF Hid.
  destruct (find_one_split F c e Hfind) as [pre [post [-> [He Hpre]]]].
  destruct (proj2 Hok e) as [[i Hi] _]; [apply in_app_iff; right; by left|].
  destruct (has_id_others pre post e (proj1 Hok)) as [Hothers Hself].
  exists pre, post, i. split_and!; [done|done| | |].
  - unfold replace_one. rewrite (find_one_first _ pre post e Hothers Hself).
    assert (Hr : replaceable D e = true).
    { unfold replaceable. destruct Hid as [Hd|Hd]; rewrite Hd; [done|].
      rewrite Hi. by apply bool_decide_eq_true. }
    rewrite Hr, update_first_at by done. unfold replacement. by rewrite Hi.
  - apply find_one_first; [done|]. apply HF. intros k H1 H2 H3. lookups. by apply HD.
  - eapply store_ok_replace; [exact Hok|]. by lookups.
Qed.

Lemma rewritten_stored (doc s1 s2 : document) (t : Z) :
  rewritten doc s1 s2 t -> stored_at doc s2 t.
Proof.
  intros [Hi [Hs [Hc [Hu Hk]]]]. unfold stored_at. rewrite Hi, Hc. by split_and!.
Qed.

Lemma stored_rewritten_twice (doc s1 s2 : document) (t1 t2 : Z) :
  stored_at doc s1 t1 -> rewritten doc s1 s2 t2 -> t1 <= t2 ->
  upserted_twice doc s1 s2.
Proof.
  intros [Hs1 [[c Hc1] [Hu1 Hk1]]] [Hi2 [_ [Hc2 [Hu2 Hk2]]]] Ht.
  unfold upserted_twice. split_and!; [done|done| |by eexists| |].
  - by rewrite Hc2, Hc1.
  - exists t1, t2. done.
  - intros k H1 H2 H3. split; [by apply Hk1|by apply Hk2].
Qed.

Lemma save_or_update_album_found (doc doc2 : document) (an : value) (name : string)
    (w : World) (s1 : document) :
  store_ok (albums w) (next_oid w) ->
  doc !! "artistName" = Some an -> get_str "name" doc = Some name ->
  same_input doc2 doc ->
  find_one (Collector.same_album doc an name) (albums w) = Some s1 ->
  doc2 !! "_id" = None \/ doc2 !! "_id" = s1 !! "_id" ->
  exists r w' s2,
    Collector.save_or_update_album doc2 w = Some (r, w') /\ clock w' = clock w /\
    r.1 = (true, "updated") /\ same_input r.2 doc /\ r.2 !! "_id" = doc2 !! "_id" /\
    find_one (Collector.same_album doc an name) (albums w') = Some s2 /\
    length (albums w') = length (albums w) /\
    store_ok (albums w') (next_oid w') /\
    rewritten doc s1 s2 (clock w).
Proof.
  intros Hok Han Hname Hsame Hfind Hid.
  assert (Han2 : doc2 !! "artistName" = Some an) by (rewrite Hsame; done).
  assert (Hname2 : get_str "name" doc2 = Some name)
    by (unfold get_str in *; rewrite Hsame; done).
  unfold Collector.save_or_update_album. rewrite Han2, Hname2. unfold_M. cbn beta iota.
  rewrite (same_album_ext doc2 doc) by done. rewrite Hfind.
  set (F := Collector.same_album doc an name) in *.
  assert (HF : forall s, same_input s doc -> F s = true)
    by (intros; by apply same_album_self).
  set (D := <["updatedAt" := VDate (clock w)]>
              (<["createdAt" := default (VDate (clock w)) (s1 !! "createdAt")]> doc2)).
  assert (HD : same_input D doc)
    by (intros k H1 H2 H3; unfold D; lookups; by apply Hsame).
  assert (HDi : D !! "_id" = doc2 !! "_id") by (unfold D; by lookups).
  destruct (upsert_found F (albums w) (next_oid w) s1 doc D Hok Hfind HD HF)
    as [pre [post [i [Hc [Hi [Hrep [Hfind1 Hok1]]]]]]]; [by rewrite HDi|].
  rewrite Hrep. cbn beta iota.
  eexists _, _, (<["_id" := i]> D). split; [reflexivity|]. simpl.
  split_and!; [done|done|done|done|done| |done|].
  - rewrite Hc, !length_app. done.
  - unfold rewritten, D. split_and!; lookups; [done|by eexists|done|done|].
    intros k H1 H2 H3. lookups. by apply Hsame.
Qed.

(** C6, for releases: see [upsert_idempotent]. *)
Lemma save_or_update_album_twice (doc : document) (t0 : Z) (an : value)
    (name : string) (w1 : World) :
  store_ok (albums w1) (next_oid w1) ->
  fresh_document doc t0 -> t0 <= clock w1 ->
  doc !! "artistName" = Some an -> get_str "name" doc = Some name ->
  exists r1 w2 s1,
    Collector.save_or_update_album doc w1 = Some (r1, w2) /\ clock w2 = clock w1 /\
    find_one (Collector.same_album doc an name) (albums w2) = Some s1 /\
    (length (albums w2) <= S (length (albums w1)))%nat /\
    same_input r1.2 doc /\
    (r1.2 !! "_id" = None \/ r1.2 !! "_id" = s1 !! "_id") /\
    forall doc2 w3,
      same_input doc2 doc ->
      doc2 !! "_id" = None \/ doc2 !! "_id" = s1 !! "_id" ->
      albums w3 = albums w2 -> next_oid w3 = next_oid w2 -> clock w1 <= clock w3 ->
      exists r2 w4 s2,
        Collector.save_or_update_album doc2 w3 = Some (r2, w4) /\
        find_one (Collector.same_album doc an name) (albums w4) = Some s2 /\
        upserted_twice doc s1 s2 /\
        length (albums w4) = length (albums w2) /\
        r2.1 = (true, "updated").
Proof.
  intros Hok [Hnoid [Hc0 Hu0]] Ht0 Han Hname.
  set (F := Collector.same_album doc an name).
  assert (Hsecond : forall s1 w2 t1,
            store_ok (albums w2) (next_oid w2) -> find_one F (albums w2) = Some s1 ->
            stored_at doc s1 t1 -> t1 <= clock w1 ->
            forall doc2 w3,
              same_input doc2 doc ->
              doc2 !! "_id" = None \/ doc2 !! "_id" = s1 !! "_id" ->
              albums w3 = albums w2 -> next_oid w3 = next_oid w2 -> clock w1 <= clock w3 ->
              exists r2 w4 s2,
                Collector.save_or_update_album doc2 w3 = Some (r2, w4) /\
                find_one F (albums w4) = Some s2 /\
                upserted_twice doc s1 s2 /\
                length (albums w4) = length (albums w2) /\
                r2.1 = (true, "updated")).
  { intros s1 w2 t1 Hok2 Hfind2 Hst Ht1 doc2 w3 Hsame Hid Halb Hoid Ht.
    rewrite <- Halb, <- Hoid in Hok2. rewrite <- Halb in Hfind2.
    destruct (save_or_update_album_found doc doc2 an name w3 s1 Hok2 Han Hname Hsame
                Hfind2 Hid) as [r2 [w4 [s2 [Hrun [_ [Hr [_ [_ [Hf [Hlen [_ Hrw2]]]]]]]]]]].
    exists r2, w4, s2. split_and!; [done|done| |by rewrite Hlen, Halb|done].
    eapply stored_rewritten_twice; [exact Hst|exact Hrw2|lia]. }
  destruct (find_one F (albums w1)) as [e|] eqn:Hfind.
  - destruct (save_or_update_album_found doc doc an name w1 e Hok Han Hname
                (same_input_refl doc) Hfind (or_introl Hnoid))
      as [r1 [w2 [s1 [Hrun [Hclk [Hr [Hleft [Hrid [Hf [Hlen [Hok2 Hrw]]]]]]]]]]].
    exists r1, w2, s1. split_and!; [done|done|done|lia|done|left; congruence|].
    eapply Hsecond; [done|done|by eapply rewritten_stored|lia].
  - set (s1 := <["_id" := VOid (next_oid w1)]> doc).
    assert (Hs1 : same_input s1 doc) by (intros k H1 H2 H3; unfold s1; by lookups).
    assert (Hrun : Collector.save_or_update_album doc w1
                   = Some ((true, "created", s1),
                           set_next_oid (next_oid w1 + 1)
                             (set_albums (albums w1 ++ [s1])%list w1))).
    { unfold Collector.save_or_update_album. rewrite Han, Hname. unfold_M. cbn beta iota.
      fold F. rewrite Hfind. unfold insert_album, insert_into. rewrite Hnoid. reflexivity. }
    eexists _, _, s1. split; [exact Hrun|]. simpl.
    assert (Hfind1 : find_one F (albums w1 ++ [s1]) = Some s1).
    { apply find_one_first; [by apply find_one_None|]. by apply same_album_self. }
    split_and!; [done|done|rewrite length_app; simpl; lia|done|by right|].
    apply (Hsecond s1 (set_next_oid (next_oid w1 + 1)
                         (set_albums (albums w1 ++ [s1])%list w1)) t0);
      simpl; [by apply store_ok_insert|done| |done].
    unfold stored_at, s1. split_and!; lookups; [by eexists|by eexists|done|].
    intros k H1 H2 H3. by lookups.
Qed.

Lemma same_group_ext (doc2 doc : document) (name : string) :
  same_input doc2 doc ->
  Collector.same_group doc2 name = Collector.same_group doc name.
Proof.
  intros H. unfold Collector.same_group. by rewrite (H "spotifyId").
Qed.

Lemma same_group_self (doc s : document) (name : string) :
  same_input s doc -> Collector.same_group doc name s = true.
Proof.
  intros H. unfold Collector.same_group.
  rewrite field_is_same; [done|]. by apply H.
Qed.

Lemma save_or_update_group_found (doc doc2 : document) (name : string)
    (w : World) (s1 : document) :
  store_ok (groups w) (next_oid w) ->
  get_str "name" doc = Some name ->
  same_input doc2 doc ->
  find_one (Collector.same_group doc name) (groups w) = Some s1 ->
  exists w' s2,
    Collector.save_or_update_group doc2 w = Some (Some (true, "updated", Some s2), w') /\
    clock w' = clock w /\
    find_one (Collector.same_group doc name) (groups w') = Some s2 /\
    length (groups w') = length (groups w) /\
    store_ok (groups w') (next_oid w') /\
    rewritten doc s1 s2 (clock w).
Proof.
  intros Hok Hname Hsame Hfind.
  assert (Hname2 : get_str "name" doc2 = Some name)
    by (unfold get_str in *; rewrite Hsame; done).
  unfold Collector.save_or_update_group. rewrite Hname2. unfold_M. cbn beta iota.
  rewrite (same_group_ext doc2 doc) by done. rewrite Hfind.
  set (F := Collector.same_group doc name) in *.
  assert (HF : forall s, same_input s doc -> F s = true)
    by (intros; by apply same_group_self).
  destruct (find_one_split F _ s1 Hfind) as [pre0 [post0 [Hc0 [_ _]]]].
  destruct (proj2 Hok s1) as [[i Hi] _]; [rewrite Hc0; apply in_app_iff; right; by left|].
  rewrite Hi.
  set (D := <["_id" := i]> (<["updatedAt" := VDate (clock w)]>
              (<["createdAt" := default (VDate (clock w)) (s1 !! "createdAt")]> doc2))).
  assert (HD : same_input D doc)
    by (intros k H1 H2 H3; unfold D; lookups; by apply Hsame).
  destruct (upsert_found F (groups w) (next_oid w) s1 doc D Hok Hfind HD HF)
    as [pre [post [i' [Hc [Hi' [Hrep [Hfind1 Hok1]]]]]]].
  { right. unfold D. lookups. done. }
  assert (i' = i) by congruence. subst i'.
  assert (HDD : <["_id" := i]> D = D) by (unfold D; by rewrite insert_insert_eq).
  rewrite HDD in *. rewrite Hi in Hrep. rewrite Hrep. cbn beta iota.
  eexists _, D. split; [reflexivity|]. simpl. split_and!; [done|done| |done|].
  - rewrite Hc, !length_app. done.
  - unfold rewritten, D. split_and!; lookups; [done|by eexists|done|done|].
    intros k H1 H2 H3. lookups. by apply Hsame.
Qed.

(** C6, for groups: see [upsert_idempotent]. *)
Lemma save_or_update_group_twice (doc : document) (t0 : Z) (name : string) (w1 : World) :
  store_ok (groups w1) (next_oid w1) ->
  fresh_document doc t0 -> t0 <= clock w1 ->
  get_str "name" doc = Some name ->
  exists r1 w2 s1,
    Collector.save_or_update_group doc w1 = Some (Some (true, r1, Some s1), w2) /\
    clock w2 = clock w1 /\
    find_one (Collector.same_group doc name) (groups w2) = Some s1 /\
    (length (groups w2) <= S (length (groups w1)))%nat /\
    forall doc2 w3,
      same_input doc2 doc ->
      groups w3 = groups w2 -> next_oid w3 = next_oid w2 -> clock w1 <= clock w3 ->
      exists w4 s2,
        Collector.save_or_update_group doc2 w3
        = Some (Some (true, "updated", Some s2), w4) /\
        find_one (Collector.same_group doc name) (groups w4) = Some s2 /\
        upserted_twice doc s1 s2 /\
        length (groups w4) = length (groups w2).
Proof.
  intros Hok [Hnoid [Hc0 Hu0]] Ht0 Hname.
  set (F := Collector.same_group doc name).
  assert (Hsecond : forall s1 w2 t1,
            store_ok (groups w2) (next_oid w2) -> find_one F (groups w2) = Some s1 ->
            stored_at doc s1 t1 -> t1 <= clock w1 ->
            forall doc2 w3,
              same_input doc2 doc ->
              groups w3 = groups w2 -> next_oid w3 = next_oid w2 -> clock w1 <= clock w3 ->
              exists w4 s2,
                Collector.save_or_update_group doc2 w3
                = Some (Some (true, "updated", Some s2), w4) /\
                find_one F (groups w4) = Some s2 /\
                upserted_twice doc s1 s2 /\
                length (groups w4) = length (groups w2)).
  { intros s1 w2 t1 Hok2 Hfind2 Hst Ht1 doc2 w3 Hsame Hgrp Hoid Ht.
    rewrite <- Hgrp, <- Hoid in Hok2. rewrite <- Hgrp in Hfind2.
    destruct (save_or_update_group_found doc doc2 name w3 s1 Hok2 Hname Hsame Hfind2)
      as [w4 [s2 [Hrun [_ [Hf [Hlen [_ Hrw2]]]]]]].
    exists w4, s2. split_and!; [done|done| |by rewrite Hlen, Hgrp].
    eapply stored_rewritten_twice; [exact Hst|exact Hrw2|lia]. }
  destruct (find_one F (groups w1)) as [e|] eqn:Hfind.
  - destruct (save_or_update_group_found doc doc name w1 e Hok Hname
                (same_input_refl doc) Hfind)
      as [w2 [s1 [Hrun [Hclk [Hf [Hlen [Hok2 Hrw]]]]]]].
    exists "updated", w2, s1. split_and!; [done|done|done|lia|].
    eapply Hsecond; [done|done|by eapply rewritten_stored|lia].
  - set (s1 := <["_id" := VOid (next_oid w1)]> doc).
    assert (Hs1 : same_input s1 doc) by (intros k H1 H2 H3; unfold s1; by lookups).
    assert (Hrun : Collector.save_or_update_group doc w1
                   = Some (Some (true, "created", Some s1),
                           set_next_oid (next_oid w1 + 1)
                             (set_groups (groups w1 ++ [s1])%list w1))).
    { unfold Collector.save_or_update_group. rewrite Hname. unfold_M. cbn beta iota.
      fold F. rewrite Hfind. unfold insert_group, insert_into. rewrite Hnoid. reflexivity. }
    eexists _, _, s1. split; [exact Hrun|]. simpl.
    assert (Hfind1 : find_one F (groups w1 ++ [s1]) = Some s1).
    { apply find_one_first; [by apply find_one_None|]. by apply same_group_self. }
    split_and!; [done|done|rewrite length_app; simpl; lia|].
    apply (Hsecond s1 (set_next_oid (next_oid w1 + 1)
                         (set_groups (groups w1 ++ [s1])%list w1)) t0);
      simpl; [by apply store_ok_insert|done| |done].
    unfold stored_at, s1. split_and!; lookups; [by eexists|by eexists|done|].
    intros k H1 H2 H3. by lookups.
Qed.

(** The dict that an upsert leaves is the same input for the next. *)
Lemma save_or_update_album_leaves (doc : document) (w w' : World)
    (r : bool * string * document) :
  Collector.save_or_update_album doc w = Some (r, w') -> same_input r.2 doc.
Proof.
  unfold Collector.save_or_update_album.
  destruct (doc !! "artistName"); [|intros [= <- <-]; apply same_input_refl].
  destruct (get_str "name" doc); [|intros [= <- <-]; apply same_input_refl].
  unfold_M. cbn beta iota. destruct (find_one _ (albums w)).
  - destruct (replace_one _ _ _); intros [= <- <-]; intros k H1 H2 H3; simpl; by lookups.
  - unfold insert_album. destruct (insert_into _ _ _) as [[[c i] n]|];
      intros [= <- <-]; intros k H1 H2 H3; simpl; by lookups.
Qed.

(** C6. Upsert is idempotent, for releases and for groups. Let [doc] be a
    freshly built document (no [_id], both timestamps at its creation time
    [t0], and the fields its identity rule reads), upserted at a time not
    before [t0] into a collection whose ids are unique. Then the call
    returns without advancing the clock, it adds at most one record, and
    the identity rule finds a record [s1] afterwards. When the document is
    upserted again at a later time with the collection untouched in
    between, as the same value or as the dict the first call left (the same
    fields; for a release, no [_id] or that of [s1], which is what the
    first call leaves), the second call returns and reports an update, it
    adds no record, and the identity rule finds a record [s2] with the
    [_id] and the [createdAt] of [s1], an [updatedAt] not earlier than that
    of [s1], and every other field of [s1] and of [s2] that of [doc]. *)
Theorem upsert_idempotent :
  (forall (doc : document) (t0 : Z) (an : value) (name : string) (w1 : World),
     store_ok (albums w1) (next_oid w1) ->
     fresh_document doc t0 -> t0 <= clock w1 ->
     doc !! "artistName" = Some an -> get_str "name" doc = Some name ->
     exists r1 w2 s1,
       Collector.save_or_update_album doc w1 = Some (r1, w2) /\ clock w2 = clock w1 /\
       find_one (Collector.same_album doc an name) (albums w2) = Some s1 /\
       (length (albums w2) <= S (length (albums w1)))%nat /\
       same_input r1.2 doc /\
       (r1.2 !! "_id" = None \/ r1.2 !! "_id" = s1 !! "_id") /\
       forall doc2 w3,
         same_input doc2 doc ->
         doc2 !! "_id" = None \/ doc2 !! "_id" = s1 !! "_id" ->
         albums w3 = albums w2 -> next_oid w3 = next_oid w2 -> clock w1 <= clock w3 ->
         exists r2 w4 s2,
           Collector.save_or_update_album doc2 w3 = Some (r2, w4) /\
           find_one (Collector.same_album doc an name) (albums w4) = Some s2 /\
           upserted_twice doc s1 s2 /\
           length (albums w4) = length (albums w2) /\
           r2.1 = (true, "updated"))
  /\
  (forall (doc : document) (t0 : Z) (name : string) (w1 : World),
     store_ok (groups w1) (next_oid w1) ->
     fresh_document doc t0 -> t0 <= clock w1 ->
     get_str "name" doc = Some name ->
     exists r1 w2 s1,
       Collector.save_or_update_group doc w1 = Some (Some (true, r1, Some s1), w2) /\
       clock w2 = clock w1 /\
       find_one (Collector.same_group doc name) (groups w2) = Some s1 /\
       (length (groups w2) <= S (length (groups w1)))%nat /\
       forall doc2 w3,
         same_input doc2 doc ->
         groups w3 = groups w2 -> next_oid w3 = next_oid w2 -> clock w1 <= clock w3 ->
         exists w4 s2,
           Collector.save_or_update_group doc2 w3
           = Some (Some (true, "updated", Some s2), w4) /\
           find_one (Collector.same_group doc name) (groups w4) = Some s2 /\
           upserted_twice doc s1 s2 /\
           length (groups w4) = length (groups w2)).
Proof.
  split.
  - intros. by eapply save_or_update_album_twice.
  - intros. by eapply save_or_update_group_twice.
Qed.

(** The theorem at the document of an album of eight tracks, upserted into
    an empty album collection and again a minute later as the dict that the
    first call left; and at the document of a group, upserted over its
    stored record and again a minute later. *)
Lemma upsert_idempotent_witness :
  (exists r1 w2 s1,
     Collector.save_or_update_album album_8_document store_0 = Some (r1, w2) /\
     exists r2 w4 s2,
       Collector.save_or_update_album r1.2 (a_minute_later w2) = Some (r2, w4) /\
       find_one (Collector.same_album album_8_document (VStr "TWICE") "Eyes Wide Open")
                (albums w4) = Some s2 /\
       upserted_twice album_8_document s1 s2 /\
       length (albums w4) = length (albums w2) /\ r2.1 = (true, "updated")) /\
  (exists r1 w2 s1,
     Collector.save_or_update_group twice_document store_0
     = Some (Some (true, r1, Some s1), w2) /\
     exists w4 s2,
       Collector.save_or_update_group twice_document (a_minute_later w2)
       = Some (Some (true, "updated", Some s2), w4) /\
       upserted_twice twice_document s1 s2 /\
       length (groups w4) = length (groups w2)).
Proof.
  split.
  - destruct (proj1 upsert_idempotent album_8_document 5000 (VStr "TWICE")
                "Eyes Wide Open" store_0)
      as [r1 [w2 [s1 [Hrun [Hclk [Hf [Hlen [Hsame [Hid Hnext]]]]]]]]].
    + split; [constructor|intros d []].
    + split_and!; reflexivity.
    + simpl. lia.
    + reflexivity.
    + reflexivity.
    + exists r1, w2, s1. split; [exact Hrun|].
      destruct (Hnext r1.2 (a_minute_later w2) Hsame Hid eq_refl eq_refl)
        as [r2 [w4 [s2 [Hrun2 [Hf2 [Hup [Hlen2 Hr2]]]]]]].
      { simpl. rewrite Hclk. simpl. lia. }
      by exists r2, w4, s2.
  - destruct (proj2 upsert_idempotent twice_document 5000 "TWICE" store_0)
      as [r1 [w2 [s1 [Hrun [Hclk [Hf [Hlen Hnext]]]]]]].
    + split; [repeat constructor; simpl; tauto|].
      intros d [<-|[]]. split; [by eexists|]. intros n [= <-]. done.
    + split_and!; reflexivity.
    + simpl. lia.
    + reflexivity.
    + exists r1, w2, s1. split; [exact Hrun|].
      destruct (Hnext twice_document (a_minute_later w2) (same_input_refl _) eq_refl eq_refl)
        as [w4 [s2 [Hrun2 [Hf2 [Hup Hlen2]]]]].
      { simpl. rewrite Hclk. simpl. lia. }
      by exists w4, s2.
Defined.

(* ===================================================================== *)
(** * Discovery: [Collector.discover_new_kpop_artists] *)
(* ===================================================================== *)

Section DiscoveryFacts.
Variable E : Env.
(** The caches when the discovery starts. *)
Variables ids0 names0 : gset string.

Notation caches_extend := (Collector.caches_extend ids0 names0).

Lemma new_kpop_artists_of_spec (artists : list Artist) :
  forall processed r processed',
    Collector.new_kpop_artists_of artists processed names0 = (r, processed') ->
    processed ⊆ processed' /\
    forall l, r = Some l -> Forall (Collector.new_to processed names0) l.
Proof.
  induction artists as [|a artists IH]; intros processed r processed'; simpl.
  - intros [= <- <-]. split; [done|]. intros l [= <-]. constructor.
  - destruct (Collector.is_valid_kpop_spotify_artist a); [|apply IH].
    destruct (artist_id a) as [i|] eqn:Hid.
    + destruct (bool_decide (i ∉ processed) && _) eqn:Hnew; [|apply IH].
      apply andb_true_iff in Hnew as [Hi Hn].
      apply bool_decide_eq_true in Hi. apply bool_decide_eq_true in Hn.
      destruct (Collector.new_kpop_artists_of artists (processed ∪ {[i]}) names0)
        as [rest processed''] eqn:Hrest.
      intros [= <- <-]. apply IH in Hrest as [Hsub Hrest]. split; [set_solver|].
      intros l Hl. destruct rest as [rest|]; [|discriminate]. injection Hl as <-.
      constructor.
      * exists i. done.
      * eapply List.Forall_impl; [|by apply Hrest].
        intros b [j [Hj [Hjp Hjn]]]. exists j. split_and!; [done|set_solver|done].
    + intros [= <- <-]. split; [done|]. discriminate.
Qed.

Lemma new_to_mono (ids : gset string) (a : Artist) :
  ids0 ⊆ ids -> Collector.new_to ids names0 a -> Collector.new_to ids0 names0 a.
Proof. intros Hsub [i [Hi [Hp Hn]]]. exists i. split_and!; [done|set_solver|done]. Qed.

Lemma discovery_loop_spec (pages : nat) :
  forall query offset all w r w',
    Collector.discovery_loop E pages query offset all w = Some (r, w') ->
    caches_extend w -> Forall (Collector.new_to ids0 names0) all ->
    caches_extend w' /\
    forall l, r = Some l -> Forall (Collector.new_to ids0 names0) l.
Proof.
  induction pages as [|pages IH]; intros query offset all w r w';
    cbn [Collector.discovery_loop]; destruct (negb (offset <? 1000));
    try (intros [= <- <-] Hc Hall; split; [done|by intros l [= <-]]);
    [discriminate|].
  run.
  destruct (search_artists E query offset (requests w)) as [status ra [artists|]|].
  - destruct (status =? 200);
      [|intros [= <- <-] Hc Hall; split; [done|by intros l [= <-]]].
    destruct (length artists =? 0)%nat;
      [intros [= <- <-] Hc Hall; split; [done|by intros l [= <-]]|].
    simpl.
    destruct (Collector.new_kpop_artists_of artists (processed_spotify_ids w)
                (existing_group_names w)) as [new processed] eqn:Hnew.
    intros Hrun [Hids Hnames] Hall. rewrite Hnames in Hnew.
    apply new_kpop_artists_of_spec in Hnew as [Hsub Hnew].
    assert (Hc' : ids0 ⊆ processed) by set_solver.
    destruct new as [new|]; simpl in Hrun.
    + assert (Hall' : Forall (Collector.new_to ids0 names0) (all ++ new)).
      { apply Forall_app. split; [done|].
        eapply List.Forall_impl; [|by apply Hnew]. intros a. by apply new_to_mono. }
      destruct (_ <? Collector.limit).
      * injection Hrun as <- <-. split; [done|]. by intros l [= <-].
      * eapply IH in Hrun; [done|done|done].
    + injection Hrun as <- <-. split; [done|discriminate].
  - destruct (status =? 200); intros [= <- <-] Hc Hall; (split; [done|]);
      [discriminate|by intros l [= <-]].
  - intros [= <- <-] Hc Hall. split; [done|discriminate].
Qed.

(** The loop is over before its twenty turns are used up. *)
Lemma discovery_loop_total (pages : nat) :
  forall query offset all w,
    1000 <= offset + 50 * Z.of_nat pages ->
    Collector.discovery_loop E pages query offset all w <> None.
Proof.
  induction pages as [|pages IH]; intros query offset all w Hp;
    cbn [Collector.discovery_loop]; destruct (Z.ltb_spec offset 1000); simpl;
    try done; [lia|].
  run.
  destruct (search_artists E query offset (requests w)) as [status ra [artists|]|];
    try (destruct (status =? 200)); try done.
  destruct (length artists =? 0)%nat; [done|]. simpl.
  destruct (Collector.new_kpop_artists_of _ _ _) as [[new|] processed]; simpl; [|done].
  destruct (_ <? Collector.limit); [done|].
  apply IH. unfold Collector.limit. lia.
Qed.

Lemma search_kpop_artists_discovery_spec (query : string) (w : World) :
  caches_extend w ->
  exists l w',
    Collector.search_kpop_artists_discovery E query w = Some (l, w') /\
    caches_extend w' /\ Forall (Collector.new_to ids0 names0) l.
Proof.
  intros Hc. unfold Collector.search_kpop_artists_discovery,
    Collector.refresh_spotify_token_if_needed. unfold_M.
  destruct (token E (requests w)); cbn [negb].
  2:{ exists [], w. split_and!; [reflexivity|exact Hc|constructor]. }
  destruct (Collector.discovery_loop E 20 query 0 [] w) as [[r w']|] eqn:Hrun.
  - exists (default [] r), w'. split; [done|].
    apply discovery_loop_spec in Hrun as [Hc' Hr]; [|done|constructor].
    split; [done|]. destruct r as [l|]; [by apply Hr|constructor].
  - exfalso. revert Hrun. apply discovery_loop_total. lia.
Qed.

Lemma discover_all_spec (queries : list string) :
  forall all w,
    caches_extend w -> Forall (Collector.new_to ids0 names0) all ->
    exists l w',
      Collector.discover_all E queries all w = Some (l, w') /\
      Forall (Collector.new_to ids0 names0) l.
Proof.
  induction queries as [|query queries IH]; intros all w Hc Hall; simpl.
  - by exists all, w.
  - run. destruct (search_kpop_artists_discovery_spec query w Hc) as [l [w' [-> [Hc' Hl]]]].
    apply IH; [done|]. apply Forall_app. done.
Qed.
End DiscoveryFacts.

Lemma unique_artists_spec (l : list Artist) :
  forall seen,
    let r := Collector.unique_artists l seen in
    (forall a, In a r -> In a l) /\
    List.NoDup (map (fun a => default "" (artist_id a)) r) /\
    forall a, In a r -> ~ In (default "" (artist_id a)) seen.
Proof.
  induction l as [|a l IH]; intros seen; simpl.
  - split_and!; [done|constructor|done].
  - destruct (existsb _ seen) eqn:Hseen.
    + destruct (IH seen) as [H1 [H2 H3]]. split_and!; [|done|done].
      intros b Hb. right. by apply H1.
    + destruct (IH (default "" (artist_id a) :: seen)) as [H1 [H2 H3]].
      assert (Ha : ~ In (default "" (artist_id a)) seen).
      { intros Hin. apply not_true_iff_false in Hseen. apply Hseen.
        apply existsb_exists. eexists. split; [exact Hin|]. apply String.eqb_refl. }
      split_and!.
      * intros b [<-|Hb]; [by left|right; by apply H1].
      * simpl. constructor; [|done]. intros Hin. apply in_map_iff in Hin as [b [Hb Hbin]].
        apply (H3 b Hbin). left. done.
      * intros b [<-|Hb]; [done|]. intros Hin. apply (H3 b Hb). by right.
Qed.

Lemma Z_leb_total (a b : Z) : (a <=? b) = true \/ (b <=? a) = true.
Proof. destruct (Z.leb_spec a b); [by left|right; apply Z.leb_le; lia]. Qed.

Lemma Z_leb_trans (a b c : Z) : (a <=? b) = true -> (b <=? c) = true -> (a <=? c) = true.
Proof. rewrite !Z.leb_le. lia. Qed.

Lemma StronglySorted_impl_desc (l : list Artist) :
  StronglySorted (desc Collector.popularity_key Z.leb) l ->
  StronglySorted (fun x y => Collector.popularity_key y <= Collector.popularity_key x) l.
Proof.
  induction 1 as [|x l Hs IH Hx]; constructor; [done|].
  eapply List.Forall_impl; [|exact Hx]. intros y Hy. by apply Z.leb_le.
Qed.

Lemma discover_new_kpop_artists_spec (E : Env) (w : World) :
  exists found w',
    Collector.discover_new_kpop_artists E w = Some (found, w') /\
    List.NoDup (map artist_id found) /\
    StronglySorted (fun x y => Collector.popularity_key y <= Collector.popularity_key x)
                   found /\
    forall a, In a found ->
      exists i, artist_id a = Some i /\ i ∉ processed_spotify_ids w
                /\ strip (lower (default "" (artist_name a))) ∉ existing_group_names w.
Proof.
  unfold Collector.discover_new_kpop_artists. unfold_M.
  destruct (discover_all_spec E (processed_spotify_ids w) (existing_group_names w)
              Collector.search_queries [] w) as [l [w' [Hrun Hl]]];
    [done|constructor|].
  rewrite Hrun. eexists _, w'. split; [reflexivity|].
  destruct (unique_artists_spec l []) as [Hsub [Hnd _]].
  set (u := Collector.unique_artists l []) in *.
  assert (Hnew : forall a, In a u -> Collector.new_to (processed_spotify_ids w)
                                                      (existing_group_names w) a).
  { intros a Ha. apply Hsub in Ha. rewrite List.Forall_forall in Hl. by apply Hl. }
  pose proof (sort_desc_perm Collector.popularity_key Z.leb u) as Hperm.
  split_and!.
  - eapply Permutation_NoDup; [apply Permutation_map; symmetry; exact Hperm|].
    assert (Hmap : map artist_id u = map Some (map (fun a => default "" (artist_id a)) u)).
    { rewrite map_map. apply map_ext_in. intros a Ha.
      destruct (Hnew a Ha) as [i [-> _]]. done. }
    rewrite Hmap. clear -Hnd. induction Hnd as [|x l' Hx Hnd IH]; simpl; constructor; [|done].
    intros Hin. apply in_map_iff in Hin as [y [[= ->] Hy]]. done.
  - eapply StronglySorted_impl_desc.
    apply (sort_desc_sorted Collector.popularity_key Z.leb Z_leb_total Z_leb_trans).
  - intros a Ha. apply (proj1 (sort_desc_In Collector.popularity_key Z.leb a u)) in Ha.
    exact (Hnew a Ha).
Qed.

(** C10. [discover_new_kpop_artists] returns, whatever the provider
    answers, and the list it returns holds no two artists with the same
    external id, is in non-increasing order of popularity (an artist
    without one counting as 0), and holds only artists that are new to the
    caches as they were when it was called: each has an external id that
    was not among the processed ids, and a name whose lowercased and
    trimmed form was not among the existing names. *)
Theorem discovery_distinct_sorted_new (E : Env) (w : World) :
  exists found w',
    Collector.discover_new_kpop_artists E w = Some (found, w') /\
    List.NoDup (map artist_id found) /\
    StronglySorted (fun x y => default 0 (popularity y) <= default 0 (popularity x))
                   found /\
    forall a, In a found ->
      exists i, artist_id a = Some i /\ i ∉ processed_spotify_ids w
                /\ strip (lower (default "" (artist_name a))) ∉ existing_group_names w.
Proof. apply discover_new_kpop_artists_spec. Qed.

Lemma load_groups_spec (gs : list document) :
  forall names ids names' ids',
    Forall (fun g => is_Some (get_str "name" g)) gs ->
    Collector.load_groups gs names ids = (names', ids') ->
    names ⊆ names' /\ ids ⊆ ids' /\
    forall g, In g gs ->
      (forall n, get_str "name" g = Some n -> strip (lower n) ∈ names') /\
      (forall s, get_str "spotifyId" g = Some s -> s <> "" -> s ∈ ids').
Proof.
  induction gs as [|g gs IH]; intros names ids names' ids' Hall; simpl.
  - intros [= <- <-]. split_and!; [done|done|intros ? []].
  - inversion Hall as [|? ? [n Hn] Hall']; subst. rewrite Hn. intros Hrun.
    apply IH in Hrun as [Hnames [Hids Hgs]]; [|done].
    split_and!; [set_solver| |].
    + destruct (get_str "spotifyId" g) as [s|]; [|done].
      destruct (String.eqb s ""); set_solver.
    + intros g' [<-|Hg']; [|by apply Hgs]. split.
      * intros n' Hn'. assert (n' = n) by congruence. set_solver.
      * intros s Hs Hne. rewrite Hs in Hids.
        destruct (String.eqb_spec s ""); [done|]. set_solver.
Qed.

(** After the caches are loaded from a store in which every group has a
    name, no artist that the discovery returns is a stored group: its
    external id is not the non-empty [spotifyId] of a stored group, and its
    lowercased, trimmed name is not that of a stored group. *)
Theorem discovered_artists_are_not_stored (E : Env) (w : World) :
  Forall (fun g => is_Some (get_str "name" g)) (groups w) ->
  exists w1 found w2,
    Collector.load_existing_groups_cache w = Some (tt, w1) /\
    Collector.discover_new_kpop_artists E w1 = Some (found, w2) /\
    forall a g, In a found -> In g (groups w) ->
      (forall s, get_str "spotifyId" g = Some s -> s <> "" -> artist_id a <> Some s) /\
      (forall n, get_str "name" g = Some n ->
         strip (lower (default "" (artist_name a))) <> strip (lower n)).
Proof.
  intros Hall. unfold Collector.load_existing_groups_cache. unfold_M.
  destruct (Collector.load_groups (groups w) ∅ ∅) as [names ids] eqn:Hload.
  eexists. destruct (discover_new_kpop_artists_spec E (set_caches ids names w))
    as [found [w2 [Hrun [_ [_ Hnew]]]]].
  exists found, w2. split_and!; [reflexivity|exact Hrun|].
  apply load_groups_spec in Hload as [_ [_ Hgs]]; [|done].
  intros a g Ha Hg. destruct (Hnew a Ha) as [i [Hi [Hid Hname]]]. simpl in *.
  destruct (Hgs g Hg) as [Hn Hs]. split.
  - intros s Hgs' Hne Heq. apply Hid. assert (i = s) by congruence. subst. by apply Hs.
  - intros n Hgn Heq. apply Hname. rewrite Heq. by apply Hn.
Qed.

Lemma discovered_artists_are_not_stored_witness :
  exists w1 found w2,
    Collector.load_existing_groups_cache store_0 = Some (tt, w1) /\
    Collector.discover_new_kpop_artists
      (provider kpop_lookup [] [] [artist twice_id "TWICE" ["k-pop"] 85;
                                   artist other_id "ITZY" ["k-pop"] 80]) w1
      = Some (found, w2) /\
    forall a g, In a found -> In g (groups store_0) ->
      (forall s, get_str "spotifyId" g = Some s -> s <> "" -> artist_id a <> Some s) /\
      (forall n, get_str "name" g = Some n ->
         strip (lower (default "" (artist_name a))) <> strip (lower n)).
Proof.
  apply (discovered_artists_are_not_stored _ store_0).
  repeat constructor. by exists "TWICE".
Defined.

(* ===================================================================== *)
(** * Revalidation in the cleaner: rate limits and invalid groups *)
(* ===================================================================== *)






Lemma set_fields_lookup_other (fields : list (string * value)) (d : document) (k : string) :
  ~ In k (map fst fields) -> set_fields fields d !! k = d !! k.
Proof.
  unfold set_fields. revert d. induction fields as [|[k' v] fields IH]; intros d Hk; [done|].
  simpl in *. rewrite IH by tauto. apply lookup_insert_ne. tauto.
Qed.

(** [mark_group_as_invalid] rewrites the first group with the given id and
    nothing else. With a reason that names a rate limit the rewritten group
    is picked up by [get_groups_from_database] exactly at the times later
    than 24 hours after the marking; with any other reason it is picked up
    at no time. *)
Theorem mark_group_as_invalid_window (group_id : option value)
    (group_name reason : string) (w : World) :
  exists upd w',
    Cleaner.mark_group_as_invalid group_id group_name reason w = Some (tt, w') /\
    groups w' = update_first (has_id group_id) upd (groups w) /\
    albums w' = albums w /\ sleeps w' = sleeps w /\ clock w' = clock w /\
    forall d current_time,
      Cleaner.processable current_time (upd d) =
        if str_in "429" reason || str_in "rate" (lower reason)
           || str_in "Rate limiting" reason
        then clock w + 86400 * 1000 <? current_time
        else false.
Proof.
  unfold Cleaner.mark_group_as_invalid. unfold_M. cbn beta iota.
  change (str_in "429" reason || str_in "rate" (lower reason)
          || str_in "Rate limiting" reason) with (Cleaner.is_rate_limit_reason reason).
  destruct (Cleaner.is_rate_limit_reason reason); eexists _, _;
    (split_and!; [reflexivity|reflexivity|done|done|done|]);
    intros d t; unfold Cleaner.processable, Cleaner.due, field_is, set_fields; simpl;
    lookups; reflexivity.
Qed.

(** The reasons that [clean_albums_for_group] gives name no rate limit. *)
Lemma clean_albums_reasons_are_final :
  Cleaner.is_rate_limit_reason "Pas de Spotify ID" = false /\
  Cleaner.is_rate_limit_reason "Pas K-pop ou artiste inexistant" = false.
Proof. split; reflexivity. Qed.

(** C1. When the provider answers the validation of a group with a 429
    whose Retry-After exceeds 600 seconds, [clean_albums_for_group] does not
    sleep and leaves the albums alone, but it marks the group as invalid for
    good: the group's record gets [isActive = False] and an [invalidReason],
    its [rateLimited] and [retryAfter] fields stay as they were, and
    [get_groups_from_database] picks the record up at no later time. *)
Theorem extreme_rate_limit_deactivates_group (E : Env) (fuel : nat) (group : document)
    (spotify_id : string) (wait : Z) (body : option Artist) (w : World) :
  Cleaner.extract_spotify_id_from_group group = Some spotify_id ->
  token E (requests w) = true ->
  get_artist E spotify_id (requests w) = Response 429 (RA_seconds wait) body ->
  600 < wait ->
  exists upd w',
    Cleaner.clean_albums_for_group E fuel group w = Some (tt, w') /\
    sleeps w' = sleeps w /\ albums w' = albums w /\
    groups w' = update_first (has_id (group !! "_id")) upd (groups w) /\
    forall d,
      upd d !! "isActive" = Some (VBool false) /\
      upd d !! "invalidReason" = Some (VStr "Pas K-pop ou artiste inexistant") /\
      upd d !! "rateLimited" = d !! "rateLimited" /\
      upd d !! "retryAfter" = d !! "retryAfter" /\
      forall current_time, Cleaner.processable current_time (upd d) = false.
Proof.
  intros Hid Htok Hresp Hwait.
  unfold Cleaner.clean_albums_for_group. rewrite Hid.
  unfold Cleaner.validate_kpop_artist_by_id, Cleaner.refresh_spotify_token_if_needed.
  unfold_M. rewrite Htok. cbn [negb Cleaner.max_retries Cleaner.validate_loop].
  unfold_M. cbn beta iota. rewrite Hresp. cbn beta iota.
  change (429 =? 200) with false. change (429 =? 429) with true. cbn beta iota.
  cbn [wait_time_of]. destruct (Z.gtb_spec wait 600); [|lia]. cbn [negb].
  unfold Cleaner.mark_group_as_invalid. unfold_M.
  change (Cleaner.is_rate_limit_reason "Pas K-pop ou artiste inexistant") with false.
  cbn beta iota. eexists _, _. split_and!; [reflexivity|done|done|reflexivity|].
  intros d. unfold set_fields. simpl. split_and!; lookups; try done.
  intros t. unfold Cleaner.processable, field_is. lookups.
  rewrite bool_decide_eq_false_2 by done. done.
Qed.

Lemma extreme_rate_limit_deactivates_group_witness :
  exists upd w',
    Cleaner.clean_albums_for_group
      (provider (Response 429 (RA_seconds 700) None) [] [] []) 204 twice_group store_0
      = Some (tt, w') /\
    sleeps w' = sleeps store_0 /\ albums w' = albums store_0 /\
    groups w' = update_first (has_id (twice_group !! "_id")) upd (groups store_0) /\
    forall d,
      upd d !! "isActive" = Some (VBool false) /\
      upd d !! "invalidReason" = Some (VStr "Pas K-pop ou artiste inexistant") /\
      upd d !! "rateLimited" = d !! "rateLimited" /\
      upd d !! "retryAfter" = d !! "retryAfter" /\
      forall current_time, Cleaner.processable current_time (upd d) = false.
Proof.
  apply (extreme_rate_limit_deactivates_group
           (provider (Response 429 (RA_seconds 700) None) [] [] []) 204 twice_group
           twice_id 700 None store_0); [reflexivity|reflexivity|reflexivity|lia].
Defined.

(** [extract_spotify_id_from_group] only ever returns an id of 22
    characters; it returns the [spotifyId] of a group when that is a string
    of 22 characters, whatever the group's Spotify link; and a group with
    neither a [spotifyId] nor a Spotify link has none. *)
Theorem extract_spotify_id_length (group : document) :
  (forall spotify_id,
     Cleaner.extract_spotify_id_from_group group = Some spotify_id ->
     String.length spotify_id = 22%nat) /\
  (forall spotify_id,
     get_str "spotifyId" group = Some spotify_id -> String.length spotify_id = 22%nat ->
     Cleaner.extract_spotify_id_from_group group = Some spotify_id) /\
  (get_str "spotifyId" group = None -> get_str "socialLinks.spotify" group = None ->
   Cleaner.extract_spotify_id_from_group group = None).
Proof.
  unfold Cleaner.extract_spotify_id_from_group. split; [|split].
  2:{ intros s -> Hlen. destruct s as [|c s]; [discriminate|].
      cbn [String.eqb negb andb]. rewrite Hlen. cbn [Nat.eqb].
      destruct (_ && str_in _ _); [destruct (_ =? 22)%nat|]; reflexivity. }
  - intros s.
    assert (Hurl : forall o : option string,
              o = None \/ (exists i, o = Some i /\ String.length i = 22%nat) ->
              forall u : string,
              o ∪ (if (String.length u =? 22)%nat then Some u else None) = Some s ->
              String.length s = 22%nat).
    { intros o [->|[i [-> Hi]]] u.
      - destruct (String.length u =? 22)%nat eqn:Hl; [|discriminate].
        intros [= <-]. by apply Nat.eqb_eq.
      - destruct (String.length u =? 22)%nat; by intros [= <-]. }
    assert (Hid : match get_str "spotifyId" group with
                  | Some spotify_id =>
                      if negb (String.eqb spotify_id "")
                         && (String.length spotify_id =? 22)%nat
                      then Some spotify_id else None
                  | None => None
                  end = None \/
                  exists i, match get_str "spotifyId" group with
                  | Some spotify_id =>
                      if negb (String.eqb spotify_id "")
                         && (String.length spotify_id =? 22)%nat
                      then Some spotify_id else None
                  | None => None
                  end = Some i /\ String.length i = 22%nat).
    { destruct (get_str "spotifyId" group) as [i|]; [|by left].
      destruct (negb (String.eqb i "") && (String.length i =? 22)%nat) eqn:Hi; [|by left].
      right. exists i. split; [done|].
      apply andb_true_iff in Hi as [_ Hi]. by apply Nat.eqb_eq. }
    destruct (_ && str_in _ _).
    + by apply Hurl.
    + destruct Hid as [->|[i [-> Hi]]]; [discriminate|]. by intros [= <-].
  - intros -> ->. reflexivity.
Qed.

Lemma keys_dict_set (k k' : string) (v : Album) (d : list (string * Album)) :
  In k (Cleaner.keys (Cleaner.dict_set k' v d)) <-> k = k' \/ In k (Cleaner.keys d).
Proof.
  induction d as [|[k0 v0] d IH]; simpl.
  - split; [intros [<-|[]]; by left|intros [->|[]]; by left].
  - destruct (String.eqb_spec k' k0) as [->|Hne]; simpl; [|rewrite IH]; split;
      intros H; repeat destruct H as [H|H]; subst; auto.
Qed.

(** The keys of the dict after each of the two loops of [merge_albums]:
    those it had, and the non-empty ids of the listing. *)
Lemma keys_fold_add_official (A : list Album) :
  forall d k,
    In k (Cleaner.keys (fold_left Cleaner.add_official A d)) <->
    In k (Cleaner.keys d) \/ (k <> "" /\ In (Some k) (map album_id A)).
Proof.
  induction A as [|a A IH]; intros d k; cbn [fold_left map].
  - split; [by left|]. intros [H|[_ []]]. done.
  - rewrite IH. unfold Cleaner.add_official. cbn [In].
    destruct (truthy (album_id a)) eqn:Ht.
    + apply truthy_Some in Ht as [k' [Hid Hne]]. rewrite Hid. cbn [default from_option id].
      rewrite keys_dict_set. split.
      * intros [[->|H]|[Hk H]]; [right; split; [done|by left]|by left|right; split; auto].
      * intros [H|[Hk [[= ->]|H]]]; [left; by right|left; by left|right; split; auto].
    + split; [intros [H|[Hk H]]; [by left|right; split; auto]|].
      intros [H|[Hk [Hid|H]]]; [by left| |right; split; auto].
      exfalso. rewrite Hid in Ht. simpl in Ht. apply negb_false_iff in Ht.
      apply String.eqb_eq in Ht. done.
Qed.

Lemma keys_fold_add_search (S : list Album) :
  forall d k,
    In k (Cleaner.keys (fold_left Cleaner.add_search S d)) <->
    In k (Cleaner.keys d) \/ (k <> "" /\ In (Some k) (map album_id S)).
Proof.
  induction S as [|a S IH]; intros d k; cbn [fold_left map].
  - split; [by left|]. intros [H|[_ []]]. done.
  - rewrite IH. unfold Cleaner.add_search. cbn [In].
    destruct (truthy (album_id a)) eqn:Ht; cbn [andb].
    + apply truthy_Some in Ht as [k' [Hid Hne]]. rewrite Hid. cbn [default from_option id].
      destruct (Cleaner.dict_mem k' d) eqn:Hm; cbn [negb].
      * apply dict_mem_In in Hm. split.
        -- intros [H|[Hk H]]; [by left|right; split; auto].
        -- intros [H|[Hk [[= ->]|H]]]; [by left|by left|right; split; auto].
      * rewrite keys_dict_set. split.
        -- intros [[->|H]|[Hk H]]; [right; split; [done|by left]|by left|right; split; auto].
        -- intros [H|[Hk [[= ->]|H]]]; [left; by right|left; by left|right; split; auto].
    + split; [intros [H|[Hk H]]; [by left|right; split; auto]|].
      intros [H|[Hk [Hid|H]]]; [by left| |right; split; auto].
      exfalso. rewrite Hid in Ht. simpl in Ht. apply negb_false_iff in Ht.
      apply String.eqb_eq in Ht. done.
Qed.

(** The merged result of [merge_albums] holds, once each, exactly the
    non-empty external ids of the two listings: an id is that of a record
    of the result if and only if it is that of an item of one of the
    listings, and no two records have the same id. Every record in it has a
    non-empty external id and is tagged ['official'] or ['search'], and it
    has at most as many records as the two listings together. *)
Theorem merge_albums_distinct_ids (A S : list Album) (spotify_id artist_name : string) :
  let R := Cleaner.merge_albums A S spotify_id artist_name in
  List.NoDup (map album_id R) /\
  (forall k, k <> "" ->
     In (Some k) (map album_id R) <->
     In (Some k) (map album_id A) \/ In (Some k) (map album_id S)) /\
  (forall r, In r R ->
     truthy (album_id r) = true /\
     (discovery_method r = Some "official" \/ discovery_method r = Some "search")) /\
  (length R <= length A + length S)%nat.
Proof.
  intros R.
  destruct (unique_albums_spec A S) as [news [Heq [[Hnd Hk] Hnews]]].
  destruct (official_dict_spec A) as [[HndA _] Hoff].
  assert (Hperm : Permutation R (map snd (Cleaner.unique_albums A S)))
    by apply sort_desc_perm.
  assert (Hids : map album_id (map snd (Cleaner.unique_albums A S))
                 = map Some (Cleaner.keys (Cleaner.unique_albums A S))).
  { rewrite Heq. unfold Cleaner.keys. rewrite !map_map. apply map_ext_in.
    intros [k v] Hkv. simpl. by destruct (Hk k v Hkv). }
  split_and!.
  - eapply Permutation_NoDup; [apply Permutation_map; symmetry; exact Hperm|].
    rewrite Hids, Heq. clear -Hnd.
    induction Hnd as [|x l' Hx Hnd IH]; simpl; constructor; [|done].
    intros Hin. apply in_map_iff in Hin as [y [[= ->] Hy]]. done.
  - intros k Hne.
    assert (Hin : In (Some k) (map album_id R)
                  <-> In k (Cleaner.keys (Cleaner.unique_albums A S))).
    { split.
      - intros H. eapply Permutation_in in H; [|apply Permutation_map; exact Hperm].
        rewrite Hids in H. apply in_map_iff in H as [k' [[= ->] H]]. done.
      - intros H. eapply Permutation_in; [apply Permutation_map; symmetry; exact Hperm|].
        rewrite Hids. by apply in_map. }
    rewrite Hin. unfold Cleaner.unique_albums.
    rewrite keys_fold_add_search, keys_fold_add_official. simpl. tauto.
  - intros r Hr. eapply Permutation_in in Hr; [|exact Hperm].
    rewrite Heq in Hr. apply in_map_iff in Hr as [[k v] [<- Hkv]]. simpl.
    destruct (Hk k v Hkv) as [Hid Hne]. split.
    + apply truthy_Some. eauto.
    + apply in_app_iff in Hkv as [Hkv|Hkv].
      * apply Hoff in Hkv as [_ [a [_ ->]]]. by left.
      * apply Hnews in Hkv as [_ [a [_ [_ ->]]]]. by right.
  - rewrite (Permutation_length Hperm), length_map.
    unfold Cleaner.unique_albums.
    assert (Hlen : forall (f : list (string * Album) -> Album -> list (string * Album)) l d,
              (forall d a, length (f d a) <= Datatypes.S (length d))%nat ->
              (length (fold_left f l d) <= length d + length l)%nat).
    { intros f l. induction l as [|a l IH]; intros d Hf; simpl; [lia|].
      specialize (IH (f d a) Hf). specialize (Hf d a). lia. }
    assert (Hset : forall k v d,
              (length (Cleaner.dict_set k v d) <= Datatypes.S (length d))%nat).
    { intros k v d. induction d as [|[k' v'] d IH]; simpl; [lia|].
      destruct (String.eqb k k'); simpl; lia. }
    pose proof (Hlen Cleaner.add_official A []) as H1.
    pose proof (Hlen Cleaner.add_search S (fold_left Cleaner.add_official A [])) as H2.
    simpl in H1.
    assert (length (fold_left Cleaner.add_official A []) <= length A)%nat.
    { apply H1. intros d a. unfold Cleaner.add_official.
      destruct (truthy _); [apply Hset|lia]. }
    assert (length (fold_left Cleaner.add_search S (fold_left Cleaner.add_official A []))
            <= length (fold_left Cleaner.add_official A []) + length S)%nat.
    { apply H2. intros d a. unfold Cleaner.add_search.
      destruct (_ && _); [apply Hset|lia]. }
    lia.
Qed.

(* ===================================================================== *)
(** * Revalidation in the collector: names and deletions *)
(* ===================================================================== *)



Lemma prefix_refl (s : string) : String.prefix s s = true.
Proof. induction s as [|c s IH]; simpl; [done|]. by destruct (ascii_dec c c). Qed.

Lemma str_in_refl (s : string) : str_in s s = true.
Proof. destruct s; simpl; [done|]. rewrite prefix_refl. by destruct (ascii_dec a a). Qed.







Lemma project_id (d : document) :
  Cleaner.project ["_id"; "name"; "spotifyId"] d !! "_id" = d !! "_id".
Proof.
  unfold Cleaner.project. simpl.
  destruct (d !! "_id") eqn:H1, (d !! "name"), (d !! "spotifyId"); by lookups.
Qed.

Lemma delete_one_In (f : document -> bool) (c : list document) (g : document) :
  In g (delete_one f c) -> In g c.
Proof.
  induction c as [|x c IH]; simpl; [done|].
  destruct (f x); simpl; [tauto|]. intros [<-|H]; [by left|right; auto].
Qed.

Lemma delete_one_keeps (f : document -> bool) (c : list document) (g : document) :
  In g c -> f g = false -> In g (delete_one f c).
Proof.
  induction c as [|x c IH]; simpl; [done|].
  intros [->|Hg] Hf.
  - rewrite Hf. by left.
  - destruct (f x); [done|]. right. auto.
Qed.

(** What one check does to the store: nothing, or the deletion of the
    group with the checked id and of the albums that refer to it. *)
Lemma check_group_effect (E : Env) (group : document) (c : Collector.CleanupCounts)
    (w : World) :
  exists c' w',
    Collector.check_group E group c w = Some (c', w') /\
    ((groups w' = groups w /\ albums w' = albums w) \/
     (groups w' = delete_one (has_id (group !! "_id")) (groups w) /\
      albums w' = delete_many (field_is "artistId" (group !! "_id")) (albums w))).
Proof.
  unfold Collector.check_group, Collector.refresh_spotify_token_if_needed,
    Collector.delete_group_and_albums. unfold_M. cbn beta iota.
  destruct (token E (requests w)); cbn [negb]; [|eexists _, _; split; [reflexivity|by left]].
  cbn beta iota.
  destruct (get_artist E _ (requests w)) as [status ra [found|]|]; cbn beta iota;
    repeat match goal with
      | |- context [match Collector.name_of_group ?g with _ => _ end] =>
          destruct (Collector.name_of_group g); cbn beta iota
      | |- context [if ?b then _ else _] => destruct b; cbn beta iota
      | |- context [match wait_time_of ?h with _ => _ end] =>
          destruct (wait_time_of h); cbn beta iota
      end;
    eexists _, _; (split; [reflexivity|]); simpl; auto.
Qed.

Lemma check_groups_effect (E : Env) (gs : list document) :
  forall c w,
    exists c' w',
      Collector.check_groups E gs c w = Some (c', w') /\
      (forall g, In g (groups w') -> In g (groups w)) /\
      (forall a, In a (albums w') -> In a (albums w)) /\
      (forall g, In g (groups w) ->
         (forall p, In p gs -> has_id (p !! "_id") g = false) -> In g (groups w')).
Proof.
  induction gs as [|p gs IH]; intros c w; cbn [Collector.check_groups].
  - exists c, w. split_and!; auto.
  - unfold_M. destruct (check_group_effect E p c w) as [c1 [w1 [-> Heff]]].
    destruct (IH c1 w1) as [c' [w' [Hrun [Hsub [Hasub Hkeep]]]]].
    exists c', w'. split; [done|].
    destruct Heff as [[Hg Ha]|[Hg Ha]]; rewrite Hg, Ha in *.
    + split_and!; [done|done|]. intros g Hin Hids. apply Hkeep; [done|].
      intros q Hq. apply Hids. by right.
    + split_and!.
      * intros g Hin. eapply delete_one_In. eauto.
      * intros a Hin. apply Hasub in Hin. unfold delete_many in Hin.
        by apply filter_In in Hin as [? _].
      * intros g Hin Hids. apply Hkeep.
        -- apply delete_one_keeps; [done|]. apply Hids. by left.
        -- intros q Hq. apply Hids. by right.
Qed.

(** A run of [cleanup_invalid_spotify_artists] ends without a result
    (Python's [None], not the dict of counters); it only ever deletes, and
    over a store whose ids are unique it deletes no group that has no
    [spotifyId] or an empty one. *)
Theorem cleanup_spares_groups_without_spotify_id (E : Env) (w : World) :
  store_ok (groups w) (next_oid w) ->
  exists w',
    Collector.cleanup_invalid_spotify_artists E w = Some (None, w') /\
    (forall g, In g (groups w') -> In g (groups w)) /\
    (forall a, In a (albums w') -> In a (albums w)) /\
    (forall g, In g (groups w) -> Collector.with_spotify_id g = false -> In g (groups w')).
Proof.
  intros [Hnd Hok]. unfold Collector.cleanup_invalid_spotify_artists. unfold_M.
  cbn beta iota.
  destruct (check_groups_effect E
              (map (Cleaner.project ["_id"; "name"; "spotifyId"])
                   (List.filter Collector.with_spotify_id (groups w)))
              {| Collector.invalid_count := 0; Collector.rate_limited_count := 0;
                 Collector.checked_count := 0 |} w)
    as [c' [w' [-> [Hsub [Hasub Hkeep]]]]].
  exists w'. split_and!; [done|done|done|].
  intros g Hg Hno. apply Hkeep; [done|].
  intros p Hp. apply in_map_iff in Hp as [g0 [<- Hg0]].
  apply filter_In in Hg0 as [Hg0 Hyes]. rewrite project_id.
  apply bool_decide_eq_false. intros Heq.
  assert (g = g0) by (eapply (NoDup_map_inj (fun d : document => d !! "_id")); eauto).
  subst. congruence.
Qed.

Lemma cleanup_spares_groups_without_spotify_id_witness :
  exists w',
    Collector.cleanup_invalid_spotify_artists
      (provider (Response 404 RA_absent None) [] [] []) store_0 = Some (None, w') /\
    (forall g, In g (groups w') -> In g (groups store_0)) /\
    (forall a, In a (albums w') -> In a (albums store_0)) /\
    (forall g, In g (groups store_0) -> Collector.with_spotify_id g = false ->
       In g (groups w')).
Proof.
  apply (cleanup_spares_groups_without_spotify_id _ store_0). split.
  - repeat constructor. simpl. tauto.
  - intros d [<-|[]]. split; [by eexists|]. intros n [= <-]. done.
Defined.

(* ===================================================================== *)
(** * A pass over the releases of a group *)
(* ===================================================================== *)

Lemma save_albums_accounts (E : Env) (releases : list Album) :
  forall group stats w stats' w',
    Collector.save_albums E releases group stats w = Some (stats', w') ->
    accounted stats' = accounted stats + Z.of_nat (length releases) /\
    Collector.albums_discovered stats' = Collector.albums_discovered stats /\
    Collector.albums_created stats <= Collector.albums_created stats' /\
    Collector.albums_updated stats <= Collector.albums_updated stats' /\
    Collector.albums_failed stats <= Collector.albums_failed stats'.
Proof.
  induction releases as [|a releases IH]; intros group stats w stats' w'.
  - intros [= <- <-]. simpl. lia.
  - cbn [Collector.save_albums]. unfold_M. cbn beta iota.
    destruct (Collector.create_album_document E a group (clock w)) as [doc|].
    + unfold Collector.save_or_update_album.
      destruct (doc !! "artistName"); [destruct (get_str "name" doc)|]; unfold_M;
        cbn beta iota; try destruct (find_one _ (albums w)); cbn beta iota;
        try destruct (replace_one _ _ _); cbn beta iota;
        try (unfold insert_album; destruct (insert_into _ _ _) as [[[? ?] ?]|];
             cbn beta iota);
        intros Hrun; apply IH in Hrun; revert Hrun;
        unfold accounted; simpl; rewrite ?Nat2Z.inj_succ; lia.
    + intros Hrun. apply IH in Hrun. revert Hrun.
      unfold accounted. simpl. rewrite ?Nat2Z.inj_succ. lia.
Qed.

(** A pass over the releases of a stored group counts every release that
    the listing returned exactly once, as created, updated or failed, and
    it leaves the groups alone. *)
Theorem release_pass_accounts_every_release (E : Env)
    (is_valid_spotify_album_only : Album -> option bool) (fuel : nat)
    (group : document) (stats : Collector.AlbumStats) (w w' : World) :
  Collector.process_existing_group_albums E is_valid_spotify_album_only fuel group w
    = Some (Some stats, w') ->
  Collector.albums_discovered stats
    = Collector.albums_created stats + Collector.albums_updated stats
      + Collector.albums_failed stats /\
  0 <= Collector.albums_created stats /\ 0 <= Collector.albums_updated stats /\
  0 <= Collector.albums_failed stats.
Proof.
  unfold Collector.process_existing_group_albums.
  destruct (get_str "name" group) as [group_name|]; [|discriminate].
  unfold_M.
  destruct (if truthy (get_str "spotifyId" group) then _ else _) as [[releases w1]|];
    [|discriminate].
  destruct (Collector.save_albums E releases group _ w1) as [[stats' w2]|] eqn:Hsave;
    [|discriminate].
  intros [= <- <-]. apply save_albums_accounts in Hsave. revert Hsave.
  unfold accounted. simpl. lia.
Qed.

Lemma release_pass_accounts_every_release_witness :
  match Collector.process_existing_group_albums
          (provider kpop_lookup [album_8; album_6; album_3] [] [])
          undefined_album_check 10 twice_group store_0 with
  | Some (Some stats, _) =>
      Collector.albums_discovered stats
      = Collector.albums_created stats + Collector.albums_updated stats
        + Collector.albums_failed stats
  | _ => False
  end.
Proof.
  destruct (Collector.process_existing_group_albums _ _ _ _ _) as [[[stats|] w']|] eqn:Hrun.
  - exact (proj1 (release_pass_accounts_every_release _ _ _ _ _ _ _ Hrun)).
  - vm_compute in Hrun. discriminate.
  - vm_compute in Hrun. discriminate.
Defined.

Lemma save_or_update_album_store_ok (doc : document) (w w' : World)
    (r : bool * string * document) :
  store_ok (albums w) (next_oid w) -> doc !! "_id" = None ->
  Collector.save_or_update_album doc w = Some (r, w') ->
  store_ok (albums w') (next_oid w').
Proof.
  intros Hok Hnoid. unfold Collector.save_or_update_album.
  destruct (doc !! "artistName") as [an|]; [|by intros [= <- <-]].
  destruct (get_str "name" doc) as [name|]; [|by intros [= <- <-]].
  unfold_M. cbn beta iota.
  destruct (find_one _ (albums w)) as [e|] eqn:Hfind.
  - set (D := <["updatedAt" := _]> (<["createdAt" := _]> doc)).
    assert (HD : same_input D doc) by (intros k H1 H2 H3; unfold D; by lookups).
    destruct (upsert_found (Collector.same_album doc an name) (albums w) (next_oid w)
                e doc D Hok Hfind HD) as [pre [post [i [_ [_ [-> [_ Hok']]]]]]].
    + intros s Hs. by apply same_album_self.
    + left. unfold D. by lookups.
    + by intros [= <- <-].
  - unfold insert_album, insert_into. rewrite Hnoid. intros [= <- <-]. simpl.
    by apply store_ok_insert.
Qed.

Lemma create_album_document_no_id (E : Env) (r : Album) (g : document) (t : Z)
    (doc : document) :
  Collector.create_album_document E r g t = Some doc -> doc !! "_id" = None.
Proof.
  unfold Collector.create_album_document.
  destruct (g !! "_id"), (g !! "name"); try discriminate. intros [= <-]. reflexivity.
Qed.

Lemma save_albums_store_ok (E : Env) (releases : list Album) :
  forall group stats w stats' w',
    store_ok (albums w) (next_oid w) ->
    Collector.save_albums E releases group stats w = Some (stats', w') ->
    store_ok (albums w') (next_oid w').
Proof.
  induction releases as [|a releases IH]; intros group stats w stats' w' Hok.
  - by intros [= <- <-].
  - cbn [Collector.save_albums]. unfold_M. cbn beta iota.
    destruct (Collector.create_album_document E a group (clock w)) as [doc|] eqn:Hdoc.
    + destruct (Collector.save_or_update_album doc w) as [[[[ok act] d] w1]|] eqn:Hsave;
        [|discriminate].
      apply create_album_document_no_id in Hdoc.
      apply save_or_update_album_store_ok in Hsave; [|done|done]. by apply IH.
    + by apply IH.
Qed.

Lemma by_id_loop_store (E : Env) (fuel : nat) :
  forall artist_id offset all w r w',
    Collector.by_id_loop E fuel artist_id offset all w = Some (r, w') ->
    albums w' = albums w /\ groups w' = groups w /\ next_oid w' = next_oid w.
Proof.
  induction fuel as [|fuel IH]; intros artist_id offset all w r w'; [discriminate|].
  cbn [Collector.by_id_loop]. unfold_M. cbn beta iota.
  destruct (get_artist_albums E artist_id offset (requests w)) as [status ra [releases|]|];
    cbn beta iota;
    repeat match goal with
      | |- context [if ?b then _ else _] => destruct b; cbn beta iota
      | |- context [match wait_time_of ?h with _ => _ end] =>
          destruct (wait_time_of h); cbn beta iota
      end;
    try (by intros [= <- <-]); intros H; by apply IH in H.
Qed.

Lemma by_name_loop_store (E : Env) (check : Album -> option bool) (pages : nat) :
  forall artist_name offset all w r w',
    Collector.by_name_loop E check pages artist_name offset all w = Some (r, w') ->
    albums w' = albums w /\ groups w' = groups w /\ next_oid w' = next_oid w.
Proof.
  induction pages as [|pages IH]; intros artist_name offset all w r w';
    cbn [Collector.by_name_loop]; destruct (negb (offset <? 1000));
    unfold_M; cbn beta iota; try (by intros [= <- <-]); try discriminate.
  destruct (search_albums E _ offset (requests w)) as [status ra [[releases total]|]|];
    cbn beta iota;
    repeat match goal with
      | |- context [if ?b then _ else _] => destruct b; cbn beta iota
      | |- context [match Collector.valid_albums_of ?c ?n ?l with _ => _ end] =>
          destruct (Collector.valid_albums_of c n l); cbn beta iota
      end;
    try (by intros [= <- <-]); intros H; by apply IH in H.
Qed.

Lemma save_albums_kind_groups (E : Env) (releases : list Album) :
  forall group stats w stats' w',
    Collector.save_albums E releases group stats w = Some (stats', w') ->
    groups w' = groups w.
Proof.
  induction releases as [|a releases IH]; intros group stats w stats' w'.
  - by intros [= <- <-].
  - cbn [Collector.save_albums]. unfold_M. cbn beta iota.
    destruct (Collector.create_album_document E a group (clock w)) as [doc|].
    + unfold Collector.save_or_update_album.
      destruct (doc !! "artistName"); [destruct (get_str "name" doc)|]; unfold_M;
        cbn beta iota; try destruct (find_one _ (albums w)); cbn beta iota;
        try destruct (replace_one _ _ _); cbn beta iota;
        try (unfold insert_album; destruct (insert_into _ _ _) as [[[? ?] ?]|];
             cbn beta iota);
        intros Hrun; by apply IH in Hrun.
    + intros Hrun. by apply IH in Hrun.
Qed.

(** A pass over the releases of a group that ends keeps the album
    collection well formed: if every album had an [_id] of its own before
    the pass, every album has one after it, whatever the provider answered;
    and the pass writes no group. *)
Theorem release_pass_keeps_ids_unique (E : Env)
    (is_valid_spotify_album_only : Album -> option bool) (fuel : nat)
    (group : document) (stats : Collector.AlbumStats) (w w' : World) :
  store_ok (albums w) (next_oid w) ->
  Collector.process_existing_group_albums E is_valid_spotify_album_only fuel group w
    = Some (Some stats, w') ->
  store_ok (albums w') (next_oid w') /\ groups w' = groups w.
Proof.
  intros Hok. unfold Collector.process_existing_group_albums.
  destruct (get_str "name" group) as [group_name|]; [|discriminate].
  unfold_M.
  destruct (if truthy (get_str "spotifyId" group) then _ else _) as [[releases w1]|] eqn:Hlist;
    [|discriminate].
  destruct (Collector.save_albums E releases group _ w1) as [[stats' w2]|] eqn:Hsave;
    [|discriminate].
  intros [= <- <-].
  assert (Hsame : albums w1 = albums w /\ groups w1 = groups w /\ next_oid w1 = next_oid w).
  { revert Hlist. destruct (truthy _).
    - unfold Collector.search_albums_by_artist_id, Collector.refresh_spotify_token_if_needed.
      unfold_M. destruct (token E (requests w)); cbn [negb]; [|by intros [= <- <-]].
      destruct (Collector.by_id_loop E fuel _ 0 [] w) as [[r w'']|] eqn:Hloop; [|discriminate].
      intros [= <- <-]. by apply by_id_loop_store in Hloop.
    - unfold Collector.search_albums_by_artist, Collector.refresh_spotify_token_if_needed.
      unfold_M. destruct (token E (requests w)); cbn [negb]; [|by intros [= <- <-]].
      destruct (Collector.by_name_loop E _ 20 _ 0 [] w) as [[r w'']|] eqn:Hloop; [|discriminate].
      intros [= <- <-]. by apply by_name_loop_store in Hloop. }
  destruct Hsame as [Ha [Hg Ho]]. split.
  - eapply save_albums_store_ok; [|exact Hsave]. by rewrite Ha, Ho.
  - eapply save_albums_kind_groups in Hsave. congruence.
Qed.

(** The theorem at a pass over the releases of TWICE, of which the
    provider lists three. *)
Lemma release_pass_keeps_ids_unique_witness :
  match Collector.process_existing_group_albums
          (provider kpop_lookup [album_8; album_6; album_3] [] [])
          undefined_album_check 10 twice_group store_0 with
  | Some (Some stats, w') =>
      store_ok (albums w') (next_oid w') /\ groups w' = groups store_0
  | _ => False
  end.
Proof.
  destruct (Collector.process_existing_group_albums _ _ _ _ _) as [[[stats|] w']|] eqn:Hrun.
  - apply (release_pass_keeps_ids_unique
             (provider kpop_lookup [album_8; album_6; album_3] [] [])
             undefined_album_check 10 twice_group stats store_0 w'); [|exact Hrun].
    split; [constructor|intros d []].
  - vm_compute in Hrun. discriminate.
  - vm_compute in Hrun. discriminate.
Defined.

(* ===================================================================== *)
(** * Regular expressions read as string tests *)
(* ===================================================================== *)


Lemma existsb_pointwise {A : Type} (f g : A -> bool) (l : list A) :
  (forall x, f x = g x) -> existsb f l = existsb g l.
Proof. intros H. induction l as [|x l IH]; simpl; [done|]. by rewrite H, IH. Qed.









Lemma matches_at_Bol (l : list ascii) (r : regex) (i : nat) :
  matches_at l (Seq Bol r) i = (i =? 0)%nat && matches_at l r 0.
Proof.
  unfold matches_at. cbn [ends]. destruct i; simpl; [|done].
  rewrite app_nil_r. done.
Qed.

Lemma existsb_seq_from (g : bool) (n : nat) :
  forall start, existsb (fun i => (i =? 0)%nat && g) (seq (S start) n) = false.
Proof. induction n as [|n IH]; intros start; simpl; [done|]. apply IH. Qed.

(** A pattern anchored at the start is only tried at position 0. *)
Lemma re_search_Bol (r : regex) (s : string) :
  re_search (Seq Bol r) s = matches_at (list_ascii_of_string s) r 0.
Proof.
  unfold re_search. cbv zeta.
  rewrite (existsb_pointwise _ (fun i => (i =? 0)%nat
                                     && matches_at (list_ascii_of_string s) r 0));
    [|intros i; apply matches_at_Bol].
  cbn [seq existsb]. rewrite existsb_seq_from. simpl. by rewrite orb_false_r.
Qed.




Lemma is_upper_lower_ascii (c : ascii) : is_upper (lower_ascii c) = false.
Proof.
  destruct c as [b0 b1 b2 b3 b4 b5 b6 b7].
  destruct b0, b1, b2, b3, b4, b5, b6, b7; reflexivity.
Qed.

(** No lowercased string matches a pattern that begins, at the start of
    the string, with an upper-case letter. *)
Lemma re_search_upper_of_lower (r : regex) (name : string) :
  re_search (Seq Bol (Seq (Cls is_upper) r)) (lower name) = false.
Proof.
  rewrite re_search_Bol. unfold matches_at. cbn [ends].
  destruct name as [|c name]; [done|]. cbn [lower list_ascii_of_string nth_error].
  by rewrite is_upper_lower_ascii.
Qed.

(* ===================================================================== *)
(** * The classifier of discovered artists *)
(* ===================================================================== *)

Lemma len_strip_empty : len (strip "") = 0.
Proof. reflexivity. Qed.


Lemma any_search_app (ps qs : list regex) (s : string) :
  any_search (ps ++ qs) s = any_search ps s || any_search qs s.
Proof. unfold any_search. apply existsb_app. Qed.

Lemma looks_like_kpop_name_live (name : string) :
  Collector.looks_like_kpop_name name
  = any_in Collector.kpop_keywords (lower name)
    || any_search (firstn 2 Collector.kpop_patterns ++ skipn 3 Collector.kpop_patterns)
                  (lower name).
Proof.
  unfold Collector.looks_like_kpop_name. cbv zeta.
  destruct (any_in Collector.kpop_keywords (lower name)); [done|]. cbn [orb].
  unfold Collector.kpop_patterns. cbn [firstn skipn app].
  unfold any_search. cbn [existsb].
  change (seqs [Bol; Cls is_upper; Cls is_upper; Collector.upto 6 (Cls is_upper); Eol])
    with (Seq Bol (Seq (Cls is_upper)
            (seqs [Cls is_upper; Collector.upto 6 (Cls is_upper); Eol]))).
  rewrite re_search_upper_of_lower. cbn [orb].
  by destruct (re_search _ _), (re_search _ _), (re_search _ _).
Qed.



(** The third pattern of [looks_like_kpop_name], an acronym of two to
    eight capitals, is applied to the lowercased name and never matches:
    the method decides as if the pattern were not in its list. *)
Theorem acronym_pattern_never_matches (name : string) :
  Collector.looks_like_kpop_name name
  = any_in Collector.kpop_keywords (lower name)
    || any_search (firstn 2 Collector.kpop_patterns ++ skipn 3 Collector.kpop_patterns)
                  (lower name).
Proof. apply looks_like_kpop_name_live. Qed.

(* ===================================================================== *)
(** * The collector as the file stands: the two undefined methods *)
(* ===================================================================== *)





Lemma phase_1_undefined (E : Env) (cgd : Artist -> Z -> option document)
    (check : Album -> option bool) (artists : list Artist) :
  (forall a t, cgd a t = None) ->
  forall p g a w,
    exists w',
      Collector.phase_1 E cgd check artists (p, g, a) w
      = Some ((p + Z.of_nat (length artists), g, a), w') /\
      groups w' = groups w /\ albums w' = albums w /\ requests w' = requests w.
Proof.
  intros Hc. induction artists as [|x artists IH]; intros p g a w.
  - exists w. cbn [Collector.phase_1 length]. unfold_M.
    replace (p + Z.of_nat 0) with p by lia. done.
  - cbn [Collector.phase_1]. unfold Collector.process_artist_complete. unfold_M.
    cbn beta iota. rewrite Hc. cbn beta iota.
    change (str_in "created" (Collector.group_action Collector.initial_stats))
      with false. cbn beta iota.
    match goal with
    | |- context [Collector.phase_1 E cgd check artists ?c ?w2] =>
        destruct (IH (p + 1) g a w2) as [w' [Hrun [Hg [Ha Hq]]]]
    end.
    exists w'. cbn [Collector.albums_created Collector.initial_stats].
    replace (a + 0) with a by lia. rewrite Hrun.
    replace (p + 1 + Z.of_nat (length artists)) with (p + Z.of_nat (length (x :: artists)))
      by (cbn [length]; lia).
    done.
Qed.

(** As the file stands, [create_group_document] is not defined, and
    [process_artist_complete] ends in its handler before it stores
    anything. Phase 1 of a run then counts every discovered artist as
    processed, creates no group and no album, and sends no request. *)
Theorem phase_1_creates_nothing (E : Env) (cgd : Artist -> Z -> option document)
    (check : Album -> option bool) (artists : list Artist) (w : World) :
  (forall a t, cgd a t = None) ->
  exists w',
    Collector.phase_1 E cgd check artists (0, 0, 0) w
    = Some ((Z.of_nat (length artists), 0, 0), w') /\
    groups w' = groups w /\ albums w' = albums w /\ requests w' = requests w.
Proof. intros Hc. apply (phase_1_undefined E cgd check artists Hc 0 0 0 w). Qed.

Lemma phase_1_creates_nothing_witness :
  exists w',
    Collector.phase_1 (provider kpop_lookup [] [album_8] [])
      undefined_group_document undefined_album_check
      [artist other_id "ITZY" ["k-pop"] 80] (0, 0, 0) store_0
    = Some ((Z.of_nat (length [artist other_id "ITZY" ["k-pop"] 80]), 0, 0), w') /\
    groups w' = groups store_0 /\ albums w' = albums store_0 /\
    requests w' = requests store_0.
Proof.
  apply (phase_1_creates_nothing (provider kpop_lookup [] [album_8] [])
           undefined_group_document undefined_album_check
           [artist other_id "ITZY" ["k-pop"] 80] store_0).
  reflexivity.
Defined.

(* ===================================================================== *)
(** * The report of a run of the collector *)
(* ===================================================================== *)


















(* ===================================================================== *)
(** * A listing that the provider keeps rate limiting *)
(* ===================================================================== *)

Lemma by_id_loop_rate_limited (E : Env) (artist_id : string) (ra : RetryAfter) (wait : Z)
    (fuel : nat) :
  wait_time_of ra = Some wait -> 0 <= wait <= 60 ->
  (forall offset n, exists body,
     get_artist_albums E artist_id offset n = Response 429 ra body) ->
  forall offset all w, Collector.by_id_loop E fuel artist_id offset all w = None.
Proof.
  intros Hra Hwait Hresp. induction fuel as [|fuel IH]; intros offset all w; [done|].
  cbn [Collector.by_id_loop]. unfold_M. cbn beta iota.
  destruct (Hresp offset (requests w)) as [body ->]. cbn beta iota.
  change (429 =? 200) with false. change (429 =? 429) with true. cbn beta iota.
  rewrite Hra. cbn beta iota.
  destruct (Z.leb_spec wait 60); [|lia]. destruct (Z.ltb_spec wait 0); [lia|].
  apply IH.
Qed.

(** The loop [while True] of [search_albums_by_artist_id] has no bound on
    its retries: when the provider answers every request for the listing
    with a 429 whose wait is at most 60 seconds, the loop sleeps and asks
    again for ever. No number of turns is enough for the search to return,
    nor for a pass over the releases of a group with that id. *)
Theorem persistent_rate_limit_never_ends (E : Env)
    (check : Album -> option bool) (group : document)
    (group_name artist_id : string) (ra : RetryAfter) (wait : Z) (w : World) :
  wait_time_of ra = Some wait -> 0 <= wait <= 60 ->
  (forall offset n, exists body,
     get_artist_albums E artist_id offset n = Response 429 ra body) ->
  token E (requests w) = true ->
  get_str "name" group = Some group_name ->
  get_str "spotifyId" group = Some artist_id -> artist_id <> "" ->
  forall fuel,
    Collector.search_albums_by_artist_id E fuel artist_id group_name w = None /\
    Collector.process_existing_group_albums E check fuel group w = None.
Proof.
  intros Hra Hwait Hresp Htok Hname Hid Hne fuel.
  assert (Hsearch : Collector.search_albums_by_artist_id E fuel artist_id group_name w
                    = None).
  { unfold Collector.search_albums_by_artist_id, Collector.refresh_spotify_token_if_needed.
    unfold_M. rewrite Htok. cbn [negb].
    by rewrite (by_id_loop_rate_limited E artist_id ra wait fuel Hra Hwait Hresp). }
  split; [done|].
  unfold Collector.process_existing_group_albums. rewrite Hname, Hid.
  cbn [truthy default from_option id].
  destruct (String.eqb_spec artist_id "") as [|_]; [done|]. cbn [negb].
  unfold_M. unfold mbind, M_bind. by rewrite Hsearch.
Qed.

Lemma persistent_rate_limit_never_ends_witness :
  Collector.search_albums_by_artist_id always_rate_limited 1000 twice_id "TWICE" store_0
  = None /\
  Collector.process_existing_group_albums always_rate_limited undefined_album_check
    1000 twice_group store_0 = None.
Proof.
  apply (persistent_rate_limit_never_ends always_rate_limited undefined_album_check
           twice_group "TWICE" twice_id (RA_seconds 1) 1 store_0).
  - reflexivity.
  - lia.
  - intros offset n. by exists None.
  - reflexivity.
  - reflexivity.
  - reflexivity.
  - discriminate.
Defined.

(* ===================================================================== *)
(** * The cleaner's replacement of a group's albums *)
(* ===================================================================== *)








